(** * Agent round-table: the turn engine, the model adapter and its parser

    A shallow embedding of the TypeScript sources

      - [src/utils] ([indexToLetters], [truncateString]),
      - [src/services/llm-service.ts] in its two revisions (the OpenAI-only
        adapter and the OpenAI/Groq adapter),
      - [src/db/database.ts] and
      - [src/services/agent-service.ts],

    followed by the properties of the specification, each settled against
    these definitions. *)

From Stdlib Require Import String Ascii.
From Stdlib Require Import List Arith NArith ZArith Bool Lia.
From Stdlib Require Import Sorted Permutation.
Import ListNotations.

Set Implicit Arguments.

(* ================================================================== *)
(** * JavaScript strings *)
(* ================================================================== *)

(** A JavaScript string is a sequence of 16-bit code units. *)
Module JsString.

Definition char := N.
Definition jsstring := list char.

(** A literal of the source, written as a Rocq string of ASCII characters. *)
Definition js (s : string) : jsstring :=
  map N_of_ascii (list_ascii_of_string s).

Definition LF : char := 10%N.

(** [String.fromCharCode(n)] for an integer [n >= 0]: the code unit is
    [ToUint16(n)]. *)
Definition fromCharCode (n : N) : jsstring := [(n mod 65536)%N].

Definition eqb (a b : jsstring) : bool :=
  if list_eq_dec N.eq_dec a b then true else false.

Lemma eqb_eq (a b : jsstring) : eqb a b = true <-> a = b.
Proof.
  unfold eqb. destruct (list_eq_dec N.eq_dec a b); split; congruence.
Qed.

(** WhiteSpace and LineTerminator code units: the set of [\s] in a regular
    expression and of [String.prototype.trim]. *)
Definition is_space (c : char) : bool :=
  ((9 <=? c) && (c <=? 13) || (c =? 32) || (c =? 160) || (c =? 5760)
   || (8192 <=? c) && (c <=? 8202) || (c =? 8232) || (c =? 8233)
   || (c =? 8239) || (c =? 8287) || (c =? 12288) || (c =? 65279))%N.

Fixpoint trimStart (s : jsstring) : jsstring :=
  match s with
  | c :: tl => if is_space c then trimStart tl else s
  | [] => []
  end.

Definition trimEnd (s : jsstring) : jsstring := rev (trimStart (rev s)).

(** [s.trim()] *)
Definition trim (s : jsstring) : jsstring := trimEnd (trimStart s).

(** JavaScript truthiness of a string: non-empty. *)
Definition truthy (s : jsstring) : bool :=
  match s with [] => false | _ :: _ => true end.

(** ASCII case mapping on code units.  The pattern characters of this
    program's regular expressions are all ASCII; without the [u] flag the
    [Canonicalize] operation of the language never maps a code unit of 128
    or more to one below 128, so against these patterns case-insensitive
    comparison is ASCII case folding. *)
Definition toUpper (c : char) : char :=
  if ((97 <=? c) && (c <=? 122))%N then (c - 32)%N else c.
Definition toLower (c : char) : char :=
  if ((65 <=? c) && (c <=? 90))%N then (c + 32)%N else c.

Definition canonicalize (ignoreCase : bool) (c : char) : char :=
  if ignoreCase then toUpper c else c.

End JsString.
Import JsString.

(* ================================================================== *)
(** * Utilities ([src/utils]) *)
(* ================================================================== *)

(** [indexToLetters]: one letter below 26, two letters from there on. *)
Definition indexToLetters (index : nat) : jsstring :=
  if index <? 26 then fromCharCode (65 + N.of_nat index)
  else
    let firstChar := fromCharCode (65 + N.of_nat (index / 26) - 1) in
    let secondChar := fromCharCode (65 + N.of_nat (index mod 26)) in
    firstChar ++ secondChar.

(** Follows the specification's words, for comparison with the code: the
    spreadsheet column sequence A, ..., Z, AA, AB, ..., a base-26 letter
    encoding with no zero digit. *)
Fixpoint spreadsheet_name_fuel (fuel index : nat) : jsstring :=
  match fuel with
  | 0 => []
  | S f =>
      let last := [(65 + N.of_nat (index mod 26))%N] in
      if index <? 26 then last
      else spreadsheet_name_fuel f (index / 26 - 1) ++ last
  end.

Definition spreadsheet_name (index : nat) : jsstring :=
  spreadsheet_name_fuel (S index) index.

(** [str.substring(0, end)] for an integer [end]: the end is clamped to
    the string, a negative one to 0. *)
Definition substring0 (str : jsstring) (end_ : Z) : jsstring :=
  firstn (Z.to_nat end_) str.

(** [truncateString] of the utilities, for an integer [maxLength]. *)
Definition truncateString (str : jsstring) (maxLength : Z) : jsstring :=
  if (Z.of_nat (length str) <=? maxLength)%Z then str
  else substring0 str (maxLength - 3) ++ js "...".

(* ================================================================== *)
(** * Regular expressions, as the language runs them *)
(* ================================================================== *)

(** A backtracking matcher in continuation-passing style for the fragment
    the parser's four expressions use: characters, classes, sequence,
    alternation, the quantifiers [*], [*?], [+] and [{n,}], one capturing
    group, positive lookahead and the anchors [^] and [$] (no [m] flag). *)
Module Regex.

Inductive ClassAtom : Type :=
| ClsRange (lo hi : char)      (* a-b *)
| ClsSpace                     (* \s  *)
| ClsNonSpace.                 (* \S  *)

Inductive regex : Type :=
| REmpty
| RChar (c : char)
| RClass (atoms : list ClassAtom)
| RSeq (r1 r2 : regex)
| RAlt (r1 r2 : regex)
| RQuant (min : nat) (greedy : bool) (r : regex)   (* r{min,} or r{min,}? *)
| RGroup (r : regex)                               (* ( r ), group 1 *)
| RLookahead (r : regex)                           (* (?= r ) *)
| RBol                                             (* ^ *)
| REol.                                            (* $ *)

(** The characters of a literal, in sequence. *)
Fixpoint lit (s : jsstring) : regex :=
  match s with
  | [] => REmpty
  | c :: tl => RSeq (RChar c) (lit tl)
  end.

Definition star (r : regex) : regex := RQuant 0 true r.
Definition lazy_star (r : regex) : regex := RQuant 0 false r.
Definition plus (r : regex) : regex := RQuant 1 true r.

(** The position of a match is kept as the input still to read; [cap1] is
    the text of capturing group 1. *)
Record MatchState : Type := mkState {
  rest : jsstring;
  cap1 : option jsstring
}.

Definition Continuation : Type := MatchState -> option MatchState.

Definition advance (x : MatchState) (tl : jsstring) : MatchState :=
  {| rest := tl; cap1 := cap1 x |}.

Definition in_range (lo hi c : char) : bool := ((lo <=? c) && (c <=? hi))%N.

(** A class member [a] matches the input character [c] when
    [Canonicalize a = Canonicalize c]. *)
Definition atom_matches (ignoreCase : bool) (c : char) (a : ClassAtom) : bool :=
  match a with
  | ClsRange lo hi =>
      in_range lo hi c
      || (ignoreCase && (in_range lo hi (toUpper c) || in_range lo hi (toLower c)))
  | ClsSpace => is_space c
  | ClsNonSpace => negb (is_space c)
  end.

Fixpoint has_group (r : regex) : bool :=
  match r with
  | RGroup _ => true
  | RSeq a b | RAlt a b => has_group a || has_group b
  | RQuant _ _ a | RLookahead a => has_group a
  | _ => false
  end.

(** Every iteration of a quantified atom starts with the captures inside
    the atom cleared. *)
Definition clear_caps (clr : bool) (x : MatchState) : MatchState :=
  if clr then {| rest := rest x; cap1 := None |} else x.

Section Repeat.
Variable step : MatchState -> Continuation -> option MatchState.
Variable clr : bool.

(** The [min] compulsory iterations. *)
Fixpoint repeatMin (min : nat) (x : MatchState) (k : Continuation)
  : option MatchState :=
  match min with
  | 0 => k x
  | S n => step (clear_caps clr x) (fun y => repeatMin n y k)
  end.

(** The optional iterations: an iteration that consumes nothing is
    rejected, so [fuel] above the length of the remaining input is never
    used up. *)
Fixpoint repeatMore (greedy : bool) (fuel : nat) (x : MatchState)
  (k : Continuation) : option MatchState :=
  match fuel with
  | 0 => k x
  | S f =>
      let again (_ : unit) :=
        step (clear_caps clr x)
             (fun y => if length (rest y) <? length (rest x)
                       then repeatMore greedy f y k else None) in
      if greedy then
        match again tt with Some z => Some z | None => k x end
      else
        match k x with Some z => Some z | None => again tt end
  end.
End Repeat.

Section Matcher.
Variable ignoreCase : bool.
Variable input : jsstring.

Fixpoint m (r : regex) (x : MatchState) (k : Continuation) {struct r}
  : option MatchState :=
  match r with
  | REmpty => k x
  | RChar c =>
      match rest x with
      | ch :: tl =>
          if (canonicalize ignoreCase ch =? canonicalize ignoreCase c)%N
          then k (advance x tl) else None
      | [] => None
      end
  | RClass atoms =>
      match rest x with
      | ch :: tl =>
          if existsb (atom_matches ignoreCase ch) atoms
          then k (advance x tl) else None
      | [] => None
      end
  | RSeq r1 r2 => m r1 x (fun y => m r2 y k)
  | RAlt r1 r2 =>
      match m r1 x k with
      | Some z => Some z
      | None => m r2 x k
      end
  | RQuant min greedy r1 =>
      repeatMin (m r1) (has_group r1) min x
        (fun y => repeatMore (m r1) (has_group r1) greedy
                    (S (length (rest y))) y k)
  | RGroup r1 =>
      m r1 x (fun y =>
        k {| rest := rest y;
             cap1 := Some (firstn (length (rest x) - length (rest y))
                                  (rest x)) |})
  | RLookahead r1 =>
      match m r1 x Some with
      | Some y => k {| rest := rest x; cap1 := cap1 y |}
      | None => None
      end
  | RBol => if length (rest x) =? length input then k x else None
  | REol => match rest x with [] => k x | _ :: _ => None end
  end.

(** One attempt at the position whose remaining input is [s]. *)
Definition match_at (r : regex) (s : jsstring) : option MatchState :=
  m r {| rest := s; cap1 := None |} Some.
End Matcher.

(** The result of [RegExpBuiltinExec]: the text before the match, the
    match, the text after it and group 1. *)
Record MatchResult : Type := mkResult {
  before : jsstring;
  matched : jsstring;
  after : jsstring;
  group1 : option jsstring
}.

(** The search loop of [exec]: the attempts start at [lastIndex] and move
    one code unit to the right after each failure, up to the end of the
    input.  [skipped] is the text between [lastIndex] and the attempt, in
    reverse. *)
Fixpoint search (ic : bool) (input : jsstring) (r : regex)
  (skipped s : jsstring) : option (jsstring * jsstring * MatchState) :=
  match match_at ic input r s with
  | Some y => Some (rev skipped, s, y)
  | None =>
      match s with
      | [] => None
      | c :: tl => search ic input r (c :: skipped) tl
      end
  end.

(** [input.match(/r/)] and [input.match(/r/i)], the expression not being
    global. *)
Definition exec (ic : bool) (r : regex) (input : jsstring)
  : option MatchResult :=
  match search ic input r [] input with
  | Some (pre, s, y) =>
      Some {| before := pre;
              matched := firstn (length s - length (rest y)) s;
              after := rest y;
              group1 := cap1 y |}
  | None => None
  end.

(** [input.replace(/r/, '')]: the first match is removed. *)
Definition replace_first (ic : bool) (r : regex) (input : jsstring)
  : jsstring :=
  match exec ic r input with
  | Some res => before res ++ after res
  | None => input
  end.

(** [input.replace(/r/g, '')]: every match is removed; the search resumes
    where the last match ended, one code unit further after an empty
    match.  [s] is the input from [lastIndex] on. *)
Fixpoint replace_from (fuel : nat) (ic : bool) (input : jsstring) (r : regex)
  (s : jsstring) : jsstring :=
  match fuel with
  | 0 => s
  | S f =>
      match search ic input r [] s with
      | None => s
      | Some (pre, at_match, y) =>
          if length (rest y) <? length at_match
          then pre ++ replace_from f ic input r (rest y)
          else match rest y with
               | [] => pre
               | c :: tl => pre ++ c :: replace_from f ic input r tl
               end
      end
  end.

Definition replace_all (ic : bool) (r : regex) (input : jsstring) : jsstring :=
  replace_from (S (length input)) ic input r input.

End Regex.
Import Regex.

(* ================================================================== *)
(** * The response parser ([parseAgentResponse]) *)
(* ================================================================== *)

Module AgentResponse.
Record t : Type := mk {
  publicResponse : jsstring;
  privateThoughts : jsstring
}.
End AgentResponse.

Definition PUBLIC_HEADER : jsstring := js "PUBLIC RESPONSE:".
Definition PRIVATE_HEADER : jsstring := js "PRIVATE THOUGHTS:".

Definition any_char : regex := RClass [ClsSpace; ClsNonSpace].
Definition space : regex := RClass [ClsSpace].

(** [/PUBLIC RESPONSE:\s*([\s\S]*?)(?=PRIVATE THOUGHTS:|$)/i] *)
Definition public_re : regex :=
  RSeq (lit PUBLIC_HEADER)
    (RSeq (star space)
      (RSeq (RGroup (lazy_star any_char))
            (RLookahead (RAlt (lit PRIVATE_HEADER) REol)))).

(** [/PRIVATE THOUGHTS:\s*([\s\S]*?)$/i] *)
Definition private_re : regex :=
  RSeq (lit PRIVATE_HEADER)
    (RSeq (star space)
      (RSeq (RGroup (lazy_star any_char)) REol)).

(** [[A-Z]] *)
Definition capital : regex := RClass [ClsRange 65%N 90%N].

(** [User [A-Z]+:\s*] *)
Definition name_prefix : regex :=
  RSeq (lit (js "User "))
    (RSeq (plus capital)
      (RSeq (RChar 58%N) (star space))).

(** The group [(P)] of the prefix [P] above. *)
Definition prefix_group : regex := RGroup name_prefix.

(** [/^(P)+/] *)
Definition leading_prefixes_re : regex :=
  RSeq RBol (plus prefix_group).

(** [/(P){2,}/] *)
Definition repeated_prefixes_re : regex :=
  RQuant 2 true prefix_group.

(** [match && match[1]] *)
Definition captured (mt : option MatchResult) : option jsstring :=
  match mt with
  | Some res =>
      match group1 res with
      | Some g => if truthy g then Some g else None
      | None => None
      end
  | None => None
  end.

(** The adapter of [src/services/llm-service.ts] (one provider). *)
Module LlmService.

Definition parseAgentResponse (responseText : jsstring) : AgentResponse.t :=
  let publicMatch := exec true public_re responseText in
  let privateMatch := exec true private_re responseText in
  let publicResponse :=
    match captured publicMatch with
    | Some g => replace_first true leading_prefixes_re (trim g)
    | None => responseText
    end in
  let privateThoughts :=
    match captured privateMatch with
    | Some g => trim g
    | None => []
    end in
  {| AgentResponse.publicResponse := publicResponse;
     AgentResponse.privateThoughts := privateThoughts |}.

End LlmService.

(** The adapter of the later revision (OpenAI and Groq): the prefix
    expressions carry the [g] flag and no [i] flag, and a second
    replacement removes repeated prefixes anywhere. *)
Module LlmServiceMulti.

Definition parseAgentResponse (responseText : jsstring) : AgentResponse.t :=
  let publicMatch := exec true public_re responseText in
  let privateMatch := exec true private_re responseText in
  let publicResponse :=
    match captured publicMatch with
    | Some g =>
        replace_all false repeated_prefixes_re
          (replace_all false leading_prefixes_re (trim g))
    | None => responseText
    end in
  let privateThoughts :=
    match captured privateMatch with
    | Some g => trim g
    | None => []
    end in
  {| AgentResponse.publicResponse := publicResponse;
     AgentResponse.privateThoughts := privateThoughts |}.

End LlmServiceMulti.

(* ================================================================== *)
(** * The data model ([src/types]) *)
(* ================================================================== *)

Module Message.
Record t : Type := mk {
  id : jsstring;
  conversationId : jsstring;
  agentId : option jsstring;      (* null for user messages *)
  agentName : option jsstring;    (* null for user messages *)
  content : jsstring;
  isPrivate : bool;
  timestamp : Z
}.
End Message.

Module Agent.
Record t : Type := mk {
  id : jsstring;
  name : jsstring;
  systemPrompt : jsstring;
  privateThoughts : list Message.t
}.
End Agent.

Module Conversation.
Record t : Type := mk {
  id : jsstring;
  topic : jsstring;
  messages : list Message.t;
  agents : list Agent.t;
  createdAt : Z;
  updatedAt : Z
}.
End Conversation.

Module DbConversation.
Record t : Type := mk {
  id : jsstring;
  topic : jsstring;
  created_at : Z;
  updated_at : Z
}.
End DbConversation.

Module DbAgent.
Record t : Type := mk {
  id : jsstring;
  conversation_id : jsstring;
  name : jsstring;
  system_prompt : jsstring
}.
End DbAgent.

(** [is_private] is written to its column as 1 or 0 and read back through
    [Boolean]. *)
Module DbMessage.
Record t : Type := mk {
  id : jsstring;
  conversation_id : jsstring;
  agent_id : option jsstring;
  agent_name : option jsstring;
  content : jsstring;
  is_private : bool;
  timestamp : Z
}.
End DbMessage.

(** [array[i]] for an integer [i]: [undefined] outside the array. *)
Definition array_get {A : Type} (l : list A) (i : Z) : option A :=
  if (i <? 0)%Z then None else nth_error l (Z.to_nat i).

(** The array with the element at index [i] replaced by its image under
    [f]: the mutation of one element object in place. *)
Fixpoint array_update {A : Type} (f : A -> A) (i : nat) (l : list A)
  : list A :=
  match l, i with
  | [], _ => []
  | a :: tl, 0 => f a :: tl
  | a :: tl, S j => a :: array_update f j tl
  end.

(* ================================================================== *)
(** * The conversation store ([src/db/database.ts]) *)
(* ================================================================== *)

Module DatabaseService.

(** The three tables, each in row order, and whether the engine enforces
    the declared foreign keys (a setting of the SQLite connection).  A
    text column holds the string written, code unit for code unit: the
    store keeps text as UTF-8, so this is the row of the store for strings
    without a lone surrogate, and what is proved of text read back is
    stated for such strings. *)
Record t : Type := mk {
  conversations : list DbConversation.t;
  agents : list DbAgent.t;
  messages : list DbMessage.t;
  foreign_keys : bool
}.

Inductive DbError : Type := DuplicateKey | ForeignKeyViolation.

Definition has_conversation (d : t) (id : jsstring) : bool :=
  existsb (fun c => eqb (DbConversation.id c) id) (conversations d).
Definition has_agent (d : t) (id : jsstring) : bool :=
  existsb (fun a => eqb (DbAgent.id a) id) (agents d).
Definition has_message (d : t) (id : jsstring) : bool :=
  existsb (fun x => eqb (DbMessage.id x) id) (messages d).

Definition createConversation (conversation : DbConversation.t) (d : t)
  : DbError + t :=
  if has_conversation d (DbConversation.id conversation) then inl DuplicateKey
  else inr {| conversations := conversations d ++ [conversation];
              agents := agents d;
              messages := messages d;
              foreign_keys := foreign_keys d |}.

Definition createAgent (agent : DbAgent.t) (d : t) : DbError + t :=
  if has_agent d (DbAgent.id agent) then inl DuplicateKey
  else if foreign_keys d
          && negb (has_conversation d (DbAgent.conversation_id agent))
  then inl ForeignKeyViolation
  else inr {| conversations := conversations d;
              agents := agents d ++ [agent];
              messages := messages d;
              foreign_keys := foreign_keys d |}.

Definition agent_ref_ok (d : t) (a : option jsstring) : bool :=
  match a with
  | Some id => has_agent d id
  | None => true
  end.

Definition createMessage (message : DbMessage.t) (d : t) : DbError + t :=
  if has_message d (DbMessage.id message) then inl DuplicateKey
  else if foreign_keys d
          && negb (has_conversation d (DbMessage.conversation_id message)
                   && agent_ref_ok d (DbMessage.agent_id message))
  then inl ForeignKeyViolation
  else inr {| conversations := conversations d;
              agents := agents d;
              messages := messages d ++ [message];
              foreign_keys := foreign_keys d |}.

(** Modelled from the spec: [updateConversation] is called by the turn
    engine but is not defined in the revision of [database.ts] at hand;
    the specification lists it as [updateConversationTimestamp(id,
    updatedAt)], persisting the bumped timestamp of that conversation. *)
Definition updateConversation (conversation : DbConversation.t) (d : t) : t :=
  {| conversations :=
       map (fun c =>
              if eqb (DbConversation.id c) (DbConversation.id conversation)
              then {| DbConversation.id := DbConversation.id c;
                      DbConversation.topic := DbConversation.topic c;
                      DbConversation.created_at := DbConversation.created_at c;
                      DbConversation.updated_at :=
                        DbConversation.updated_at conversation |}
              else c)
           (conversations d);
     agents := agents d;
     messages := messages d;
     foreign_keys := foreign_keys d |}.

Definition getConversation (id : jsstring) (d : t) : option DbConversation.t :=
  find (fun c => eqb (DbConversation.id c) id) (conversations d).

Definition getAgentsForConversation (conversationId : jsstring) (d : t)
  : list DbAgent.t :=
  filter (fun a => eqb (DbAgent.conversation_id a) conversationId) (agents d).

(** [ORDER BY timestamp ASC] over the rows in row order: a stable sort. *)
Fixpoint insert_by_timestamp (x : DbMessage.t) (l : list DbMessage.t)
  : list DbMessage.t :=
  match l with
  | [] => [x]
  | y :: tl =>
      if (DbMessage.timestamp x <? DbMessage.timestamp y)%Z
      then x :: l
      else y :: insert_by_timestamp x tl
  end.

Definition order_by_timestamp (l : list DbMessage.t) : list DbMessage.t :=
  fold_left (fun acc x => insert_by_timestamp x acc) l [].

Definition getPublicMessagesForConversation (conversationId : jsstring)
  (d : t) : list DbMessage.t :=
  order_by_timestamp
    (filter (fun x => eqb (DbMessage.conversation_id x) conversationId
                      && negb (DbMessage.is_private x))
            (messages d)).

Definition agent_id_is (agentId : jsstring) (x : DbMessage.t) : bool :=
  match DbMessage.agent_id x with
  | Some a => eqb a agentId
  | None => false
  end.

Definition getPrivateMessagesForAgent (agentId : jsstring) (d : t)
  : list DbMessage.t :=
  order_by_timestamp
    (filter (fun x => agent_id_is agentId x && DbMessage.is_private x)
            (messages d)).

Definition dbMessageToMessage (dbMessage : DbMessage.t) : Message.t :=
  {| Message.id := DbMessage.id dbMessage;
     Message.conversationId := DbMessage.conversation_id dbMessage;
     Message.agentId := DbMessage.agent_id dbMessage;
     Message.agentName := DbMessage.agent_name dbMessage;
     Message.content := DbMessage.content dbMessage;
     Message.isPrivate := DbMessage.is_private dbMessage;
     Message.timestamp := DbMessage.timestamp dbMessage |}.

Definition loadConversation (conversationId : jsstring) (d : t)
  : option Conversation.t :=
  match getConversation conversationId d with
  | None => None
  | Some dbConversation =>
      let dbAgents := getAgentsForConversation conversationId d in
      let dbPublicMessages := getPublicMessagesForConversation conversationId d in
      let agents :=
        map (fun dbAgent =>
               let privateMessages :=
                 map dbMessageToMessage
                     (getPrivateMessagesForAgent (DbAgent.id dbAgent) d) in
               {| Agent.id := DbAgent.id dbAgent;
                  Agent.name := DbAgent.name dbAgent;
                  Agent.systemPrompt := DbAgent.system_prompt dbAgent;
                  Agent.privateThoughts := privateMessages |})
            dbAgents in
      let messages := map dbMessageToMessage dbPublicMessages in
      Some {| Conversation.id := DbConversation.id dbConversation;
              Conversation.topic := DbConversation.topic dbConversation;
              Conversation.messages := messages;
              Conversation.agents := agents;
              Conversation.createdAt := DbConversation.created_at dbConversation;
              Conversation.updatedAt := DbConversation.updated_at dbConversation |}
  end.

End DatabaseService.

(* ================================================================== *)
(** * The process: clock, identifiers, backend and the store *)
(* ================================================================== *)

Record ApiMessage : Type := mkApiMessage {
  role : jsstring;
  content : jsstring
}.

(** What awaiting [chat.completions.create] gives: a response, of which the
    code reads [response.choices[0]?.message?.content] (a string, or null
    or undefined), or a rejection, an exception included, with the text
    [String(error)].  A response without [choices] makes that read throw
    inside the [try]: it counts as a rejection with the text of that
    error. *)
Inductive Completion : Type :=
| Completed (content : option jsstring)
| Rejected (error : jsstring).

(** The surroundings of a run: the values [uuidv4()] returns, the time
    that passes before each reading of [Date.now()], and what the backend
    answers to each request. *)
Record Env : Type := mkEnv {
  uuid_at : nat -> jsstring;
  drift_at : nat -> Z;
  completion_at : nat -> list ApiMessage -> Completion
}.

(** The fields of an [LlmService] instance.  [rateLimit] is the result of
    [parseInt]: an integer or [NaN] ([None]). *)
Record LlmState : Type := mkLlm {
  requestCount : Z;
  lastResetTime : Z;
  rateLimit : option Z;
  modelProvider : jsstring
}.

(** A request sent to the backend, as the record of a run keeps it: the
    time of the last clock reading, the arguments of the adapter call that
    issued it, the request and whether it completed. *)
Record Dispatch : Type := mkDispatch {
  d_time : Z;
  d_agentName : jsstring;
  d_history : list Message.t;
  d_thoughts : list Message.t;
  d_request : list ApiMessage;
  d_ok : bool
}.

Record World : Type := mkWorld {
  store : DatabaseService.t;
  llm : LlmState;
  clock : Z;
  reads : nat;                  (* readings of Date.now() so far *)
  uuids : nat;                  (* calls of uuidv4() so far *)
  dispatches : list Dispatch    (* requests issued so far, oldest first *)
}.

Inductive Error : Type :=
| NotFound (agentIndex : Z)     (* Error(`Agent at index ${agentIndex} not found`) *)
| TypeError                     (* a property read of undefined *)
| StoreError (e : DatabaseService.DbError).

Inductive Result (A : Type) : Type :=
| Ok (a : A)
| Throw (e : Error).
Arguments Ok {A} a.
Arguments Throw {A} e.

(** Computations of the process: a thrown error leaves the effects that
    came before it in place. *)
Definition M (A : Type) : Type := World -> Result A * World.

Definition ret {A : Type} (a : A) : M A := fun w => (Ok a, w).
Definition throw {A : Type} (e : Error) : M A := fun w => (Throw e, w).
Definition bind {A B : Type} (c : M A) (f : A -> M B) : M B :=
  fun w =>
    match c w with
    | (Ok a, w') => f a w'
    | (Throw e, w') => (Throw e, w')
    end.

Declare Scope proc_scope.
Delimit Scope proc_scope with proc.
Notation "x <- c1 ;; c2" := (bind c1 (fun x => c2))
  (at level 61, c1 at next level, right associativity) : proc_scope.
Notation "c1 ;; c2" := (bind c1 (fun _ => c2))
  (at level 61, right associativity) : proc_scope.
Open Scope proc_scope.

Definition set_store (d : DatabaseService.t) (w : World) : World :=
  {| store := d; llm := llm w; clock := clock w; reads := reads w;
     uuids := uuids w; dispatches := dispatches w |}.
Definition set_llm (s : LlmState) (w : World) : World :=
  {| store := store w; llm := s; clock := clock w; reads := reads w;
     uuids := uuids w; dispatches := dispatches w |}.

Section Process.
Variable E : Env.

(** [uuidv4()] *)
Definition uuidv4 : M jsstring := fun w =>
  (Ok (uuid_at E (uuids w)),
   {| store := store w; llm := llm w; clock := clock w; reads := reads w;
      uuids := S (uuids w); dispatches := dispatches w |}).

(** [Date.now()] *)
Definition Date_now : M Z := fun w =>
  let t := (clock w + drift_at E (reads w))%Z in
  (Ok t,
   {| store := store w; llm := llm w; clock := t; reads := S (reads w);
      uuids := uuids w; dispatches := dispatches w |}).

(** [await new Promise(resolve => setTimeout(resolve, ms))] *)
Definition sleep (ms : Z) : M unit := fun w =>
  (Ok tt,
   {| store := store w; llm := llm w; clock := (clock w + Z.max 0 ms)%Z;
      reads := reads w; uuids := uuids w; dispatches := dispatches w |}).

(** A store operation that can fail. *)
Definition db_write (op : DatabaseService.t -> DatabaseService.DbError + DatabaseService.t)
  : M unit := fun w =>
  match op (store w) with
  | inr d => (Ok tt, set_store d w)
  | inl e => (Throw (StoreError e), w)
  end.

Definition db_update (op : DatabaseService.t -> DatabaseService.t) : M unit :=
  fun w => (Ok tt, set_store (op (store w)) w).

Definition get_llm : M LlmState := fun w => (Ok (llm w), w).
Definition put_llm (s : LlmState) : M unit := fun w => (Ok tt, set_llm s w).

(** [await chat.completions.create({ messages, ... })] *)
Definition create_completion (agentName : jsstring)
  (history thoughts : list Message.t) (request : list ApiMessage)
  : M Completion := fun w =>
  let c := completion_at E (length (dispatches w)) request in
  (Ok c,
   {| store := store w; llm := llm w; clock := clock w; reads := reads w;
      uuids := uuids w;
      dispatches := dispatches w ++
        [{| d_time := clock w; d_agentName := agentName;
            d_history := history; d_thoughts := thoughts;
            d_request := request;
            d_ok := match c with Completed _ => true | Rejected _ => false end |}] |}).

(* ================================================================ *)
(** * The model adapter ([src/services/llm-service.ts]) *)
(* ================================================================ *)

(** [requestCount >= rateLimit], false when [rateLimit] is [NaN]. *)
Definition limit_reached (s : LlmState) : bool :=
  match rateLimit s with
  | Some r => (r <=? requestCount s)%Z
  | None => false
  end.

Definition checkRateLimit : M unit :=
  now <- Date_now ;;
  s <- get_llm ;;
  let elapsedMs := (now - lastResetTime s)%Z in
  if (60000 <=? elapsedMs)%Z then
    put_llm {| requestCount := 0; lastResetTime := now;
               rateLimit := rateLimit s; modelProvider := modelProvider s |}
  else if limit_reached s then
    let waitTimeMs := (60000 - elapsedMs)%Z in
    sleep waitTimeMs ;;
    now' <- Date_now ;;
    put_llm {| requestCount := 0; lastResetTime := now';
               rateLimit := rateLimit s; modelProvider := modelProvider s |}
  else ret tt.

Definition incrementRequestCount : M unit :=
  s <- get_llm ;;
  put_llm {| requestCount := requestCount s + 1;
             lastResetTime := lastResetTime s;
             rateLimit := rateLimit s; modelProvider := modelProvider s |}.

(** [parts.join(sep)] *)
Fixpoint join (sep : jsstring) (parts : list jsstring) : jsstring :=
  match parts with
  | [] => []
  | [a] => a
  | a :: tl => a ++ sep ++ join sep tl
  end.

Definition formatMessagesForApi (agentName systemPrompt : jsstring)
  (messages privateThoughts : list Message.t) : list ApiMessage :=
  let systemMessage :=
    {| role := js "system";
       content :=
         systemPrompt ++ [LF; LF] ++ js "Your name is " ++ agentName
         ++ js ". You are participating in a round-table discussion with other agents."
         ++ [LF; LF] ++ js "Your response should be in the following format:"
         ++ [LF; LF] ++ js "PUBLIC RESPONSE:" ++ [LF]
         ++ js "[Your message that will be shared with all participants]"
         ++ [LF; LF] ++ js "PRIVATE THOUGHTS:" ++ [LF]
         ++ js "[Your private thoughts that only you will see]" |} in
  let historyMessages :=
    map (fun msg =>
           match Message.agentName msg with
           | Some n =>
               if truthy n
               then {| role := js "assistant";
                       content := n ++ js ": " ++ Message.content msg |}
               else {| role := js "user"; content := Message.content msg |}
           | None => {| role := js "user"; content := Message.content msg |}
           end)
        messages in
  let privateThoughtsMessages :=
    if 0 <? length privateThoughts
    then [{| role := js "system";
             content :=
               js "Your previous private thoughts (only visible to you):"
               ++ [LF; LF]
               ++ join [LF; LF]
                    (map (fun thought => js "- " ++ Message.content thought)
                         privateThoughts) |}]
    else [] in
  [systemMessage] ++ privateThoughtsMessages ++ historyMessages.

(** The response of the [catch] branch. *)
Definition unavailable (agentName error : jsstring) : AgentResponse.t :=
  {| AgentResponse.publicResponse :=
       agentName ++ js " is unable to respond at the moment.";
     AgentResponse.privateThoughts :=
       js "Error generating response: " ++ error |}.

(** [content || ''] *)
Definition or_empty (content : option jsstring) : jsstring :=
  match content with Some s => s | None => [] end.

(** [LlmService.generateAgentResponse] of [src/services/llm-service.ts] *)
Definition generateAgentResponse_openai (agentName systemPrompt : jsstring)
  (messages privateThoughts : list Message.t) : M AgentResponse.t :=
  checkRateLimit ;;
  let formattedMessages :=
    formatMessagesForApi agentName systemPrompt messages privateThoughts in
  response <- create_completion agentName messages privateThoughts
                formattedMessages ;;
  match response with
  | Completed content =>
      incrementRequestCount ;;
      ret (LlmService.parseAgentResponse (or_empty content))
  | Rejected error => ret (unavailable agentName error)
  end.

(** [LlmService.generateAgentResponse] of the later revision: the
    provider is chosen by [modelProvider]; any other value throws inside
    the [try], before a request is made. *)
Definition generateAgentResponse_multi (agentName systemPrompt : jsstring)
  (messages privateThoughts : list Message.t) : M AgentResponse.t :=
  checkRateLimit ;;
  let formattedMessages :=
    formatMessagesForApi agentName systemPrompt messages privateThoughts in
  s <- get_llm ;;
  if eqb (modelProvider s) (js "openai") || eqb (modelProvider s) (js "groq")
  then
    response <- create_completion agentName messages privateThoughts
                  formattedMessages ;;
    match response with
    | Completed content =>
        incrementRequestCount ;;
        ret (LlmServiceMulti.parseAgentResponse (or_empty content))
    | Rejected error => ret (unavailable agentName error)
    end
  else
    ret (unavailable agentName
           (js "Error: Unsupported model provider: " ++ modelProvider s)).

(** Which revision of the adapter the turn engine is linked with. *)
Inductive Revision : Type := OpenAIOnly | OpenAIGroq.

Definition llm_generateAgentResponse (rev : Revision)
  : jsstring -> jsstring -> list Message.t -> list Message.t -> M AgentResponse.t :=
  match rev with
  | OpenAIOnly => generateAgentResponse_openai
  | OpenAIGroq => generateAgentResponse_multi
  end.

(* ================================================================ *)
(** * The turn engine ([src/services/agent-service.ts]) *)
(* ================================================================ *)

Definition baseSystemPrompt : jsstring :=
  js "You are an intelligent agent participating in a round-table discussion with other agents. "
  ++ [LF]
  ++ js "Your goal is to engage in thoughtful conversation, share insights, and respond to other participants."
  ++ [LF]
  ++ js "Be respectful, insightful, and contribute meaningfully to the discussion.".

(** The name given to the agent of index [i]. *)
Definition agent_name (i : nat) : jsstring :=
  js "User " ++ fromCharCode (65 + N.of_nat i).

(** The loop [for (let i = 0; i < numAgents; i++)], [remaining] being
    [numAgents - i]. *)
Fixpoint create_agents (conversationId : jsstring) (remaining i : nat)
  (agents : list Agent.t) : M (list Agent.t) :=
  match remaining with
  | 0 => ret agents
  | S n =>
      agentId <- uuidv4 ;;
      let agentName := agent_name i in
      let systemPrompt := baseSystemPrompt in
      db_write (DatabaseService.createAgent
                  {| DbAgent.id := agentId;
                     DbAgent.conversation_id := conversationId;
                     DbAgent.name := agentName;
                     DbAgent.system_prompt := systemPrompt |}) ;;
      create_agents conversationId n (S i)
        (agents ++ [{| Agent.id := agentId;
                       Agent.name := agentName;
                       Agent.systemPrompt := systemPrompt;
                       Agent.privateThoughts := [] |}])
  end.

(** [numAgents] is the number of rounds of the loop: a count that is
    negative or [NaN] runs none, as 0 does. *)
Definition createConversation (topic : jsstring) (numAgents : nat)
  : M Conversation.t :=
  conversationId <- uuidv4 ;;
  now <- Date_now ;;
  db_write (DatabaseService.createConversation
              {| DbConversation.id := conversationId;
                 DbConversation.topic := topic;
                 DbConversation.created_at := now;
                 DbConversation.updated_at := now |}) ;;
  agents <- create_agents conversationId numAgents 0 [] ;;
  initialMessageId <- uuidv4 ;;
  let initialMessage :=
    {| Message.id := initialMessageId;
       Message.conversationId := conversationId;
       Message.agentId := None;
       Message.agentName := None;
       Message.content := js "Let's discuss the following topic: " ++ topic;
       Message.isPrivate := false;
       Message.timestamp := now |} in
  db_write (DatabaseService.createMessage
              {| DbMessage.id := initialMessageId;
                 DbMessage.conversation_id := conversationId;
                 DbMessage.agent_id := None;
                 DbMessage.agent_name := None;
                 DbMessage.content := Message.content initialMessage;
                 DbMessage.is_private := false;
                 DbMessage.timestamp := now |}) ;;
  ret {| Conversation.id := conversationId;
         Conversation.topic := topic;
         Conversation.messages := [initialMessage];
         Conversation.agents := agents;
         Conversation.createdAt := now;
         Conversation.updatedAt := now |}.

Variable rev : Revision.

(** The aggregate is mutated in place and returned; the value returned
    here is the state of that object after the call. *)
Definition generateAgentResponse (conversation : Conversation.t)
  (agentIndex : Z) : M Conversation.t :=
  match array_get (Conversation.agents conversation) agentIndex with
  | None => throw (NotFound agentIndex)
  | Some agent =>
      let publicMessages :=
        filter (fun msg => negb (Message.isPrivate msg))
               (Conversation.messages conversation) in
      let privateThoughts := Agent.privateThoughts agent in
      response <- llm_generateAgentResponse rev (Agent.name agent)
                    (Agent.systemPrompt agent) publicMessages privateThoughts ;;
      now <- Date_now ;;
      publicMessageId <- uuidv4 ;;
      let publicMessage :=
        {| Message.id := publicMessageId;
           Message.conversationId := Conversation.id conversation;
           Message.agentId := Some (Agent.id agent);
           Message.agentName := Some (Agent.name agent);
           Message.content := AgentResponse.publicResponse response;
           Message.isPrivate := false;
           Message.timestamp := now |} in
      db_write (DatabaseService.createMessage
                  {| DbMessage.id := publicMessageId;
                     DbMessage.conversation_id := Conversation.id conversation;
                     DbMessage.agent_id := Some (Agent.id agent);
                     DbMessage.agent_name := Some (Agent.name agent);
                     DbMessage.content := AgentResponse.publicResponse response;
                     DbMessage.is_private := false;
                     DbMessage.timestamp := now |}) ;;
      privateThoughtId <- uuidv4 ;;
      let privateThought :=
        {| Message.id := privateThoughtId;
           Message.conversationId := Conversation.id conversation;
           Message.agentId := Some (Agent.id agent);
           Message.agentName := Some (Agent.name agent);
           Message.content := AgentResponse.privateThoughts response;
           Message.isPrivate := true;
           Message.timestamp := now |} in
      db_write (DatabaseService.createMessage
                  {| DbMessage.id := privateThoughtId;
                     DbMessage.conversation_id := Conversation.id conversation;
                     DbMessage.agent_id := Some (Agent.id agent);
                     DbMessage.agent_name := Some (Agent.name agent);
                     DbMessage.content := AgentResponse.privateThoughts response;
                     DbMessage.is_private := true;
                     DbMessage.timestamp := now |}) ;;
      db_update (DatabaseService.updateConversation
                   {| DbConversation.id := Conversation.id conversation;
                      DbConversation.topic := Conversation.topic conversation;
                      DbConversation.created_at := Conversation.createdAt conversation;
                      DbConversation.updated_at := now |}) ;;
      ret {| Conversation.id := Conversation.id conversation;
             Conversation.topic := Conversation.topic conversation;
             Conversation.messages :=
               Conversation.messages conversation ++ [publicMessage];
             Conversation.agents :=
               array_update
                 (fun a => {| Agent.id := Agent.id a;
                              Agent.name := Agent.name a;
                              Agent.systemPrompt := Agent.systemPrompt a;
                              Agent.privateThoughts :=
                                Agent.privateThoughts a ++ [privateThought] |})
                 (Z.to_nat agentIndex) (Conversation.agents conversation);
             Conversation.createdAt := Conversation.createdAt conversation;
             Conversation.updatedAt := now |}
  end.

(** The inner loop [for (agentIndex = 0; agentIndex < numAgents; ...)],
    [remaining] being [numAgents - agentIndex]. *)
Fixpoint run_agents (remaining agentIndex : nat)
  (currentConversation : Conversation.t) : M Conversation.t :=
  match remaining with
  | 0 => ret currentConversation
  | S n =>
      match nth_error (Conversation.agents currentConversation) agentIndex with
      | None => throw TypeError                    (* agent.name *)
      | Some _ =>
          c <- generateAgentResponse currentConversation (Z.of_nat agentIndex) ;;
          run_agents n (S agentIndex) c
      end
  end.

(** The outer loop [for (turn = 0; turn < numTurns; turn++)]. *)
Fixpoint run_turns (numTurns numAgents : nat)
  (currentConversation : Conversation.t) : M Conversation.t :=
  match numTurns with
  | 0 => ret currentConversation
  | S n =>
      c <- run_agents numAgents 0 currentConversation ;;
      run_turns n numAgents c
  end.

(** [runConversation] works on a shallow copy of its argument: the copy
    shares the [messages] array and the agent objects with it, and alone
    receives the new [updatedAt].  The first line it logs reads
    [conversation.messages[0].content]. *)
Definition runConversation (conversation : Conversation.t) (numTurns : nat)
  : M Conversation.t :=
  let numAgents := length (Conversation.agents conversation) in
  match Conversation.messages conversation with
  | [] => throw TypeError
  | _ :: _ => run_turns numTurns numAgents conversation
  end.

(** The caller's object once [runConversation] has returned [result]. *)
Definition caller_view (conversation result : Conversation.t)
  : Conversation.t :=
  {| Conversation.id := Conversation.id conversation;
     Conversation.topic := Conversation.topic conversation;
     Conversation.messages := Conversation.messages result;
     Conversation.agents := Conversation.agents result;
     Conversation.createdAt := Conversation.createdAt conversation;
     Conversation.updatedAt := Conversation.updatedAt conversation |}.

(** [AgentService.loadConversation] *)
Definition loadConversation (conversationId : jsstring)
  : M (option Conversation.t) := fun w =>
  (Ok (DatabaseService.loadConversation conversationId (store w)), w).

End Process.

(* ================================================================== *)
(** * Sample runs *)
(* ================================================================== *)

Module Examples.

(** Identifiers are all different, five milliseconds pass before each
    clock reading, and the backend answers every request in the format
    asked for. *)
Definition reply : jsstring :=
  js "PUBLIC RESPONSE:" ++ [LF] ++ js "Hello" ++ [LF; LF]
  ++ js "PRIVATE THOUGHTS:" ++ [LF] ++ js "I wonder".

Definition env : Env :=
  {| uuid_at := fun n => [N.of_nat n];
     drift_at := fun _ => 5%Z;
     completion_at := fun _ _ => Completed (Some reply) |}.

(** A backend that rejects every request. *)
Definition env_down : Env :=
  {| uuid_at := fun n => [N.of_nat n];
     drift_at := fun _ => 5%Z;
     completion_at := fun _ _ => Rejected (js "Error: Connection error.") |}.

(** A backend whose responses carry no content. *)
Definition env_empty : Env :=
  {| uuid_at := fun n => [N.of_nat n];
     drift_at := fun _ => 5%Z;
     completion_at := fun _ _ => Completed None |}.

Definition empty_store : DatabaseService.t :=
  {| DatabaseService.conversations := [];
     DatabaseService.agents := [];
     DatabaseService.messages := [];
     DatabaseService.foreign_keys := true |}.

(** A process just started, with a limit of [r] requests per minute. *)
Definition fresh (r : Z) : World :=
  {| store := empty_store;
     llm := {| requestCount := 0; lastResetTime := 0;
               rateLimit := Some r; modelProvider := js "openai" |};
     clock := 0; reads := 0; uuids := 0; dispatches := [] |}.

(** A process just started whose store does not enforce foreign keys, as
    [database.ts] leaves its connection. *)
Definition unchecked (r : Z) : World :=
  {| store := {| DatabaseService.conversations := [];
                 DatabaseService.agents := [];
                 DatabaseService.messages := [];
                 DatabaseService.foreign_keys := false |};
     llm := {| requestCount := 0; lastResetTime := 0;
               rateLimit := Some r; modelProvider := js "openai" |};
     clock := 0; reads := 0; uuids := 0; dispatches := [] |}.

Definition no_conversation : Conversation.t :=
  {| Conversation.id := []; Conversation.topic := [];
     Conversation.messages := []; Conversation.agents := [];
     Conversation.createdAt := 0; Conversation.updatedAt := 0 |}.

Definition no_agent : Agent.t :=
  {| Agent.id := []; Agent.name := []; Agent.systemPrompt := [];
     Agent.privateThoughts := [] |}.

Definition value {A : Type} (default : A) (r : Result A * World) : A :=
  match fst r with
  | Ok a => a
  | Throw _ => default
  end.

(** A conversation of two agents about cats, just created, its first
    agent, and the process that created it. *)
Definition talk : Conversation.t :=
  Eval vm_compute in
    value no_conversation (createConversation env (js "cats") 2 (fresh 2)).

Definition user_a : Agent.t :=
  Eval vm_compute in nth 0 (Conversation.agents talk) no_agent.

Definition started : World :=
  Eval vm_compute in snd (createConversation env (js "cats") 2 (fresh 2)).

(** [createConversation(topic, numAgents)] followed by
    [runConversation(conversation, numTurns)]. *)
Definition start (E : Env) (rev : Revision) (topic : jsstring)
  (numAgents numTurns : nat) : M Conversation.t :=
  conversation <- createConversation E topic numAgents ;;
  runConversation E rev conversation numTurns.

(** Three calls of the adapter in a row, for the agent [User A]. *)
Definition three_calls (E : Env) (rev : Revision) : M AgentResponse.t :=
  llm_generateAgentResponse E rev (js "User A") baseSystemPrompt [] [] ;;
  llm_generateAgentResponse E rev (js "User A") baseSystemPrompt [] [] ;;
  llm_generateAgentResponse E rev (js "User A") baseSystemPrompt [] [].

(** The process after a conversation of two agents has run for one turn:
    two requests have completed. *)
Definition after_one_turn : World :=
  Eval vm_compute in snd (start env OpenAIOnly (js "cats") 2 1 (fresh 2)).

End Examples.

(* ================================================================== *)
(** * Vocabulary of the properties *)
(* ================================================================== *)

Section Vocabulary.
Variable E : Env.

(** The agents that [numAgents - i] rounds of the creation loop add, the
    first with index [i] and the identifier drawn at position [u]. *)
Fixpoint new_agents (remaining i u : nat) : list Agent.t :=
  match remaining with
  | 0 => []
  | S n =>
      {| Agent.id := uuid_at E u;
         Agent.name := agent_name i;
         Agent.systemPrompt := baseSystemPrompt;
         Agent.privateThoughts := [] |} :: new_agents n (S i) (S u)
  end.

Definition agent_row (conversationId : jsstring) (a : Agent.t) : DbAgent.t :=
  {| DbAgent.id := Agent.id a;
     DbAgent.conversation_id := conversationId;
     DbAgent.name := Agent.name a;
     DbAgent.system_prompt := Agent.systemPrompt a |}.

Definition seed_message (id conversationId topic : jsstring) (now : Z)
  : Message.t :=
  {| Message.id := id;
     Message.conversationId := conversationId;
     Message.agentId := None;
     Message.agentName := None;
     Message.content := js "Let's discuss the following topic: " ++ topic;
     Message.isPrivate := false;
     Message.timestamp := now |}.

Definition message_row (x : Message.t) : DbMessage.t :=
  {| DbMessage.id := Message.id x;
     DbMessage.conversation_id := Message.conversationId x;
     DbMessage.agent_id := Message.agentId x;
     DbMessage.agent_name := Message.agentName x;
     DbMessage.content := Message.content x;
     DbMessage.is_private := Message.isPrivate x;
     DbMessage.timestamp := Message.timestamp x |}.

(** The identifiers that [createConversation] is about to draw are new
    to the store, and those of the agents differ from one another. *)
Definition fresh_ids (w : World) (numAgents : nat) : Prop :=
  DatabaseService.has_conversation (store w) (uuid_at E (uuids w)) = false
  /\ (forall k, k < numAgents ->
        DatabaseService.has_agent (store w) (uuid_at E (S (uuids w) + k)) = false)
  /\ (forall j k, j < k < numAgents ->
        uuid_at E (S (uuids w) + j) <> uuid_at E (S (uuids w) + k))
  /\ DatabaseService.has_message (store w)
       (uuid_at E (S (uuids w) + numAgents)) = false.

(** [hdr] read at the start of [s], letters compared without regard to
    case when [ic] is set. *)
Fixpoint starts_with (ic : bool) (hdr s : jsstring) : bool :=
  match hdr, s with
  | [], _ => true
  | c :: hdr', ch :: s' =>
      (canonicalize ic ch =? canonicalize ic c)%N && starts_with ic hdr' s'
  | _ :: _, [] => false
  end.

(** The header occurs somewhere in the text, in any case. *)
Definition occurs_ci (hdr text : jsstring) : Prop :=
  exists pre s, text = pre ++ s /\ starts_with true hdr s = true.

(** The text that follows the first occurrence of the header. *)
Fixpoint after_first_ci (hdr text : jsstring) : option jsstring :=
  if starts_with true hdr text then Some (skipn (length hdr) text)
  else match text with
       | [] => None
       | _ :: tl => after_first_ci hdr tl
       end.

(** The first success of [k] on the suffixes of the remaining input, from
    the longest on. *)
Fixpoint first_suffix (k : Continuation) (cap : option jsstring)
  (s : jsstring) : option MatchState :=
  match k {| rest := s; cap1 := cap |} with
  | Some z => Some z
  | None =>
      match s with
      | [] => None
      | _ :: tl => first_suffix k cap tl
      end
  end.

(** Whether the adapter of revision [rev] reaches its backend with the
    provider configured in [s]. *)
Definition provider_supported (rev : Revision) (s : LlmState) : bool :=
  match rev with
  | OpenAIOnly => true
  | OpenAIGroq =>
      eqb (modelProvider s) (js "openai") || eqb (modelProvider s) (js "groq")
  end.

(** The parser of each revision. *)
Definition parser (rev : Revision) : jsstring -> AgentResponse.t :=
  match rev with
  | OpenAIOnly => LlmService.parseAgentResponse
  | OpenAIGroq => LlmServiceMulti.parseAgentResponse
  end.

(** The world after a reading of the clock. *)
Definition tick (E : Env) (w : World) : World :=
  {| store := store w; llm := llm w;
     clock := (clock w + drift_at E (reads w))%Z; reads := S (reads w);
     uuids := uuids w; dispatches := dispatches w |}.

(** The world after a timer of [ms] milliseconds. *)
Definition slept (ms : Z) (w : World) : World :=
  {| store := store w; llm := llm w; clock := (clock w + Z.max 0 ms)%Z;
     reads := reads w; uuids := uuids w; dispatches := dispatches w |}.

(** A new window starts at [now]. *)
Definition reset_window (now : Z) (w : World) : World :=
  set_llm {| requestCount := 0; lastResetTime := now;
             rateLimit := rateLimit (llm w);
             modelProvider := modelProvider (llm w) |} w.

(** The world after [checkRateLimit]. *)
Definition after_check (E : Env) (w : World) : World :=
  let w1 := tick E w in
  let elapsedMs := (clock w1 - lastResetTime (llm w))%Z in
  if (60000 <=? elapsedMs)%Z then reset_window (clock w1) w1
  else if limit_reached (llm w) then
    let w2 := tick E (slept (60000 - elapsedMs) w1) in
    reset_window (clock w2) w2
  else w1.

(** The request that an adapter call issued from [w] sends, and the answer
    the backend gives to it. *)
Definition request_of (agentName systemPrompt : jsstring)
  (messages privateThoughts : list Message.t) : list ApiMessage :=
  formatMessagesForApi agentName systemPrompt messages privateThoughts.

Definition answer (E : Env) (w : World) (request : list ApiMessage)
  : Completion :=
  completion_at E (length (dispatches w)) request.

(** The effect of a dispatch on the record of the run. *)
Definition dispatched (w : World) (agentName : jsstring)
  (messages privateThoughts : list Message.t) (request : list ApiMessage)
  (c : Completion) : World :=
  {| store := store w; llm := llm w; clock := clock w; reads := reads w;
     uuids := uuids w;
     dispatches := dispatches w ++
       [{| d_time := clock w; d_agentName := agentName;
           d_history := messages; d_thoughts := privateThoughts;
           d_request := request;
           d_ok := match c with Completed _ => true | Rejected _ => false end |}] |}.

Definition counted (w : World) : World :=
  set_llm {| requestCount := requestCount (llm w) + 1;
             lastResetTime := lastResetTime (llm w);
             rateLimit := rateLimit (llm w);
             modelProvider := modelProvider (llm w) |} w.

(** A message written by [agent] in [conversation]. *)
Definition reply_message (conversation : Conversation.t) (agent : Agent.t)
  (id content : jsstring) (isPrivate : bool) (now : Z) : Message.t :=
  {| Message.id := id;
     Message.conversationId := Conversation.id conversation;
     Message.agentId := Some (Agent.id agent);
     Message.agentName := Some (Agent.name agent);
     Message.content := content;
     Message.isPrivate := isPrivate;
     Message.timestamp := now |}.

Definition push_thought (x : Message.t) (a : Agent.t) : Agent.t :=
  {| Agent.id := Agent.id a;
     Agent.name := Agent.name a;
     Agent.systemPrompt := Agent.systemPrompt a;
     Agent.privateThoughts := Agent.privateThoughts a ++ [x] |}.

(** The aggregate after the agent of index [i] has spoken. *)
Definition apply_turn (conversation : Conversation.t) (i : nat)
  (pub priv : Message.t) : Conversation.t :=
  {| Conversation.id := Conversation.id conversation;
     Conversation.topic := Conversation.topic conversation;
     Conversation.messages := Conversation.messages conversation ++ [pub];
     Conversation.agents :=
       array_update (push_thought priv) i (Conversation.agents conversation);
     Conversation.createdAt := Conversation.createdAt conversation;
     Conversation.updatedAt := Message.timestamp pub |}.

(** The history handed to the adapter. *)
Definition public_history (conversation : Conversation.t) : list Message.t :=
  filter (fun msg => negb (Message.isPrivate msg))
         (Conversation.messages conversation).

(** The two messages of a turn, given the adapter's response, and the
    world they leave: [w] is the world before the turn and [w1] the world
    after the adapter call. *)
Definition turn_public (E : Env) (conversation : Conversation.t)
  (agent : Agent.t) (response : AgentResponse.t) (w w1 : World) : Message.t :=
  reply_message conversation agent (uuid_at E (uuids w))
    (AgentResponse.publicResponse response) false
    (clock w1 + drift_at E (reads w1))%Z.

Definition turn_private (E : Env) (conversation : Conversation.t)
  (agent : Agent.t) (response : AgentResponse.t) (w w1 : World) : Message.t :=
  reply_message conversation agent (uuid_at E (S (uuids w)))
    (AgentResponse.privateThoughts response) true
    (clock w1 + drift_at E (reads w1))%Z.

Definition after_turn (E : Env) (conversation : Conversation.t)
  (pub priv : Message.t) (w w1 : World) : World :=
  {| store :=
       DatabaseService.updateConversation
         {| DbConversation.id := Conversation.id conversation;
            DbConversation.topic := Conversation.topic conversation;
            DbConversation.created_at := Conversation.createdAt conversation;
            DbConversation.updated_at := Message.timestamp pub |}
         {| DatabaseService.conversations :=
              DatabaseService.conversations (store w);
            DatabaseService.agents := DatabaseService.agents (store w);
            DatabaseService.messages :=
              DatabaseService.messages (store w)
              ++ [message_row pub; message_row priv];
            DatabaseService.foreign_keys :=
              DatabaseService.foreign_keys (store w) |};
     llm := llm w1;
     clock := (clock w1 + drift_at E (reads w1))%Z;
     reads := S (reads w1);
     uuids := S (S (uuids w));
     dispatches := dispatches w1 |}.

(** The store takes the two messages of a turn of [agent]. *)
Definition store_accepts (E : Env) (conversation : Conversation.t)
  (agent : Agent.t) (w : World) : Prop :=
  DatabaseService.has_message (store w) (uuid_at E (uuids w)) = false
  /\ DatabaseService.has_message (store w) (uuid_at E (S (uuids w))) = false
  /\ uuid_at E (uuids w) <> uuid_at E (S (uuids w))
  /\ (DatabaseService.foreign_keys (store w) = true ->
      DatabaseService.has_conversation (store w) (Conversation.id conversation)
      = true
      /\ DatabaseService.has_agent (store w) (Agent.id agent) = true).

(** The description of the failure of the dispatch an adapter call from
    [w] makes, if it fails: the backend rejects the request, or (later
    revision) the configured provider is not one the adapter knows. *)
Definition dispatch_failure (E : Env) (rev : Revision) (w : World)
  (request : list ApiMessage) : option jsstring :=
  if provider_supported rev (llm w) then
    match answer E w request with
    | Rejected error => Some error
    | Completed _ => None
    end
  else Some (js "Error: Unsupported model provider: " ++ modelProvider (llm w)).

(** The clock never runs backwards; in particular the reading after a
    timer is no earlier than the time the timer was set for. *)
Definition monotonic (E : Env) : Prop := forall n, (0 <= drift_at E n)%Z.

(** The requests of the log that completed in the current window. *)
Definition counted_in_window (w : World) : list Dispatch :=
  filter (fun d => d_ok d && (lastResetTime (llm w) <=? d_time d)%Z)
         (dispatches w).

(** The worlds a process goes through: it starts with an adapter that has
    sent nothing, and then calls the adapter or does anything else, which
    takes time but leaves the adapter alone. *)
Inductive reachable (E : Env) (rev : Revision) : World -> Prop :=
| reach_start w :
    dispatches w = [] -> requestCount (llm w) = 0%Z ->
    (lastResetTime (llm w) <= clock w)%Z ->
    reachable E rev w
| reach_call w agentName systemPrompt messages privateThoughts :
    reachable E rev w ->
    reachable E rev
      (snd (llm_generateAgentResponse E rev agentName systemPrompt messages
              privateThoughts w))
| reach_other w w' :
    reachable E rev w ->
    llm w' = llm w -> dispatches w' = dispatches w ->
    (clock w <= clock w')%Z ->
    reachable E rev w'.

Definition window_invariant (w : World) : Prop :=
  (lastResetTime (llm w) <= clock w)%Z
  /\ (forall d, In d (dispatches w) ->
        (d_time d < lastResetTime (llm w) + 60000)%Z)
  /\ requestCount (llm w) = Z.of_nat (length (counted_in_window w))
  /\ (forall r, rateLimit (llm w) = Some r ->
        (requestCount (llm w) <= Z.max r 1)%Z).

(** One completed [generateAgentResponse]: the index of the agent and the
    two messages. *)
Record Turn : Type := mkTurn {
  t_index : nat;
  t_public : Message.t;
  t_private : Message.t
}.

Definition play (c : Conversation.t) (t : Turn) : Conversation.t :=
  apply_turn c (t_index t) (t_public t) (t_private t).

(** The rows a turn adds to the messages table, in the order written. *)
Definition turn_rows (t : Turn) : list DbMessage.t :=
  [message_row (t_public t); message_row (t_private t)].

(** The order of the loop: turn 0 agent 0, turn 0 agent 1, ..., for
    [numTurns] turns of [numAgents] agents. *)
Definition turn_order (numTurns numAgents : nat) : list nat :=
  concat (repeat (seq 0 numAgents) numTurns).

(** Who sits at index [i]. *)
Definition author (c : Conversation.t) (i : nat) : option (jsstring * jsstring) :=
  option_map (fun a => (Agent.id a, Agent.name a))
             (nth_error (Conversation.agents c) i).

(** The turn is one of the agent at its index in [c]: a public and a
    private message of that agent in that conversation, with one
    timestamp. *)
Definition turn_of (c : Conversation.t) (t : Turn) : Prop :=
  exists id name,
    author c (t_index t) = Some (id, name)
    /\ Message.agentId (t_public t) = Some id
    /\ Message.agentId (t_private t) = Some id
    /\ Message.agentName (t_public t) = Some name
    /\ Message.agentName (t_private t) = Some name
    /\ Message.conversationId (t_public t) = Conversation.id c
    /\ Message.conversationId (t_private t) = Conversation.id c
    /\ Message.isPrivate (t_public t) = false
    /\ Message.isPrivate (t_private t) = true
    /\ Message.timestamp (t_public t) = Message.timestamp (t_private t).

(** The private thoughts of the agent at index [j]. *)
Definition thoughts_of (c : Conversation.t) (j : nat) : list Message.t :=
  match nth_error (Conversation.agents c) j with
  | Some a => Agent.privateThoughts a
  | None => []
  end.

Definition all_public (l : list Message.t) : Prop :=
  Forall (fun x => Message.isPrivate x = false) l.

(** The [messages] of the aggregate hold public messages only. *)
Definition public_only (c : Conversation.t) : Prop :=
  all_public (Conversation.messages c).

(** Every request of the list was made with a history of public
    messages. *)
Definition public_requests (l : list Dispatch) : Prop :=
  Forall (fun d => all_public (d_history d)) l.

(** The requests a computation adds to the log, whatever its outcome, are
    made with public histories. *)
Definition logs_public {A : Type} (c : M A) : Prop :=
  forall w, exists new,
    dispatches (snd (c w)) = dispatches w ++ new /\ public_requests new.

(** The aggregates the turn engine hands out: those [createConversation]
    and [loadConversation] return, those [generateAgentResponse] and
    [runConversation] return when given one of these, and the caller's own
    object after [runConversation]. *)
Inductive produced (E : Env) (rev : Revision) : Conversation.t -> Prop :=
| produced_create topic numAgents w c w' :
    createConversation E topic numAgents w = (Ok c, w') ->
    produced E rev c
| produced_load conversationId w c w' :
    loadConversation conversationId w = (Ok (Some c), w') ->
    produced E rev c
| produced_generate c agentIndex w c' w' :
    produced E rev c ->
    generateAgentResponse E rev c agentIndex w = (Ok c', w') ->
    produced E rev c'
| produced_run c numTurns w c' w' :
    produced E rev c ->
    runConversation E rev c numTurns w = (Ok c', w') ->
    produced E rev c'
| produced_caller c numTurns w c' w' :
    produced E rev c ->
    runConversation E rev c numTurns w = (Ok c', w') ->
    produced E rev (caller_view c c').

(** The references of the rows lead to rows of the store: the
    conversation of every agent and of every message, and the agent of
    every message that has one. *)
Definition referential_integrity (d : DatabaseService.t) : Prop :=
  (forall a, In a (DatabaseService.agents d) ->
     DatabaseService.has_conversation d (DbAgent.conversation_id a) = true)
  /\ (forall x, In x (DatabaseService.messages d) ->
        DatabaseService.has_conversation d (DbMessage.conversation_id x) = true
        /\ DatabaseService.agent_ref_ok d (DbMessage.agent_id x) = true).

(** The letters a name is made of: capitals, and small letters too when
    case is ignored. *)
Definition name_char (ic : bool) (c : char) : bool :=
  ((65 <=? c) && (c <=? 90) || ic && (97 <=? c) && (c <=? 122))%N.

(** One echoed prefix: the word [User] and a space, the letters of a name,
    a colon and white space. *)
Record Artifact : Type := mkArtifact {
  a_word : jsstring;
  a_name : jsstring;
  a_space : jsstring
}.

Definition artifact_text (a : Artifact) : jsstring :=
  a_word a ++ a_name a ++ [58%N] ++ a_space a.

Definition artifact_ok (ic : bool) (a : Artifact) : Prop :=
  length (a_word a) = 5
  /\ starts_with ic (js "User ") (a_word a) = true
  /\ a_name a <> []
  /\ forallb (name_char ic) (a_name a) = true
  /\ forallb is_space (a_space a) = true.

(** A run of prefixes. *)
Definition artifacts_text (l : list Artifact) : jsstring :=
  concat (map artifact_text l).

(** The expressions of the later revision carry no [i] flag. *)
Definition ignores_case (rev : Revision) : bool :=
  match rev with
  | OpenAIOnly => true
  | OpenAIGroq => false
  end.

(** The next [count] identifiers are new to the messages table and differ
    from one another. *)
Definition fresh_message_ids (E : Env) (w : World) (count : nat) : Prop :=
  (forall k, k < count ->
     DatabaseService.has_message (store w) (uuid_at E (uuids w + k)) = false)
  /\ (forall j k, j < k < count ->
        uuid_at E (uuids w + j) <> uuid_at E (uuids w + k)).

(** The store holds the rows of the conversation and of its agents, if it
    checks references. *)
Definition stored (c : Conversation.t) (w : World) : Prop :=
  DatabaseService.foreign_keys (store w) = true ->
  DatabaseService.has_conversation (store w) (Conversation.id c) = true
  /\ forall a, In a (Conversation.agents c) ->
       DatabaseService.has_agent (store w) (Agent.id a) = true.

(** The position of the first occurrence of the header in the text, in
    any case. *)
Fixpoint index_of_ci (hdr text : jsstring) : option nat :=
  if starts_with true hdr text then Some 0
  else match text with
       | [] => None
       | _ :: tl => option_map S (index_of_ci hdr tl)
       end.

(** Rows in the order [ORDER BY timestamp ASC] asks for. *)
Definition by_timestamp (x y : DbMessage.t) : Prop :=
  (DbMessage.timestamp x <= DbMessage.timestamp y)%Z.


(** The aggregate is what the store holds of the conversation, no message
    row is dated after the clock, and the agents of the aggregate differ in
    their identifiers. *)
Definition in_sync (c : Conversation.t) (w : World) : Prop :=
  DatabaseService.loadConversation (Conversation.id c) (store w) = Some c
  /\ Forall (fun x => (DbMessage.timestamp x <= clock w)%Z)
       (DatabaseService.messages (store w))
  /\ NoDup (map Agent.id (Conversation.agents c)).

(** A private message of the agent [a]. *)
Definition thought_of (a : Agent.t) (x : Message.t) : Prop :=
  Message.isPrivate x = true /\ Message.agentId x = Some (Agent.id a).

(** The thoughts every agent of the aggregate holds are its own private
    messages. *)
Definition owned_thoughts (c : Conversation.t) : Prop :=
  Forall (fun a => Forall (thought_of a) (Agent.privateThoughts a))
         (Conversation.agents c).

(** What the adapter is handed at each of the turns [ts] played from [c]:
    the public history at that moment and the thoughts of the agent whose
    turn it is. *)
Fixpoint seen (c : Conversation.t) (ts : list Turn)
  : list (list Message.t * list Message.t) :=
  match ts with
  | [] => []
  | t :: ts' =>
      (public_history c, thoughts_of c (t_index t)) :: seen (play c t) ts'
  end.

Definition handed (d : Dispatch) : list Message.t * list Message.t :=
  (d_history d, d_thoughts d).

(** No two rows of a table share their primary key. *)
Definition keys_unique (d : DatabaseService.t) : Prop :=
  NoDup (map DbConversation.id (DatabaseService.conversations d))
  /\ NoDup (map DbAgent.id (DatabaseService.agents d))
  /\ NoDup (map DbMessage.id (DatabaseService.messages d)).

(** What the schema promises of a store: primary keys are unique, and the
    references are intact where the engine enforces them. *)
Definition consistent (d : DatabaseService.t) : Prop :=
  keys_unique d
  /\ (DatabaseService.foreign_keys d = true -> referential_integrity d).

(** The computation leaves a consistent store consistent, whether it
    returns or throws. *)
Definition keeps_consistent {A : Type} (c : M A) : Prop :=
  forall w, consistent (store w) -> consistent (store (snd (c w))).

(** The instructions that open every request. *)
Definition instructions (agentName systemPrompt : jsstring) : ApiMessage :=
  {| role := js "system";
     content :=
       systemPrompt ++ [LF; LF] ++ js "Your name is " ++ agentName
       ++ js ". You are participating in a round-table discussion with other agents."
       ++ [LF; LF] ++ js "Your response should be in the following format:"
       ++ [LF; LF] ++ js "PUBLIC RESPONSE:" ++ [LF]
       ++ js "[Your message that will be shared with all participants]"
       ++ [LF; LF] ++ js "PRIVATE THOUGHTS:" ++ [LF]
       ++ js "[Your private thoughts that only you will see]" |}.

(** The message that recalls the agent's earlier thoughts, when it has
    any. *)
Definition thoughts_note (thoughts : list Message.t) : list ApiMessage :=
  match thoughts with
  | [] => []
  | _ :: _ =>
      [{| role := js "system";
          content :=
            js "Your previous private thoughts (only visible to you):"
            ++ [LF; LF]
            ++ join [LF; LF]
                 (map (fun thought => js "- " ++ Message.content thought)
                      thoughts) |}]
  end.

(** How a request shows what the agent of the turn [t] said in it, when
    the agents carry the names [createConversation] gives. *)
Definition said (t : Turn) : ApiMessage :=
  {| role := js "assistant";
     content := agent_name (t_index t) ++ js ": "
                ++ Message.content (t_public t) |}.

(** The request of each of the turns [ts] played from [c]. *)
Fixpoint asked (c : Conversation.t) (ts : list Turn)
  : list (list ApiMessage) :=
  match ts with
  | [] => []
  | t :: ts' =>
      match nth_error (Conversation.agents c) (t_index t) with
      | Some agent =>
          formatMessagesForApi (Agent.name agent) (Agent.systemPrompt agent)
            (public_history c) (Agent.privateThoughts agent)
      | None => []
      end :: asked (play c t) ts'
  end.

(** The agents carry the names and the prompt [createConversation]
    gives. *)
Definition named (c : Conversation.t) : Prop :=
  forall k a, nth_error (Conversation.agents c) k = Some a ->
    Agent.name a = agent_name k /\ Agent.systemPrompt a = baseSystemPrompt.

(** The identifiers of the messages of the turns, in the order written. *)
Definition turn_ids (ts : list Turn) : list jsstring :=
  flat_map (fun t => [Message.id (t_public t); Message.id (t_private t)]) ts.

(** [String.prototype.toWellFormed]: a surrogate code unit that is not
    part of a pair is replaced by U+FFFD.  The driver writes a text value
    to the store as UTF-8, so this is the string read back for a string
    written. *)
Definition is_high_surrogate (c : char) : bool :=
  ((55296 <=? c) && (c <=? 56319))%N.
Definition is_low_surrogate (c : char) : bool :=
  ((56320 <=? c) && (c <=? 57343))%N.

Fixpoint toWellFormed (s : jsstring) : jsstring :=
  match s with
  | [] => []
  | c :: tl =>
      if is_high_surrogate c then
        match tl with
        | d :: tl' =>
            if is_low_surrogate d then c :: d :: toWellFormed tl'
            else 65533%N :: toWellFormed tl
        | [] => [65533%N]
        end
      else if is_low_surrogate c then 65533%N :: toWellFormed tl
      else c :: toWellFormed tl
  end.

(** The store gives the text back as written: the rows of the model,
    which hold every string code unit for code unit, are the rows of the
    store for such text. *)
Definition kept (s : jsstring) : bool := eqb (toWellFormed s) s.

Definition kept_opt (s : option jsstring) : bool :=
  match s with Some t => kept t | None => true end.

Definition message_kept (x : Message.t) : bool :=
  kept (Message.id x) && kept (Message.conversationId x)
  && kept_opt (Message.agentId x) && kept_opt (Message.agentName x)
  && kept (Message.content x).

Definition agent_kept (a : Agent.t) : bool :=
  kept (Agent.id a) && kept (Agent.name a) && kept (Agent.systemPrompt a)
  && forallb message_kept (Agent.privateThoughts a).

(** Every string of the aggregate is given back as written. *)
Definition conversation_kept (c : Conversation.t) : bool :=
  kept (Conversation.id c) && kept (Conversation.topic c)
  && forallb message_kept (Conversation.messages c)
  && forallb agent_kept (Conversation.agents c).

(** A row as the store holds it once written: each text column as UTF-8,
    so that a lone surrogate has become U+FFFD. *)
Definition stored_conversation (r : DbConversation.t) : DbConversation.t :=
  {| DbConversation.id := toWellFormed (DbConversation.id r);
     DbConversation.topic := toWellFormed (DbConversation.topic r);
     DbConversation.created_at := DbConversation.created_at r;
     DbConversation.updated_at := DbConversation.updated_at r |}.

Definition stored_agent (r : DbAgent.t) : DbAgent.t :=
  {| DbAgent.id := toWellFormed (DbAgent.id r);
     DbAgent.conversation_id := toWellFormed (DbAgent.conversation_id r);
     DbAgent.name := toWellFormed (DbAgent.name r);
     DbAgent.system_prompt := toWellFormed (DbAgent.system_prompt r) |}.

Definition stored_message (r : DbMessage.t) : DbMessage.t :=
  {| DbMessage.id := toWellFormed (DbMessage.id r);
     DbMessage.conversation_id := toWellFormed (DbMessage.conversation_id r);
     DbMessage.agent_id := option_map toWellFormed (DbMessage.agent_id r);
     DbMessage.agent_name := option_map toWellFormed (DbMessage.agent_name r);
     DbMessage.content := toWellFormed (DbMessage.content r);
     DbMessage.is_private := DbMessage.is_private r;
     DbMessage.timestamp := DbMessage.timestamp r |}.

(** The tables as the store holds them after the rows of [d] were
    written. *)
Definition written (d : DatabaseService.t) : DatabaseService.t :=
  {| DatabaseService.conversations :=
       map stored_conversation (DatabaseService.conversations d);
     DatabaseService.agents := map stored_agent (DatabaseService.agents d);
     DatabaseService.messages :=
       map stored_message (DatabaseService.messages d);
     DatabaseService.foreign_keys := DatabaseService.foreign_keys d |}.

(** What [loadConversation] reads back after the rows of [d] were written,
    the identifier asked for passing through the driver as the rows did. *)
Definition read_back (conversationId : jsstring) (d : DatabaseService.t)
  : option Conversation.t :=
  DatabaseService.loadConversation (toWellFormed conversationId) (written d).

(** The text after the letters of a name at its start. *)
Fixpoint skip_name (ic : bool) (s : jsstring) : jsstring :=
  match s with
  | c :: tl => if name_char ic c then skip_name ic tl else s
  | [] => []
  end.

(** What follows one prefix at the start of [s]: the word [User] and a
    space, one or more letters, a colon and all the white space after
    it.  [None] when [s] does not start with a prefix. *)
Definition after_prefix (ic : bool) (s : jsstring) : option jsstring :=
  if starts_with ic (js "User ") s then
    match skipn 5 s with
    | c :: tl =>
        if name_char ic c then
          match skip_name ic tl with
          | d :: tl' => if (d =? 58)%N then Some (trimStart tl') else None
          | [] => None
          end
        else None
    | [] => None
    end
  else None.

(** The number of prefixes of the longest run at the start of [s], and
    what follows the run. *)
Fixpoint prefix_run (fuel : nat) (ic : bool) (s : jsstring)
  : nat * jsstring :=
  match fuel with
  | 0 => (0, s)
  | S f =>
      match after_prefix ic s with
      | Some r => let (n, r') := prefix_run f ic r in (S n, r')
      | None => (0, s)
      end
  end.

(** The text without the run of prefixes at its start. *)
Definition strip_leading (ic : bool) (s : jsstring) : jsstring :=
  snd (prefix_run (length s) ic s).

(** The text without its runs of two or more prefixes, found from left to
    right, each taken as long as it goes; a prefix that stands alone
    stays. *)
Fixpoint strip_runs_from (fuel : nat) (s : jsstring) : jsstring :=
  match fuel with
  | 0 => s
  | S f =>
      let (n, r) := prefix_run (length s) false s in
      if 2 <=? n then strip_runs_from f r
      else match s with
           | [] => []
           | c :: tl => c :: strip_runs_from f tl
           end
  end.

Definition strip_runs (s : jsstring) : jsstring :=
  strip_runs_from (S (length s)) s.

(** What each revision makes of the trimmed public section. *)
Definition strip (rev : Revision) (t : jsstring) : jsstring :=
  match rev with
  | OpenAIOnly => strip_leading true t
  | OpenAIGroq => strip_runs (strip_leading false t)
  end.

(** The text starts with white space. *)
Definition space_first (s : jsstring) : bool :=
  match s with
  | c :: _ => is_space c
  | [] => false
  end.

End Vocabulary.

(* ================================================================== *)
(** * Reasoning about computations of the process *)
(* ================================================================== *)

Lemma bind_Ok {A B : Type} (c : M A) (f : A -> M B) w b w' :
  bind c f w = (Ok b, w') ->
  exists a w1, c w = (Ok a, w1) /\ f a w1 = (Ok b, w').
Proof.
  unfold bind. destruct (c w) as [[a|e] w1]; intros H.
  - exists a, w1. split; [reflexivity | exact H].
  - discriminate.
Qed.

Lemma bind_eq {A B : Type} (c : M A) (f : A -> M B) w a w1 :
  c w = (Ok a, w1) -> bind c f w = f a w1.
Proof. unfold bind. intros ->. reflexivity. Qed.

Lemma db_write_Ok op w u w' :
  db_write op w = (Ok u, w') ->
  exists d, op (store w) = inr d /\ w' = set_store d w.
Proof.
  unfold db_write. destruct (op (store w)) as [e|d]; intros H.
  - discriminate.
  - exists d. split; [reflexivity | congruence].
Qed.

Lemma bind_uuidv4 {B : Type} E (f : jsstring -> M B) w :
  bind (uuidv4 E) f w =
  f (uuid_at E (uuids w))
    {| store := store w; llm := llm w; clock := clock w; reads := reads w;
       uuids := S (uuids w); dispatches := dispatches w |}.
Proof. reflexivity. Qed.

Lemma bind_Date_now {B : Type} E (f : Z -> M B) w :
  bind (Date_now E) f w =
  f (clock w + drift_at E (reads w))%Z
    {| store := store w; llm := llm w;
       clock := (clock w + drift_at E (reads w))%Z; reads := S (reads w);
       uuids := uuids w; dispatches := dispatches w |}.
Proof. reflexivity. Qed.

Lemma bind_db_write {B : Type} op (f : unit -> M B) w d :
  op (store w) = inr d -> bind (db_write op) f w = f tt (set_store d w).
Proof. unfold bind, db_write. intros ->. reflexivity. Qed.

(** Splits a successful [bind] into its two halves, repeatedly. *)
Ltac inv_bind H :=
  let a := fresh "a" in
  let w1 := fresh "w" in
  let H1 := fresh "H" in
  apply bind_Ok in H; destruct H as (a & w1 & H1 & H).

(* ================================================================== *)
(** * Agent names *)
(* ================================================================== *)

Section Names.
Variable E : Env.

Lemma new_agents_length n i u : length (new_agents E n i u) = n.
Proof.
  revert i u. induction n as [|n IH]; intros i u; simpl.
  - reflexivity.
  - now rewrite IH.
Qed.

Lemma new_agents_nth n : forall i u k, k < n ->
  nth_error (new_agents E n i u) k =
  Some {| Agent.id := uuid_at E (u + k);
          Agent.name := agent_name (i + k);
          Agent.systemPrompt := baseSystemPrompt;
          Agent.privateThoughts := [] |}.
Proof.
  induction n as [|n IH]; intros i u k Hk; [lia|].
  destruct k as [|k]; cbn [new_agents nth_error].
  - now rewrite !Nat.add_0_r.
  - rewrite IH by lia.
    now replace (S u + k) with (u + S k) by lia;
      replace (S i + k) with (i + S k) by lia.
Qed.

Lemma create_agents_Ok conversationId n : forall i acc w r w',
  create_agents E conversationId n i acc w = (Ok r, w') ->
  r = acc ++ new_agents E n i (uuids w) /\
  w' = {| store :=
            {| DatabaseService.conversations :=
                 DatabaseService.conversations (store w);
               DatabaseService.agents :=
                 DatabaseService.agents (store w)
                 ++ map (agent_row conversationId) (new_agents E n i (uuids w));
               DatabaseService.messages := DatabaseService.messages (store w);
               DatabaseService.foreign_keys :=
                 DatabaseService.foreign_keys (store w) |};
          llm := llm w; clock := clock w; reads := reads w;
          uuids := uuids w + n; dispatches := dispatches w |}.
Proof.
  induction n as [|n IH]; intros i acc w r w' H.
  - simpl in H. inversion H; subst. simpl.
    rewrite !app_nil_r, Nat.add_0_r. split; [reflexivity|].
    destruct w' as [[? ? ? ?] ? ? ? ? ?]; reflexivity.
  - simpl in H. inv_bind H. inversion H0; subst; clear H0.
    inv_bind H. apply db_write_Ok in H0. destruct H0 as (d & Hd & ->).
    apply IH in H. destruct H as [-> ->].
    unfold DatabaseService.createAgent in Hd. simpl in Hd.
    destruct (DatabaseService.has_agent _ _); [discriminate|].
    destruct (_ && _); [discriminate|].
    inversion Hd; subst; clear Hd. simpl.
    rewrite <- !app_assoc. simpl.
    split; [reflexivity|]. f_equal. lia.
Qed.
End Names.

Section Creation.
Variable E : Env.

(** What a successful [createConversation] returns and leaves behind. *)
Lemma createConversation_Ok topic n w c w' :
  createConversation E topic n w = (Ok c, w') ->
  let conversationId := uuid_at E (uuids w) in
  let now := (clock w + drift_at E (reads w))%Z in
  let agents := new_agents E n 0 (S (uuids w)) in
  let seed :=
    seed_message (uuid_at E (S (uuids w) + n)) conversationId topic now in
  c = {| Conversation.id := conversationId;
         Conversation.topic := topic;
         Conversation.messages := [seed];
         Conversation.agents := agents;
         Conversation.createdAt := now;
         Conversation.updatedAt := now |}
  /\ w' = {| store :=
               {| DatabaseService.conversations :=
                    DatabaseService.conversations (store w)
                    ++ [{| DbConversation.id := conversationId;
                           DbConversation.topic := topic;
                           DbConversation.created_at := now;
                           DbConversation.updated_at := now |}];
                  DatabaseService.agents :=
                    DatabaseService.agents (store w)
                    ++ map (agent_row conversationId) agents;
                  DatabaseService.messages :=
                    DatabaseService.messages (store w) ++ [message_row seed];
                  DatabaseService.foreign_keys :=
                    DatabaseService.foreign_keys (store w) |};
             llm := llm w; clock := now; reads := S (reads w);
             uuids := S (S (uuids w) + n); dispatches := dispatches w |}
  /\ DatabaseService.has_conversation (store w) conversationId = false
  /\ DatabaseService.has_message (store w) (Message.id seed) = false.
Proof.
  intros H. unfold createConversation in H.
  inv_bind H. inversion H0; subst; clear H0.
  inv_bind H. inversion H0; subst; clear H0.
  inv_bind H. apply db_write_Ok in H0. destruct H0 as (d & Hd & ->).
  unfold DatabaseService.createConversation in Hd. simpl in Hd.
  destruct (DatabaseService.has_conversation (store w) _) eqn:Hfresh;
    [discriminate|].
  inversion Hd; subst; clear Hd.
  inv_bind H. apply create_agents_Ok in H0. destruct H0 as [-> ->].
  inv_bind H. inversion H0; subst; clear H0.
  inv_bind H. apply db_write_Ok in H0. destruct H0 as (d & Hd & ->).
  unfold DatabaseService.createMessage in Hd. simpl in Hd.
  destruct (DatabaseService.has_message _ _) eqn:Hmsg; [discriminate|].
  destruct (_ && _); [discriminate|].
  inversion Hd; subst; clear Hd.
  inversion H; subst; clear H. simpl.
  repeat split; try reflexivity; assumption.
Qed.

Lemma fromCharCode_inj (a b : N) :
  (a < 65536)%N -> (b < 65536)%N -> fromCharCode a = fromCharCode b -> a = b.
Proof.
  unfold fromCharCode. intros Ha Hb H. inversion H as [H1].
  now rewrite !N.mod_small in H1.
Qed.

Lemma agent_name_inj i j :
  i < 26 -> j < 26 -> agent_name i = agent_name j -> i = j.
Proof.
  unfold agent_name. intros Hi Hj H. apply app_inv_head in H.
  apply fromCharCode_inj in H; lia.
Qed.

Lemma new_agents_names_NoDup n : forall i u,
  i + n <= 26 -> NoDup (map Agent.name (new_agents E n i u)).
Proof.
  induction n as [|n IH]; intros i u Hle; simpl.
  - constructor.
  - constructor; [|apply IH; lia].
    intros Hin. apply in_map_iff in Hin. destruct Hin as (a & Hname & Hin).
    apply In_nth_error in Hin. destruct Hin as (k & Hk).
    assert (Hlt : k < n).
    { rewrite <- (new_agents_length E n (S i) (S u)).
      apply nth_error_Some. congruence. }
    rewrite new_agents_nth in Hk by exact Hlt.
    inversion Hk; subst a; clear Hk. simpl in Hname.
    apply agent_name_inj in Hname; lia.
Qed.

Lemma agent_name_letter i :
  i < 26 -> agent_name i = js "User " ++ indexToLetters i.
Proof.
  intros Hi. unfold agent_name, indexToLetters.
  apply Nat.ltb_lt in Hi. now rewrite Hi.
Qed.
End Creation.

Section CreationSucceeds.
Variable E : Env.

Lemma jseqb_neq (a b : jsstring) : a <> b -> eqb a b = false.
Proof.
  intros H. destruct (eqb a b) eqn:Heq; [|reflexivity].
  apply eqb_eq in Heq. contradiction.
Qed.

Lemma jseqb_refl (a : jsstring) : eqb a a = true.
Proof. now apply eqb_eq. Qed.

Lemma has_agent_app d id :
  DatabaseService.has_agent d id
  = existsb (fun a => eqb (DbAgent.id a) id) (DatabaseService.agents d).
Proof. reflexivity. Qed.

Lemma createAgent_inr agent d :
  DatabaseService.has_agent d (DbAgent.id agent) = false ->
  (DatabaseService.foreign_keys d = true ->
   DatabaseService.has_conversation d (DbAgent.conversation_id agent) = true) ->
  DatabaseService.createAgent agent d =
  inr {| DatabaseService.conversations := DatabaseService.conversations d;
         DatabaseService.agents := DatabaseService.agents d ++ [agent];
         DatabaseService.messages := DatabaseService.messages d;
         DatabaseService.foreign_keys := DatabaseService.foreign_keys d |}.
Proof.
  intros Hnew Hfk. unfold DatabaseService.createAgent. rewrite Hnew.
  destruct (DatabaseService.foreign_keys d); [|reflexivity].
  now rewrite Hfk.
Qed.

Lemma createMessage_inr message d :
  DatabaseService.has_message d (DbMessage.id message) = false ->
  (DatabaseService.foreign_keys d = true ->
   DatabaseService.has_conversation d (DbMessage.conversation_id message) = true
   /\ DatabaseService.agent_ref_ok d (DbMessage.agent_id message) = true) ->
  DatabaseService.createMessage message d =
  inr {| DatabaseService.conversations := DatabaseService.conversations d;
         DatabaseService.agents := DatabaseService.agents d;
         DatabaseService.messages := DatabaseService.messages d ++ [message];
         DatabaseService.foreign_keys := DatabaseService.foreign_keys d |}.
Proof.
  intros Hnew Hfk. unfold DatabaseService.createMessage. rewrite Hnew.
  destruct (DatabaseService.foreign_keys d); [|reflexivity].
  destruct Hfk as [-> ->]; reflexivity.
Qed.

Lemma create_agents_succeeds conversationId n : forall i acc w,
  (DatabaseService.foreign_keys (store w) = true ->
   DatabaseService.has_conversation (store w) conversationId = true) ->
  (forall k, k < n ->
     DatabaseService.has_agent (store w) (uuid_at E (uuids w + k)) = false) ->
  (forall j k, j < k < n ->
     uuid_at E (uuids w + j) <> uuid_at E (uuids w + k)) ->
  exists r w', create_agents E conversationId n i acc w = (Ok r, w').
Proof.
  induction n as [|n IH]; intros i acc w Hfk Hnew Hdiff.
  - simpl. unfold ret. eauto.
  - cbn [create_agents]. rewrite bind_uuidv4.
    erewrite bind_db_write; cycle 1.
    { apply createAgent_inr; cbn [store DbAgent.id DbAgent.conversation_id].
      - rewrite <- (Nat.add_0_r (uuids w)). apply Hnew. lia.
      - exact Hfk. }
    apply IH; cbn [store uuids set_store DatabaseService.foreign_keys
                   DatabaseService.has_conversation
                   DatabaseService.conversations].
    + exact Hfk.
    + intros k Hk. rewrite has_agent_app. cbn [DatabaseService.agents].
      rewrite existsb_app. cbn [existsb DbAgent.id]. rewrite orb_false_r.
      apply orb_false_iff. split.
      * replace (S (uuids w) + k) with (uuids w + S k) by lia.
        apply Hnew. lia.
      * apply jseqb_neq. rewrite <- (Nat.add_0_r (uuids w)) at 1.
        replace (S (uuids w) + k) with (uuids w + S k) by lia.
        apply Hdiff. lia.
    + intros j k Hjk.
      replace (S (uuids w) + j) with (uuids w + S j) by lia.
      replace (S (uuids w) + k) with (uuids w + S k) by lia.
      apply Hdiff. lia.
Qed.

(** With fresh identifiers [createConversation] returns a conversation. *)
Lemma createConversation_succeeds topic n w :
  fresh_ids E w n ->
  exists c w', createConversation E topic n w = (Ok c, w').
Proof.
  intros (Hconv & Hagents & Hdiff & Hmsg).
  unfold createConversation.
  rewrite bind_uuidv4, bind_Date_now.
  erewrite bind_db_write; cycle 1.
  { unfold DatabaseService.createConversation.
    cbn [store DbConversation.id]. rewrite Hconv. reflexivity. }
  cbv beta.
  match goal with
  | |- context [bind (create_agents E ?cid n 0 []) _ ?w1] =>
      destruct (@create_agents_succeeds cid n 0 [] w1) as (r & w2 & Hr)
  end.
  - intros _. unfold DatabaseService.has_conversation.
    cbn [store set_store DatabaseService.conversations].
    rewrite existsb_app. cbn [existsb DbConversation.id].
    now rewrite jseqb_refl, orb_true_r.
  - intros k Hk. apply Hagents, Hk.
  - intros j k Hjk. apply Hdiff, Hjk.
  - rewrite (bind_eq _ _ _ Hr).
    pose proof (create_agents_Ok _ _ _ _ _ _ Hr) as [_ Hw2].
    rewrite bind_uuidv4.
    erewrite bind_db_write; [unfold ret; eauto|].
    apply createMessage_inr;
      cbn [store DbMessage.id DbMessage.conversation_id DbMessage.agent_id
           DatabaseService.agent_ref_ok];
      subst w2;
      cbn [store uuids set_store DatabaseService.has_message
           DatabaseService.messages DatabaseService.foreign_keys
           DatabaseService.has_conversation DatabaseService.conversations].
    + exact Hmsg.
    + intros _. split; [|reflexivity].
      unfold DatabaseService.has_conversation.
      cbn [DatabaseService.conversations].
      rewrite existsb_app. cbn [existsb DbConversation.id].
      now rewrite jseqb_refl, orb_true_r.
Qed.
End CreationSucceeds.

(** The helper of [src/utils] agrees with the spreadsheet sequence on
    every index that needs at most two letters. *)
Lemma indexToLetters_spreadsheet :
  forall i, i < 702 -> indexToLetters i = spreadsheet_name i.
Proof.
  assert (H : forallb (fun i => eqb (indexToLetters i) (spreadsheet_name i))
                      (seq 0 702) = true) by (vm_compute; reflexivity).
  intros i Hi. rewrite forallb_forall in H.
  apply eqb_eq, H, in_seq. lia.
Qed.

(** C1, as amended.  [createConversation] produces exactly [numAgents]
    agents; up to 26 agents their names are pairwise distinct and the agent
    of index [i] is called [User ] followed by the letter
    [indexToLetters i].  The helper [indexToLetters] itself gives [Z] at 25,
    [AA] at 26, [AZ] at 51 and [BA] at 52. *)
Theorem createConversation_agent_names E topic numAgents w c w' :
  createConversation E topic numAgents w = (Ok c, w') ->
  length (Conversation.agents c) = numAgents
  /\ (numAgents <= 26 ->
      NoDup (map Agent.name (Conversation.agents c))
      /\ forall i, i < numAgents ->
           nth_error (map Agent.name (Conversation.agents c)) i
           = Some (js "User " ++ indexToLetters i))
  /\ indexToLetters 25 = js "Z" /\ indexToLetters 26 = js "AA"
  /\ indexToLetters 51 = js "AZ" /\ indexToLetters 52 = js "BA".
Proof.
  intros H. apply createConversation_Ok in H. destruct H as (-> & _).
  cbn [Conversation.agents]. split; [apply new_agents_length|].
  split; [|repeat split; reflexivity].
  intros Hle. split.
  - apply new_agents_names_NoDup. lia.
  - intros i Hi. rewrite nth_error_map, new_agents_nth by exact Hi.
    cbn [option_map Agent.name]. rewrite Nat.add_0_l.
    now rewrite agent_name_letter by lia.
Qed.

Lemma createConversation_agent_names_witness :
  exists c w',
    createConversation Examples.env (js "cats") 3 (Examples.fresh 60) = (Ok c, w')
    /\ length (Conversation.agents c) = 3
    /\ NoDup (map Agent.name (Conversation.agents c))
    /\ forall i, i < 3 ->
         nth_error (map Agent.name (Conversation.agents c)) i
         = Some (js "User " ++ indexToLetters i).
Proof.
  assert (H : exists c w',
             createConversation Examples.env (js "cats") 3 (Examples.fresh 60)
             = (Ok c, w'))
    by (eexists; eexists; vm_compute; reflexivity).
  destruct H as (c & w' & H). exists c, w'. split; [exact H|].
  destruct (createConversation_agent_names _ _ _ _ H) as (Hlen & Hnames & _).
  split; [exact Hlen|]. apply Hnames. lia.
Defined.

(** C1 as stated fails: the agents are called [User A], [User B], ..., not
    [A], [B], ..., and the agent of index 26 is called [User ] followed by
    the code unit 91 (an opening bracket), where the sequence has [AA]. *)
Lemma createConversation_names_counterexample :
  exists c w',
    createConversation Examples.env (js "cats") 27 (Examples.fresh 60) = (Ok c, w')
    /\ nth_error (map Agent.name (Conversation.agents c)) 0 = Some (js "User A")
    /\ nth_error (map Agent.name (Conversation.agents c)) 26 = Some (js "User [")
    /\ spreadsheet_name 26 = js "AA"
    /\ map Agent.name (Conversation.agents c) <> map spreadsheet_name (seq 0 27).
Proof.
  eexists. eexists. split; [vm_compute; reflexivity|].
  repeat split; try (vm_compute; reflexivity).
  vm_compute. discriminate.
Qed.

(* ================================================================== *)
(** * Headers of the response format *)
(* ================================================================== *)

Lemma after_first_ci_None hdr text :
  after_first_ci hdr text = None <-> ~ occurs_ci hdr text.
Proof.
  split.
  - intros H (pre & s & -> & Hs). revert H.
    induction pre as [|c pre IH]; cbn [app after_first_ci].
    + destruct s; cbn [after_first_ci] in *; rewrite Hs; discriminate.
    + destruct (starts_with true hdr (c :: pre ++ s)); [discriminate|exact IH].
  - intros H. induction text as [|c tl IH]; cbn [after_first_ci].
    + destruct (starts_with true hdr []) eqn:Hs; [|reflexivity].
      exfalso. apply H. exists [], []. auto.
    + destruct (starts_with true hdr (c :: tl)) eqn:Hs.
      * exfalso. apply H. exists [], (c :: tl). auto.
      * apply IH. intros (pre & s & -> & Hs').
        apply H. exists (c :: pre), s. auto.
Qed.

Section MatcherFacts.
Variable ic : bool.
Variable input : jsstring.

Lemma state_eta (x : MatchState) : {| rest := rest x; cap1 := cap1 x |} = x.
Proof. destruct x; reflexivity. Qed.

(** A literal matches exactly where the text starts with it. *)
Lemma m_lit hdr : forall x k,
  m ic input (lit hdr) x k =
  if starts_with ic hdr (rest x)
  then k (advance x (skipn (length hdr) (rest x)))
  else None.
Proof.
  induction hdr as [|c hdr IH]; intros x k.
  - cbn. unfold advance. now rewrite state_eta.
  - cbn [lit m starts_with]. destruct (rest x) as [|ch tl] eqn:Hr.
    + reflexivity.
    + destruct (canonicalize ic ch =? canonicalize ic c)%N; [|reflexivity].
      rewrite IH. cbn [advance rest cap1 andb length skipn].
      destruct (starts_with ic hdr tl); reflexivity.
Qed.

Lemma m_space x k :
  m ic input space x k =
  match rest x with
  | ch :: tl => if is_space ch then k (advance x tl) else None
  | [] => None
  end.
Proof.
  cbn. destruct (rest x) as [|ch tl]; [reflexivity|].
  now rewrite orb_false_r.
Qed.

Lemma m_any_char x k :
  m ic input any_char x k =
  match rest x with
  | ch :: tl => k (advance x tl)
  | [] => None
  end.
Proof.
  cbn. destruct (rest x) as [|ch tl]; [reflexivity|].
  now destruct (is_space ch).
Qed.

(** [\s*] before a continuation that accepts the position after all the
    white space: nothing is given back. *)
Lemma star_space_greedy k z : forall fuel x,
  length (rest x) < fuel ->
  k (advance x (trimStart (rest x))) = Some z ->
  repeatMore (m ic input space) false true fuel x k = Some z.
Proof.
  induction fuel as [|fuel IH]; intros x Hfuel Hk; [lia|].
  cbn [repeatMore clear_caps]. rewrite m_space.
  destruct (rest x) as [|ch tl] eqn:Hr.
  - cbn [trimStart] in Hk. unfold advance in Hk.
    rewrite <- Hr, state_eta in Hk. exact Hk.
  - cbn [trimStart] in Hk. destruct (is_space ch).
    + cbn [advance rest length]. rewrite (proj2 (Nat.ltb_lt _ _)) by lia.
      rewrite IH; [reflexivity | cbn in *; lia | exact Hk].
    + unfold advance in Hk. rewrite <- Hr, state_eta in Hk. exact Hk.
Qed.

(** [[\s\S]*?]: the continuation is tried at each position in turn. *)
Lemma lazy_any k : forall fuel x,
  length (rest x) < fuel ->
  repeatMore (m ic input any_char) false false fuel x k
  = first_suffix k (cap1 x) (rest x).
Proof.
  induction fuel as [|fuel IH]; intros x Hfuel; [lia|].
  cbn [repeatMore clear_caps]. rewrite m_any_char.
  destruct (rest x) as [|ch tl] eqn:Hr; cbn [first_suffix].
  - rewrite <- Hr, state_eta. reflexivity.
  - rewrite <- Hr, state_eta. destruct (k x); [reflexivity|].
    cbn [advance rest]. rewrite Hr. cbn [length].
    rewrite (proj2 (Nat.ltb_lt _ _)) by lia.
    rewrite IH by (cbn in *; lia). reflexivity.
Qed.

End MatcherFacts.

Section HeaderMatches.
Variable input : jsstring.

(** The continuation of a group closed at the end of the input. *)
Lemma first_suffix_eol (r0 : jsstring) cap : forall s,
  first_suffix
    (fun y => m true input REol
                {| rest := rest y;
                   cap1 := Some (firstn (length r0 - length (rest y)) r0) |}
                Some)
    cap s
  = Some {| rest := []; cap1 := Some r0 |}.
Proof.
  induction s as [|c tl IH]; cbn [first_suffix m rest length].
  - now rewrite Nat.sub_0_r, firstn_all.
  - exact IH.
Qed.

(** One attempt of the private expression: it succeeds exactly at a
    header, and group 1 is the rest of the text without its leading white
    space. *)
Lemma match_at_private s :
  match_at true input private_re s =
  if starts_with true PRIVATE_HEADER s
  then Some {| rest := [];
               cap1 := Some (trimStart (skipn (length PRIVATE_HEADER) s)) |}
  else None.
Proof.
  unfold match_at, private_re. cbn [m]. rewrite m_lit. cbn [rest].
  destruct (starts_with true PRIVATE_HEADER s); [|reflexivity].
  unfold star. cbn [m repeatMin].
  change (has_group space) with false.
  apply star_space_greedy; [cbn [rest]; lia|].
  cbn [advance rest cap1]. unfold lazy_star. cbn [m repeatMin].
  change (has_group any_char) with false.
  rewrite lazy_any by (cbn [rest]; lia). cbn [rest cap1].
  apply first_suffix_eol.
Qed.

(** One attempt of the public expression fails where no header starts. *)
Lemma match_at_public_None s :
  starts_with true PUBLIC_HEADER s = false ->
  match_at true input public_re s = None.
Proof.
  intros H. unfold match_at, public_re. cbn [m]. rewrite m_lit. cbn [rest].
  now rewrite H.
Qed.

Lemma search_public_None : forall s skipped,
  after_first_ci PUBLIC_HEADER s = None ->
  search true input public_re skipped s = None.
Proof.
  induction s as [|c tl IH]; intros skipped H; cbn [search after_first_ci] in *.
  - destruct (starts_with true PUBLIC_HEADER []) eqn:Hs; [discriminate|].
    now rewrite match_at_public_None.
  - destruct (starts_with true PUBLIC_HEADER (c :: tl)) eqn:Hs; [discriminate|].
    rewrite match_at_public_None by exact Hs. now apply IH.
Qed.

Lemma search_private : forall s skipped,
  option_map (fun r => cap1 (snd r)) (search true input private_re skipped s)
  = option_map (fun r => Some (trimStart r)) (after_first_ci PRIVATE_HEADER s).
Proof.
  induction s as [|c tl IH]; intros skipped; cbn [search after_first_ci];
    rewrite match_at_private.
  - destruct (starts_with true PRIVATE_HEADER []); reflexivity.
  - destruct (starts_with true PRIVATE_HEADER (c :: tl)); [reflexivity|].
    apply IH.
Qed.
End HeaderMatches.

Lemma trimStart_idem s : trimStart (trimStart s) = trimStart s.
Proof.
  induction s as [|c tl IH]; cbn [trimStart]; [reflexivity|].
  destruct (is_space c) eqn:Hc; [exact IH|].
  cbn [trimStart]. now rewrite Hc.
Qed.

(** What [privateMatch && privateMatch[1]] selects is the text after the
    first header, trimmed. *)
Lemma captured_private text :
  match captured (exec true private_re text) with
  | Some g => trim g
  | None => []
  end
  = match after_first_ci PRIVATE_HEADER text with
    | Some r => trim r
    | None => []
    end.
Proof.
  unfold exec. pose proof (search_private text text []) as H.
  destruct (search true text private_re [] text) as [[[pre s] y]|];
    destruct (after_first_ci PRIVATE_HEADER text) as [r|];
    cbn [option_map snd] in H; try discriminate; [|reflexivity].
  inversion H as [Hcap]. unfold captured. cbn [group1]. rewrite Hcap.
  destruct (trimStart r) as [|c g] eqn:Ht; cbn [truthy]; unfold trim.
  - now rewrite Ht.
  - now rewrite <- Ht, trimStart_idem.
Qed.

(** C2, as amended.  When the header [PUBLIC RESPONSE:] occurs nowhere in
    the text, in any case, the parser returns the whole text as the public
    response; the private thoughts are then the trimmed text after the
    first [PRIVATE THOUGHTS:] header, and empty when there is no such
    header.  Both revisions of the parser agree on this. *)
Theorem parse_without_public_header text :
  ~ occurs_ci PUBLIC_HEADER text ->
  LlmService.parseAgentResponse text
  = {| AgentResponse.publicResponse := text;
       AgentResponse.privateThoughts :=
         match after_first_ci PRIVATE_HEADER text with
         | Some r => trim r
         | None => []
         end |}
  /\ LlmServiceMulti.parseAgentResponse text
     = LlmService.parseAgentResponse text
  /\ (~ occurs_ci PRIVATE_HEADER text ->
      AgentResponse.privateThoughts (LlmService.parseAgentResponse text) = []).
Proof.
  intros H. apply after_first_ci_None in H.
  unfold LlmService.parseAgentResponse, LlmServiceMulti.parseAgentResponse.
  assert (Hpub : exec true public_re text = None).
  { unfold exec. now rewrite search_public_None. }
  rewrite Hpub. cbn [captured]. rewrite captured_private.
  repeat split.
  intros Hpriv. apply after_first_ci_None in Hpriv.
  cbn [AgentResponse.privateThoughts]. now rewrite Hpriv.
Qed.

Lemma parse_without_public_header_witness :
  LlmService.parseAgentResponse (js "just text, no headers")
  = {| AgentResponse.publicResponse := js "just text, no headers";
       AgentResponse.privateThoughts := [] |}.
Proof.
  assert (H : ~ occurs_ci PUBLIC_HEADER (js "just text, no headers"))
    by (apply after_first_ci_None; vm_compute; reflexivity).
  destruct (parse_without_public_header H) as (Hparse & _ & Hempty).
  rewrite Hparse. reflexivity.
Defined.

(** C2 as stated fails: without a public header but with a private one the
    private thoughts are not empty. *)
Lemma parse_private_header_only_counterexample :
  ~ occurs_ci PUBLIC_HEADER (js "PRIVATE THOUGHTS: hmm")
  /\ LlmService.parseAgentResponse (js "PRIVATE THOUGHTS: hmm")
     = {| AgentResponse.publicResponse := js "PRIVATE THOUGHTS: hmm";
          AgentResponse.privateThoughts := js "hmm" |}
  /\ LlmServiceMulti.parseAgentResponse (js "PRIVATE THOUGHTS: hmm")
     = {| AgentResponse.publicResponse := js "PRIVATE THOUGHTS: hmm";
          AgentResponse.privateThoughts := js "hmm" |}
  /\ js "hmm" <> [].
Proof.
  split; [apply after_first_ci_None; vm_compute; reflexivity|].
  repeat split; try (vm_compute; reflexivity). discriminate.
Qed.

(* ================================================================== *)
(** * The adapter never throws *)
(* ================================================================== *)

Section AdapterFacts.
Variable E : Env.

Lemma checkRateLimit_Ok w :
  checkRateLimit E w = (Ok tt, after_check E w)
  /\ store (after_check E w) = store w
  /\ uuids (after_check E w) = uuids w
  /\ dispatches (after_check E w) = dispatches w
  /\ rateLimit (llm (after_check E w)) = rateLimit (llm w)
  /\ modelProvider (llm (after_check E w)) = modelProvider (llm w).
Proof.
  unfold after_check, checkRateLimit.
  rewrite bind_Date_now. unfold bind at 1. unfold get_llm at 1.
  cbv zeta. cbn [llm tick clock].
  destruct (60000 <=? _)%Z; [cbn; repeat split|].
  destruct (limit_reached (llm w)); cbn; repeat split.
Qed.

Lemma bind_checkRateLimit {B : Type} (f : unit -> M B) w :
  bind (checkRateLimit E) f w = f tt (after_check E w).
Proof.
  unfold bind at 1. destruct (checkRateLimit_Ok w) as (-> & _). reflexivity.
Qed.

(** The adapter, one case per outcome. *)
Lemma adapter_cases rev agentName systemPrompt messages privateThoughts w :
  let w1 := after_check E w in
  let request := request_of agentName systemPrompt messages privateThoughts in
  let c := answer E w request in
  let w2 := dispatched w1 agentName messages privateThoughts request c in
  llm_generateAgentResponse E rev agentName systemPrompt messages
    privateThoughts w
  = if provider_supported rev (llm w) then
      match c with
      | Completed content =>
          (Ok (parser rev (or_empty content)), counted w2)
      | Rejected error => (Ok (unavailable agentName error), w2)
      end
    else
      (Ok (unavailable agentName
             (js "Error: Unsupported model provider: " ++ modelProvider (llm w))),
       w1).
Proof.
  cbv zeta. destruct (checkRateLimit_Ok w) as (_ & _ & _ & Hd & _ & Hp).
  unfold answer. rewrite <- Hd.
  destruct rev; cbn [llm_generateAgentResponse provider_supported parser].
  - unfold generateAgentResponse_openai. rewrite bind_checkRateLimit.
    unfold bind at 1. unfold create_completion at 1.
    unfold request_of.
    destruct (completion_at E _ _); reflexivity.
  - unfold generateAgentResponse_multi. rewrite bind_checkRateLimit.
    unfold bind at 1. unfold get_llm at 1. rewrite Hp.
    destruct (_ || _); [|reflexivity].
    unfold bind at 1. unfold create_completion at 1.
    unfold request_of.
    destruct (completion_at E _ _); reflexivity.
Qed.

(** An adapter call returns a response and leaves the store and the
    identifiers alone. *)
Lemma adapter_total rev agentName systemPrompt messages privateThoughts w :
  exists r w1,
    llm_generateAgentResponse E rev agentName systemPrompt messages
      privateThoughts w = (Ok r, w1)
    /\ store w1 = store w /\ uuids w1 = uuids w.
Proof.
  rewrite adapter_cases.
  destruct (checkRateLimit_Ok w) as (_ & Hs & Hu & _).
  destruct (provider_supported rev (llm w)).
  - destruct (answer E w _); eexists; eexists; (split; [reflexivity|]);
      cbn; auto.
  - eexists; eexists; (split; [reflexivity|]); auto.
Qed.
End AdapterFacts.

(* ================================================================== *)
(** * One turn of one agent *)
(* ================================================================== *)

Section TurnFacts.
Variable E : Env.
Variable rev : Revision.

Lemma array_get_Some {A : Type} (l : list A) i a :
  array_get l i = Some a ->
  (0 <= i)%Z /\ nth_error l (Z.to_nat i) = Some a.
Proof.
  unfold array_get. destruct (i <? 0)%Z eqn:Hi; [discriminate|].
  apply Z.ltb_ge in Hi. auto.
Qed.

Lemma array_get_of_nat {A : Type} (l : list A) k :
  array_get l (Z.of_nat k) = nth_error l k.
Proof.
  unfold array_get. rewrite (proj2 (Z.ltb_ge _ _)) by lia.
  now rewrite Nat2Z.id.
Qed.

Lemma array_get_None {A : Type} (l : list A) i :
  (i < 0 \/ Z.of_nat (length l) <= i)%Z -> array_get l i = None.
Proof.
  unfold array_get. intros H. destruct (i <? 0)%Z eqn:Hi; [reflexivity|].
  apply Z.ltb_ge in Hi. apply nth_error_None. lia.
Qed.

(** What a successful [generateAgentResponse] returns and leaves
    behind. *)
Lemma generateAgentResponse_Ok conversation agentIndex w c' w' :
  generateAgentResponse E rev conversation agentIndex w = (Ok c', w') ->
  exists agent response w1,
    array_get (Conversation.agents conversation) agentIndex = Some agent
    /\ llm_generateAgentResponse E rev (Agent.name agent)
         (Agent.systemPrompt agent) (public_history conversation)
         (Agent.privateThoughts agent) w = (Ok response, w1)
    /\ c' = apply_turn conversation (Z.to_nat agentIndex)
              (turn_public E conversation agent response w w1)
              (turn_private E conversation agent response w w1)
    /\ w' = after_turn E conversation
              (turn_public E conversation agent response w w1)
              (turn_private E conversation agent response w w1) w w1.
Proof.
  unfold generateAgentResponse.
  destruct (array_get _ agentIndex) as [agent|] eqn:Hget; [|discriminate].
  fold (public_history conversation). intros H.
  inv_bind H. rename a into response.
  destruct (adapter_total E rev (Agent.name agent) (Agent.systemPrompt agent)
              (public_history conversation) (Agent.privateThoughts agent) w)
    as (r & w1 & Hcall & Hstore & Huuids).
  rewrite Hcall in H0. inversion H0; subst r w0; clear H0.
  rewrite bind_Date_now, bind_uuidv4 in H.
  inv_bind H. apply db_write_Ok in H0. destruct H0 as (d & Hd & ->).
  rewrite bind_uuidv4 in H.
  inv_bind H. apply db_write_Ok in H0. destruct H0 as (d' & Hd' & ->).
  unfold DatabaseService.createMessage in Hd, Hd'.
  cbn [store set_store] in Hd, Hd'.
  destruct (DatabaseService.has_message (store w1) _); [discriminate|].
  destruct (_ && _); [discriminate|].
  inversion Hd; subst d; clear Hd.
  destruct (DatabaseService.has_message _ _); [discriminate|].
  destruct (_ && _); [discriminate|].
  inversion Hd'; subst d'; clear Hd'.
  unfold bind, db_update, ret in H. inversion H; subst; clear H.
  exists agent, response, w1. repeat split; try assumption;
    unfold after_turn, set_store, turn_public, turn_private, apply_turn,
      reply_message;
    cbn; rewrite ?Hstore, ?Huuids, <- ?app_assoc; reflexivity.
Qed.

(** With a store that takes the two messages the turn completes. *)
Lemma generateAgentResponse_succeeds conversation agentIndex agent w :
  array_get (Conversation.agents conversation) agentIndex = Some agent ->
  store_accepts E conversation agent w ->
  exists c' w', generateAgentResponse E rev conversation agentIndex w = (Ok c', w').
Proof.
  intros Hget (Hpub & Hpriv & Hdiff & Hfk).
  unfold generateAgentResponse. rewrite Hget.
  destruct (adapter_total E rev (Agent.name agent) (Agent.systemPrompt agent)
              (public_history conversation) (Agent.privateThoughts agent) w)
    as (r & w1 & Hcall & Hstore & Huuids).
  fold (public_history conversation).
  rewrite (bind_eq _ _ _ Hcall).
  rewrite bind_Date_now, bind_uuidv4.
  erewrite bind_db_write; cycle 1.
  { apply createMessage_inr;
      cbn [store uuids DbMessage.id DbMessage.conversation_id DbMessage.agent_id
           DatabaseService.agent_ref_ok];
      rewrite Hstore, ?Huuids; [exact Hpub | exact Hfk]. }
  rewrite bind_uuidv4.
  erewrite bind_db_write; cycle 1.
  { apply createMessage_inr;
      cbn [store uuids set_store DbMessage.id DbMessage.conversation_id
           DbMessage.agent_id DatabaseService.agent_ref_ok
           DatabaseService.foreign_keys];
      rewrite ?Hstore, ?Huuids.
    - unfold DatabaseService.has_message. cbn [DatabaseService.messages].
      rewrite existsb_app. cbn [existsb DbMessage.id].
      rewrite orb_false_r. apply orb_false_iff. split; [exact Hpriv|].
      now apply jseqb_neq.
    - exact Hfk. }
  unfold bind, db_update, ret. eauto.
Qed.
End TurnFacts.

(** C9.  For an agent index outside the agent list [generateAgentResponse]
    throws the error [Agent at index ... not found]; nothing has been
    written or changed by then: the store, and the whole world, are as
    before, and no aggregate is returned. *)
Theorem generateAgentResponse_not_found E rev conversation agentIndex w :
  (agentIndex < 0
   \/ Z.of_nat (length (Conversation.agents conversation)) <= agentIndex)%Z ->
  generateAgentResponse E rev conversation agentIndex w
  = (Throw (NotFound agentIndex), w).
Proof.
  intros H. unfold generateAgentResponse.
  now rewrite (array_get_None _ H).
Qed.

(** C4.  When the dispatch fails with description [error], the adapter
    returns the notice naming the agent and records the error in the
    private text; the turn of the engine then completes, given a store that
    takes its two messages, and appends the notice as a public message. *)
Theorem backend_failure_contained E rev :
  (forall agentName systemPrompt messages privateThoughts w error,
     dispatch_failure E rev w
       (request_of agentName systemPrompt messages privateThoughts)
     = Some error ->
     exists w1,
       llm_generateAgentResponse E rev agentName systemPrompt messages
         privateThoughts w
       = (Ok {| AgentResponse.publicResponse :=
                  agentName ++ js " is unable to respond at the moment.";
                AgentResponse.privateThoughts :=
                  js "Error generating response: " ++ error |}, w1))
  /\ (forall conversation agentIndex agent w error,
        array_get (Conversation.agents conversation) agentIndex = Some agent ->
        dispatch_failure E rev w
          (request_of (Agent.name agent) (Agent.systemPrompt agent)
             (public_history conversation) (Agent.privateThoughts agent))
        = Some error ->
        store_accepts E conversation agent w ->
        exists c' w' pub,
          generateAgentResponse E rev conversation agentIndex w = (Ok c', w')
          /\ Conversation.messages c'
             = Conversation.messages conversation ++ [pub]
          /\ Message.content pub
             = Agent.name agent ++ js " is unable to respond at the moment."
          /\ Message.agentName pub = Some (Agent.name agent)
          /\ Message.isPrivate pub = false
          /\ In (message_row pub) (DatabaseService.messages (store w'))).
Proof.
  assert (A : forall agentName systemPrompt messages privateThoughts w error,
     dispatch_failure E rev w
       (request_of agentName systemPrompt messages privateThoughts)
     = Some error ->
     exists w1,
       llm_generateAgentResponse E rev agentName systemPrompt messages
         privateThoughts w
       = (Ok (unavailable agentName error), w1)).
  { intros agentName systemPrompt messages privateThoughts w error H.
    rewrite adapter_cases. unfold dispatch_failure in H.
    destruct (provider_supported rev (llm w)).
    - destruct (answer E w _); [discriminate|].
      inversion H; subst. eauto.
    - inversion H; subst. eauto. }
  split; [exact A|].
  intros conversation agentIndex agent w error Hget Hfail Hstore.
  destruct (@generateAgentResponse_succeeds E rev conversation agentIndex
              agent w Hget Hstore) as (c' & w' & Hrun).
  destruct (@generateAgentResponse_Ok E rev _ _ _ _ _ Hrun)
    as (agent' & response & w1 & Hget' & Hcall & -> & ->).
  rewrite Hget in Hget'. inversion Hget'; subst agent'; clear Hget'.
  destruct (A _ _ _ _ _ _ Hfail) as (w1' & Hcall').
  rewrite Hcall in Hcall'. inversion Hcall'; subst; clear Hcall'.
  eexists. eexists. eexists. split; [exact Hrun|].
  cbn [apply_turn Conversation.messages]. split; [reflexivity|].
  repeat split.
  unfold after_turn. cbn [store DatabaseService.updateConversation
                          DatabaseService.messages].
  apply in_or_app. right. left. reflexivity.
Qed.

Lemma generateAgentResponse_not_found_witness :
  generateAgentResponse Examples.env OpenAIOnly Examples.talk 2 Examples.started
  = (Throw (NotFound 2), Examples.started).
Proof.
  apply generateAgentResponse_not_found. right. vm_compute. discriminate.
Defined.

Lemma backend_failure_contained_witness :
  (exists w1,
     llm_generateAgentResponse Examples.env_down OpenAIGroq (js "User A")
       baseSystemPrompt [] [] (Examples.fresh 2)
     = (Ok {| AgentResponse.publicResponse :=
                js "User A is unable to respond at the moment.";
              AgentResponse.privateThoughts :=
                js "Error generating response: Error: Connection error." |},
        w1))
  /\ exists c' w' pub,
       generateAgentResponse Examples.env_down OpenAIGroq Examples.talk 0
         Examples.started = (Ok c', w')
       /\ Conversation.messages c'
          = Conversation.messages Examples.talk ++ [pub]
       /\ Message.content pub
          = Agent.name Examples.user_a
            ++ js " is unable to respond at the moment."
       /\ Message.agentName pub = Some (Agent.name Examples.user_a)
       /\ Message.isPrivate pub = false
       /\ In (message_row pub) (DatabaseService.messages (store w')).
Proof.
  destruct (backend_failure_contained Examples.env_down OpenAIGroq) as [A B].
  split.
  - apply (A (js "User A") baseSystemPrompt [] [] (Examples.fresh 2)
             (js "Error: Connection error.")).
    vm_compute. reflexivity.
  - apply (B Examples.talk 0%Z Examples.user_a Examples.started
             (js "Error: Connection error.")).
    + vm_compute. reflexivity.
    + vm_compute. reflexivity.
    + repeat split; try (vm_compute; reflexivity).
      vm_compute. discriminate.
Defined.

(** C5, as amended.  When the dispatch completes with no content, or with
    empty content, the adapter counts the request and returns what the
    parser makes of the empty text: an empty public response and empty
    private thoughts.  What it returns is not the notice of the failure
    case, whatever the error description. *)
Theorem empty_completion_parsed E rev agentName systemPrompt messages
  privateThoughts w content :
  provider_supported rev (llm w) = true ->
  answer E w (request_of agentName systemPrompt messages privateThoughts)
  = Completed content ->
  or_empty content = [] ->
  exists response w1,
    llm_generateAgentResponse E rev agentName systemPrompt messages
      privateThoughts w
    = (Ok response, w1)
    /\ response = {| AgentResponse.publicResponse := [];
                     AgentResponse.privateThoughts := [] |}
    /\ requestCount (llm w1) = (requestCount (llm (after_check E w)) + 1)%Z
    /\ forall error, response <> unavailable agentName error.
Proof.
  intros Hsup Hans Hempty. rewrite adapter_cases, Hsup, Hans, Hempty.
  eexists. eexists. split; [reflexivity|]. split; [|split].
  - destruct rev; reflexivity.
  - reflexivity.
  - intros error H.
    assert (Hp : AgentResponse.publicResponse (parser rev []) = [])
      by (destruct rev; reflexivity).
    rewrite H in Hp. unfold unavailable in Hp.
    cbn [AgentResponse.publicResponse] in Hp.
    apply app_eq_nil in Hp. destruct Hp as [_ Hp]. discriminate Hp.
Qed.

Lemma empty_completion_parsed_witness :
  exists response w1,
    llm_generateAgentResponse Examples.env_empty OpenAIOnly (js "User A")
      baseSystemPrompt [] [] (Examples.fresh 2)
    = (Ok response, w1)
    /\ response = {| AgentResponse.publicResponse := [];
                     AgentResponse.privateThoughts := [] |}
    /\ requestCount (llm w1)
       = (requestCount (llm (after_check Examples.env_empty (Examples.fresh 2)))
          + 1)%Z
    /\ forall error, response <> unavailable (js "User A") error.
Proof.
  apply (@empty_completion_parsed Examples.env_empty OpenAIOnly (js "User A")
           baseSystemPrompt [] [] (Examples.fresh 2) None);
    vm_compute; reflexivity.
Defined.

(** C5 as stated fails: a response without content does not make the
    adapter return the notice. *)
Lemma empty_completion_counterexample :
  answer Examples.env_empty (Examples.fresh 2)
    (request_of (js "User A") baseSystemPrompt [] []) = Completed None
  /\ fst (llm_generateAgentResponse Examples.env_empty OpenAIOnly (js "User A")
            baseSystemPrompt [] [] (Examples.fresh 2))
     = Ok {| AgentResponse.publicResponse := [];
             AgentResponse.privateThoughts := [] |}
  /\ fst (llm_generateAgentResponse Examples.env_empty OpenAIGroq (js "User A")
            baseSystemPrompt [] [] (Examples.fresh 2))
     = Ok {| AgentResponse.publicResponse := [];
             AgentResponse.privateThoughts := [] |}
  /\ forall error,
       AgentResponse.publicResponse (unavailable (js "User A") error) <> [].
Proof.
  repeat split; try (vm_compute; reflexivity).
  intros error. vm_compute. discriminate.
Qed.

(* ================================================================== *)
(** * The rate limiter *)
(* ================================================================== *)

(** Reads the fields of the worlds built by the operations. *)
Ltac simpl_world :=
  cbn [store llm clock reads uuids dispatches requestCount lastResetTime
       rateLimit modelProvider tick slept reset_window set_llm set_store
       dispatched counted d_time d_ok d_history d_thoughts d_agentName
       d_request] in *.

Section RateLimit.
Variable E : Env.
Hypothesis Hmono : monotonic E.

Lemma filter_nothing {A : Type} (f : A -> bool) (l : list A) :
  (forall a, In a l -> f a = false) -> filter f l = [].
Proof.
  induction l as [|a l IH]; intros H; cbn [filter]; [reflexivity|].
  rewrite (H a (or_introl eq_refl)). apply IH. intros b Hb. apply H. now right.
Qed.

(** After [checkRateLimit] either a new window has started at the current
    time, with nothing counted, or the old window is still open and below
    its limit. *)
Lemma after_check_cases w :
  window_invariant w ->
  let w1 := after_check E w in
  dispatches w1 = dispatches w
  /\ rateLimit (llm w1) = rateLimit (llm w)
  /\ modelProvider (llm w1) = modelProvider (llm w)
  /\ ((lastResetTime (llm w1) = clock w1
       /\ requestCount (llm w1) = 0%Z
       /\ (lastResetTime (llm w) + 60000 <= clock w1)%Z)
      \/ (llm w1 = llm w
          /\ (lastResetTime (llm w) <= clock w1 < lastResetTime (llm w) + 60000)%Z
          /\ limit_reached (llm w) = false)).
Proof.
  intros (Hclock & _). cbv zeta. unfold after_check. cbv zeta.
  cbn [tick clock llm].
  pose proof (Hmono (reads w)) as Hd1.
  destruct (60000 <=? _)%Z eqn:Hel.
  - apply Z.leb_le in Hel. unfold reset_window, set_llm. simpl_world.
    repeat split. left. repeat split. lia.
  - apply Z.leb_gt in Hel. destruct (limit_reached (llm w)) eqn:Hlim.
    + unfold reset_window, set_llm. simpl_world.
      repeat split. left. repeat split.
      pose proof (Hmono (S (reads w))) as Hd2. lia.
    + simpl_world. repeat split. right. repeat split; lia.
Qed.

Lemma limit_not_reached s r :
  limit_reached s = false -> rateLimit s = Some r -> (requestCount s < r)%Z.
Proof.
  unfold limit_reached. intros H Hr. rewrite Hr in H.
  now apply Z.leb_gt in H.
Qed.

Lemma adapter_keeps_invariant rev agentName systemPrompt messages
  privateThoughts w :
  window_invariant w ->
  window_invariant
    (snd (llm_generateAgentResponse E rev agentName systemPrompt messages
            privateThoughts w)).
Proof.
  intros Hinv. pose proof Hinv as (Hclock & Htimes & Hcount & Hbound).
  rewrite adapter_cases.
  destruct (after_check_cases Hinv) as (Hd & Hr & _ & Hcases).
  set (w1 := after_check E w) in *.
  assert (Hinv1 : window_invariant w1).
  { destruct Hcases as [(Hlast & Hzero & Hend) | (Hllm & Hin & _)].
    - unfold window_invariant, counted_in_window.
      rewrite Hd, Hlast, Hzero. repeat split.
      + lia.
      + intros d Hdin. specialize (Htimes d Hdin). lia.
      + rewrite filter_nothing; [reflexivity|].
        intros d Hdin. specialize (Htimes d Hdin).
        apply andb_false_iff. right. apply Z.leb_gt. lia.
      + intros r _. lia.
    - unfold window_invariant, counted_in_window.
      rewrite Hd, Hllm. repeat split; try assumption. lia. }
  destruct (provider_supported rev (llm w)); [|exact Hinv1].
  set (request := request_of _ _ _ _).
  assert (Hlt : forall r, rateLimit (llm w1) = Some r ->
                  (requestCount (llm w1) + 1 <= Z.max r 1)%Z).
  { intros r Hr1. destruct Hcases as [(_ & Hzero & _) | (Hllm & _ & Hlim)].
    - rewrite Hzero. lia.
    - rewrite Hllm in *. pose proof (limit_not_reached _ Hlim Hr1). lia. }
  destruct Hinv1 as (Hclock1 & Htimes1 & Hcount1 & Hbound1).
  assert (Hnew : (clock w1 < lastResetTime (llm w1) + 60000)%Z).
  { destruct Hcases as [(Hlast & _) | (Hllm & Hin & _)].
    - rewrite Hlast. lia.
    - rewrite Hllm. lia. }
  destruct (answer E w request) as [content|error]; cbn [snd].
  - unfold window_invariant, counted_in_window, counted, dispatched.
    cbn [llm set_llm clock dispatches requestCount lastResetTime rateLimit].
    repeat split.
    + exact Hclock1.
    + intros d Hdin. apply in_app_or in Hdin.
      destruct Hdin as [Hdin | [<- | []]]; [now apply Htimes1 | exact Hnew].
    + rewrite filter_app, length_app. cbn [filter d_ok d_time andb].
      rewrite (proj2 (Z.leb_le _ _) Hclock1). cbn [length].
      unfold counted_in_window in Hcount1. lia.
    + exact Hlt.
  - unfold window_invariant, counted_in_window, dispatched.
    cbn [llm clock dispatches].
    repeat split.
    + exact Hclock1.
    + intros d Hdin. apply in_app_or in Hdin.
      destruct Hdin as [Hdin | [<- | []]]; [now apply Htimes1 | exact Hnew].
    + rewrite filter_app. cbn [filter d_ok andb]. rewrite app_nil_r.
      exact Hcount1.
    + exact Hbound1.
Qed.

Lemma reachable_invariant rev w : reachable E rev w -> window_invariant w.
Proof.
  induction 1 as [w Hd Hc Hl | w a s ms ps _ IH | w w' _ IH Hllm Hd Hc].
  - unfold window_invariant, counted_in_window. rewrite Hd, Hc.
    repeat split; [exact Hl | intros d [] | intros r _; lia].
  - now apply adapter_keeps_invariant.
  - destruct IH as (Hclock & Htimes & Hcount & Hbound).
    unfold window_invariant, counted_in_window in *. rewrite Hllm, Hd.
    repeat split; try assumption. lia.
Qed.

(** A call that finds the limit reached in an open window sends its
    request no earlier than the end of that window, in a new window. *)
Lemma limited_call_waits rev agentName systemPrompt messages privateThoughts w :
  provider_supported rev (llm w) = true ->
  limit_reached (llm w) = true ->
  let w' := snd (llm_generateAgentResponse E rev agentName systemPrompt
                   messages privateThoughts w) in
  exists d,
    dispatches w' = dispatches w ++ [d]
    /\ (lastResetTime (llm w) + 60000 <= d_time d)%Z
    /\ lastResetTime (llm w') = d_time d.
Proof.
  intros Hsup Hlim. cbv zeta. rewrite adapter_cases, Hsup.
  assert (H : (lastResetTime (llm w) + 60000 <= clock (after_check E w))%Z
              /\ lastResetTime (llm (after_check E w)) = clock (after_check E w)
              /\ dispatches (after_check E w) = dispatches w).
  { unfold after_check. cbv zeta. cbn [tick clock llm]. rewrite Hlim.
    pose proof (Hmono (reads w)) as Hd1.
    pose proof (Hmono (S (reads w))) as Hd2.
    destruct (60000 <=? _)%Z eqn:Hel; simpl_world.
    - apply Z.leb_le in Hel. repeat split. lia.
    - apply Z.leb_gt in Hel. repeat split. lia. }
  destruct H as (Hend & Hlast & Hd).
  destruct (answer E w _); cbn [snd]; eexists;
    (split; [cbn [dispatched counted set_llm dispatches]; rewrite Hd;
             reflexivity|]);
    cbn [d_time llm counted set_llm dispatched lastResetTime]; auto.
Qed.
End RateLimit.

(** C6, as amended.  With a clock that does not run backwards: at every
    moment of a run the request counter equals the number of requests that
    completed in the current window, which is at most the threshold (at
    most one for a threshold below one), and every request of the log was
    sent before the end of the current window; a call that finds the
    counter at the threshold sends its request no earlier than the end of
    the window, in a new window that starts then.  Requests that fail are
    sent but not counted. *)
Theorem rate_limit_window E rev :
  monotonic E ->
  (forall w, reachable E rev w ->
     requestCount (llm w) = Z.of_nat (length (counted_in_window w))
     /\ (forall r, rateLimit (llm w) = Some r ->
           (Z.of_nat (length (counted_in_window w)) <= Z.max r 1)%Z)
     /\ (forall d, In d (dispatches w) ->
           (d_time d < lastResetTime (llm w) + 60000)%Z))
  /\ (forall agentName systemPrompt messages privateThoughts w,
        provider_supported rev (llm w) = true ->
        limit_reached (llm w) = true ->
        exists d,
          dispatches (snd (llm_generateAgentResponse E rev agentName
                             systemPrompt messages privateThoughts w))
          = dispatches w ++ [d]
          /\ (lastResetTime (llm w) + 60000 <= d_time d)%Z
          /\ lastResetTime
               (llm (snd (llm_generateAgentResponse E rev agentName
                            systemPrompt messages privateThoughts w)))
             = d_time d).
Proof.
  intros Hmono. split.
  - intros w Hw.
    destruct (reachable_invariant Hmono Hw) as (_ & Htimes & Hcount & Hbound).
    split; [exact Hcount|]. split; [|exact Htimes].
    intros r Hr. rewrite <- Hcount. now apply Hbound.
  - intros agentName systemPrompt messages privateThoughts w Hsup Hlim.
    exact (limited_call_waits Hmono rev agentName systemPrompt messages
             privateThoughts w Hsup Hlim).
Qed.

(** Threshold 2, two requests completed in the window that started at 0:
    the third call sends its request at 60000 or later. *)
Lemma rate_limit_window_witness :
  requestCount (llm Examples.after_one_turn) = 2%Z
  /\ lastResetTime (llm Examples.after_one_turn) = 0%Z
  /\ requestCount (llm (Examples.fresh 2))
     = Z.of_nat (length (counted_in_window (Examples.fresh 2)))
  /\ exists d,
       dispatches (snd (llm_generateAgentResponse Examples.env OpenAIOnly
                          (js "User A") baseSystemPrompt [] []
                          Examples.after_one_turn))
       = dispatches Examples.after_one_turn ++ [d]
       /\ (0 + 60000 <= d_time d)%Z.
Proof.
  assert (Hmono : monotonic Examples.env) by (intros n; cbn; lia).
  destruct (rate_limit_window OpenAIOnly Hmono) as (Hinv & Hwait).
  split; [reflexivity|]. split; [reflexivity|]. split.
  - apply (Hinv (Examples.fresh 2)).
    apply reach_start; [reflexivity | reflexivity | cbn; lia].
  - destruct (Hwait (js "User A") baseSystemPrompt [] []
                Examples.after_one_turn eq_refl eq_refl)
      as (d & Hd & Hend & _).
    exists d. split; [exact Hd | exact Hend].
Defined.

(** C6 as stated fails: with threshold 2 and a backend that rejects every
    request, three requests are sent at times 5, 10 and 15, all in the
    window that started at 0; none of them is counted. *)
Lemma rate_limit_counterexample :
  let w := snd (Examples.three_calls Examples.env_down OpenAIOnly
                  (Examples.fresh 2)) in
  rateLimit (llm w) = Some 2%Z
  /\ lastResetTime (llm w) = 0%Z
  /\ map d_time (dispatches w) = [5; 10; 15]%Z
  /\ requestCount (llm w) = 0%Z.
Proof. vm_compute. repeat split. Qed.

(* ================================================================== *)
(** * The turn loop *)
(* ================================================================== *)

Section Seating.

Lemma array_update_length {A : Type} (f : A -> A) : forall i l,
  length (array_update f i l) = length l.
Proof.
  induction i as [|i IH]; intros [|a l]; cbn [array_update length];
    try reflexivity. now rewrite IH.
Qed.

Lemma array_update_nth {A : Type} (f : A -> A) : forall i l j,
  nth_error (array_update f i l) j
  = if j =? i then option_map f (nth_error l j) else nth_error l j.
Proof.
  induction i as [|i IH]; intros [|a l] [|j];
    cbn [array_update nth_error Nat.eqb option_map]; try reflexivity.
  - now destruct (j =? i).
  - apply IH.
Qed.

Lemma author_play c t i : author (play c t) i = author c i.
Proof.
  unfold author, play, apply_turn. cbn [Conversation.agents].
  rewrite array_update_nth. destruct (i =? t_index t); [|reflexivity].
  now destruct (nth_error (Conversation.agents c) i).
Qed.

Lemma author_plays ts : forall c i, author (fold_left play ts c) i = author c i.
Proof.
  induction ts as [|t ts IH]; intros c i; cbn [fold_left]; [reflexivity|].
  now rewrite IH, author_play.
Qed.

Lemma id_plays ts : forall c,
  Conversation.id (fold_left play ts c) = Conversation.id c.
Proof.
  induction ts as [|t ts IH]; intros c; cbn [fold_left]; [reflexivity|].
  now rewrite IH.
Qed.

Lemma agents_length_plays ts : forall c,
  length (Conversation.agents (fold_left play ts c))
  = length (Conversation.agents c).
Proof.
  induction ts as [|t ts IH]; intros c; cbn [fold_left]; [reflexivity|].
  rewrite IH. unfold play, apply_turn. cbn [Conversation.agents].
  apply array_update_length.
Qed.

Lemma turn_of_plays ts c t : turn_of (fold_left play ts c) t -> turn_of c t.
Proof.
  unfold turn_of. now rewrite author_plays, id_plays.
Qed.

Lemma messages_plays ts : forall c,
  Conversation.messages (fold_left play ts c)
  = Conversation.messages c ++ map t_public ts.
Proof.
  induction ts as [|t ts IH]; intros c; cbn [fold_left map].
  - now rewrite app_nil_r.
  - rewrite IH. unfold play, apply_turn. cbn [Conversation.messages].
    now rewrite <- app_assoc.
Qed.

Lemma thoughts_plays ts : forall c j,
  j < length (Conversation.agents c) ->
  thoughts_of (fold_left play ts c) j
  = thoughts_of c j
    ++ map t_private (filter (fun t => t_index t =? j) ts).
Proof.
  induction ts as [|t ts IH]; intros c j Hj; cbn [fold_left filter map].
  - now rewrite app_nil_r.
  - rewrite IH by (unfold play, apply_turn; cbn [Conversation.agents];
                   now rewrite array_update_length).
    unfold thoughts_of, play, apply_turn.
    cbn [Conversation.agents]. rewrite array_update_nth.
    rewrite (Nat.eqb_sym j).
    destruct (nth_error (Conversation.agents c) j) as [a|] eqn:Ha.
    + destruct (t_index t =? j); cbn [option_map map push_thought
                                      Agent.privateThoughts];
        now rewrite <- ?app_assoc.
    + apply nth_error_None in Ha. lia.
Qed.

Lemma turn_order_length numTurns numAgents :
  length (turn_order numTurns numAgents) = numTurns * numAgents.
Proof.
  unfold turn_order. induction numTurns as [|n IH]; cbn [repeat concat].
  - reflexivity.
  - rewrite length_app, length_seq, IH. reflexivity.
Qed.
End Seating.

Section Loop.
Variable E : Env.
Variable rev : Revision.

(** One call, as a turn. *)
Lemma generateAgentResponse_turn c k w c' w' :
  generateAgentResponse E rev c (Z.of_nat k) w = (Ok c', w') ->
  exists t,
    t_index t = k /\ c' = play c t /\ turn_of c t
    /\ DatabaseService.messages (store w')
       = DatabaseService.messages (store w) ++ turn_rows t.
Proof.
  intros H. apply generateAgentResponse_Ok in H.
  destruct H as (agent & response & w1 & Hget & _ & -> & ->).
  rewrite array_get_of_nat in Hget. rewrite Nat2Z.id.
  exists {| t_index := k;
            t_public := turn_public E c agent response w w1;
            t_private := turn_private E c agent response w w1 |}.
  split; [reflexivity|]. split; [reflexivity|]. split.
  - exists (Agent.id agent), (Agent.name agent).
    unfold author. cbn [t_index t_public t_private]. rewrite Hget.
    repeat split.
  - reflexivity.
Qed.

Lemma run_agents_turns n : forall k c w c' w',
  run_agents E rev n k c w = (Ok c', w') ->
  exists ts,
    map t_index ts = seq k n /\ c' = fold_left play ts c
    /\ Forall (turn_of c) ts
    /\ DatabaseService.messages (store w')
       = DatabaseService.messages (store w) ++ flat_map turn_rows ts.
Proof.
  induction n as [|n IH]; intros k c w c' w' H; cbn [run_agents] in H.
  - inversion H; subst. exists []. cbn. now rewrite app_nil_r.
  - destruct (nth_error (Conversation.agents c) k) as [agent|];
      [|discriminate].
    inv_bind H. apply generateAgentResponse_turn in H0.
    destruct H0 as (t & Hk & -> & Ht & Hrows).
    apply IH in H. destruct H as (ts & Hidx & -> & Hts & Hrows').
    exists (t :: ts). cbn [map seq fold_left flat_map]. repeat split.
    + now rewrite Hk, Hidx.
    + constructor; [exact Ht|].
      eapply Forall_impl; [|exact Hts].
      intros t' Ht'. exact (@turn_of_plays [t] c t' Ht').
    + now rewrite Hrows', Hrows, <- app_assoc.
Qed.

Lemma run_turns_turns numTurns numAgents : forall c w c' w',
  run_turns E rev numTurns numAgents c w = (Ok c', w') ->
  exists ts,
    map t_index ts = turn_order numTurns numAgents
    /\ c' = fold_left play ts c
    /\ Forall (turn_of c) ts
    /\ DatabaseService.messages (store w')
       = DatabaseService.messages (store w) ++ flat_map turn_rows ts.
Proof.
  induction numTurns as [|n IH]; intros c w c' w' H; cbn [run_turns] in H.
  - inversion H; subst. exists []. cbn. now rewrite app_nil_r.
  - inv_bind H. apply run_agents_turns in H0.
    destruct H0 as (ts1 & Hidx1 & -> & Hts1 & Hrows1).
    apply IH in H. destruct H as (ts2 & Hidx2 & -> & Hts2 & Hrows2).
    exists (ts1 ++ ts2). repeat split.
    + unfold turn_order. cbn [repeat concat].
      now rewrite map_app, Hidx1, Hidx2.
    + now rewrite fold_left_app.
    + apply Forall_app. split; [exact Hts1|].
      eapply Forall_impl; [|exact Hts2].
      intros t Ht. exact (turn_of_plays ts1 c Ht).
    + now rewrite Hrows2, Hrows1, flat_map_app, <- app_assoc.
Qed.
End Loop.

(* ================================================================== *)
(** * Runs that complete *)
(* ================================================================== *)

Section Completion.
Variable E : Env.
Variable rev : Revision.

Lemma has_conversation_update row d id :
  DatabaseService.has_conversation (DatabaseService.updateConversation row d) id
  = DatabaseService.has_conversation d id.
Proof.
  unfold DatabaseService.has_conversation, DatabaseService.updateConversation.
  cbn [DatabaseService.conversations].
  induction (DatabaseService.conversations d) as [|c l IH]; cbn [map existsb];
    [reflexivity|].
  rewrite IH. now destruct (eqb (DbConversation.id c) (DbConversation.id row)).
Qed.

Lemma array_update_In (priv : Message.t) : forall i l a',
  In a' (array_update (push_thought priv) i l) ->
  exists a, In a l /\ Agent.id a' = Agent.id a.
Proof.
  induction i as [|i IH]; intros [|a l] a' H; cbn [array_update] in H;
    try (now destruct H).
  - destruct H as [H | H].
    + exists a. split; [now left | now rewrite <- H].
    + exists a'. split; [now right | reflexivity].
  - destruct H as [H | H].
    + exists a'. split; [now left | reflexivity].
    + destruct (IH l a' H) as (a0 & Ha0 & Hid).
      exists a0. split; [now right | exact Hid].
Qed.

(** A turn completes and leaves the store ready for the next. *)
Lemma turn_completes c k agent w count :
  nth_error (Conversation.agents c) k = Some agent ->
  fresh_message_ids E w (2 + count) ->
  stored c w ->
  exists c' w',
    generateAgentResponse E rev c (Z.of_nat k) w = (Ok c', w')
    /\ fresh_message_ids E w' count
    /\ stored c' w'
    /\ length (Conversation.agents c') = length (Conversation.agents c).
Proof.
  intros Hget (Hnew & Hdiff) Hstored.
  assert (Hget' : array_get (Conversation.agents c) (Z.of_nat k) = Some agent)
    by now rewrite array_get_of_nat.
  assert (Hacc : store_accepts E c agent w).
  { repeat split.
    - rewrite <- (Nat.add_0_r (uuids w)). apply Hnew. lia.
    - replace (S (uuids w)) with (uuids w + 1) by lia. apply Hnew. lia.
    - rewrite <- (Nat.add_0_r (uuids w)) at 1.
      replace (S (uuids w)) with (uuids w + 1) by lia. apply Hdiff. lia.
    - now apply Hstored.
    - apply Hstored; [assumption|]. eapply nth_error_In; eassumption. }
  destruct (@generateAgentResponse_succeeds E rev c (Z.of_nat k) agent w
              Hget' Hacc) as (c' & w' & Hrun).
  exists c', w'. split; [exact Hrun|].
  destruct (@generateAgentResponse_Ok E rev _ _ _ _ _ Hrun)
    as (agent' & response & w1 & _ & _ & -> & ->).
  split; [|split].
  - unfold fresh_message_ids, after_turn, DatabaseService.has_message,
      DatabaseService.updateConversation.
    cbn [store uuids DatabaseService.messages].
    split.
    + intros j Hj. rewrite existsb_app. cbn [existsb]. rewrite orb_false_r.
      cbn [message_row DbMessage.id turn_public turn_private reply_message
           Message.id].
      apply orb_false_iff. split; [|apply orb_false_iff; split].
      * replace (S (S (uuids w)) + j) with (uuids w + (2 + j)) by lia.
        apply Hnew. lia.
      * apply jseqb_neq. rewrite <- (Nat.add_0_r (uuids w)) at 1.
        replace (S (S (uuids w)) + j) with (uuids w + (2 + j)) by lia.
        apply Hdiff. lia.
      * apply jseqb_neq.
        replace (S (S (uuids w)) + j) with (uuids w + (2 + j)) by lia.
        replace (S (uuids w)) with (uuids w + 1) by lia.
        apply Hdiff. lia.
    + intros i j Hij.
      replace (S (S (uuids w)) + i) with (uuids w + (2 + i)) by lia.
      replace (S (S (uuids w)) + j) with (uuids w + (2 + j)) by lia.
      apply Hdiff. lia.
  - unfold stored, after_turn. cbn [store apply_turn Conversation.id
                                    Conversation.agents].
    intros Hfk. rewrite has_conversation_update.
    unfold DatabaseService.updateConversation in Hfk.
    cbn [DatabaseService.foreign_keys] in Hfk.
    destruct (Hstored Hfk) as [Hc Ha]. split; [exact Hc|].
    intros a' Ha'. destruct (array_update_In _ _ _ _ Ha') as (a & Hin & ->).
    exact (Ha a Hin).
  - cbn [apply_turn Conversation.agents]. apply array_update_length.
Qed.

Lemma run_agents_completes n : forall k c w count,
  k + n <= length (Conversation.agents c) ->
  fresh_message_ids E w (2 * n + count) ->
  stored c w ->
  exists c' w',
    run_agents E rev n k c w = (Ok c', w')
    /\ fresh_message_ids E w' count
    /\ stored c' w'
    /\ length (Conversation.agents c') = length (Conversation.agents c).
Proof.
  induction n as [|n IH]; intros k c w count Hk Hfresh Hstored;
    cbn [run_agents].
  - exists c, w. split; [reflexivity|]. split; [exact Hfresh|].
    split; [exact Hstored | reflexivity].
  - destruct (nth_error (Conversation.agents c) k) as [agent|] eqn:Hget.
    2:{ apply nth_error_None in Hget. lia. }
    replace (2 * S n + count) with (2 + (2 * n + count)) in Hfresh by lia.
    destruct (@turn_completes c k agent w _ Hget Hfresh Hstored)
      as (c1 & w1 & Hrun & Hfresh1 & Hstored1 & Hlen1).
    rewrite (bind_eq _ _ _ Hrun).
    destruct (IH (S k) c1 w1 count) as (c' & w' & Hrun' & H1 & H2 & H3);
      try assumption; [lia|].
    exists c', w'. split; [exact Hrun'|]. split; [exact H1|].
    split; [exact H2 | lia].
Qed.

Lemma run_turns_completes numAgents : forall numTurns c w count,
  numAgents = length (Conversation.agents c) ->
  fresh_message_ids E w (2 * (numTurns * numAgents) + count) ->
  stored c w ->
  exists c' w', run_turns E rev numTurns numAgents c w = (Ok c', w').
Proof.
  induction numTurns as [|t IH]; intros c w count Hn Hfresh Hstored;
    cbn [run_turns].
  - unfold ret. eauto.
  - replace (2 * (S t * numAgents) + count)
      with (2 * numAgents + (2 * (t * numAgents) + count)) in Hfresh by lia.
    destruct (@run_agents_completes numAgents 0 c w
                (2 * (t * numAgents) + count)) as
      (c1 & w1 & Hrun & Hfresh1 & Hstored1 & Hlen1); try assumption; [lia|].
    rewrite (bind_eq _ _ _ Hrun).
    apply (IH c1 w1 count); auto. lia.
Qed.

(** A run completes when the conversation has its seed message, the
    identifiers to be drawn are new, and the store holds the conversation
    and its agents. *)
Lemma runConversation_succeeds c numTurns w :
  Conversation.messages c <> [] ->
  fresh_message_ids E w (2 * (numTurns * length (Conversation.agents c))) ->
  stored c w ->
  exists c' w', runConversation E rev c numTurns w = (Ok c', w').
Proof.
  intros Hm Hfresh Hstored. unfold runConversation.
  destruct (Conversation.messages c); [congruence|].
  apply (@run_turns_completes _ numTurns c w 0); auto.
  now rewrite Nat.add_0_r.
Qed.
End Completion.

(** C3.  A run of [numTurns] turns over [n] agents that completes is a
    sequence of [numTurns * n] calls of [generateAgentResponse], in the
    order turn 0 agent 0, turn 0 agent 1, ..., each adding one public
    message to the conversation, one private message to its agent and one
    row for each to the store, in that order. *)
Theorem runConversation_turns E rev conversation numTurns w c' w' :
  runConversation E rev conversation numTurns w = (Ok c', w') ->
  let n := length (Conversation.agents conversation) in
  exists ts,
    length ts = numTurns * n
    /\ map t_index ts = turn_order numTurns n
    /\ Forall (turn_of conversation) ts
    /\ Conversation.messages c'
       = Conversation.messages conversation ++ map t_public ts
    /\ (forall j, j < n ->
          thoughts_of c' j
          = thoughts_of conversation j
            ++ map t_private (filter (fun t => t_index t =? j) ts))
    /\ DatabaseService.messages (store w')
       = DatabaseService.messages (store w) ++ flat_map turn_rows ts.
Proof.
  intros H n. unfold runConversation in H.
  destruct (Conversation.messages conversation) eqn:Hm; [discriminate|].
  apply run_turns_turns in H.
  destruct H as (ts & Hidx & -> & Hts & Hrows). exists ts.
  split.
  { rewrite <- (length_map t_index), Hidx. apply turn_order_length. }
  split; [exact Hidx|]. split; [exact Hts|].
  split; [now rewrite messages_plays, Hm|].
  split; [|exact Hrows].
  intros j Hj. now apply thoughts_plays.
Qed.

Lemma runConversation_turns_witness :
  exists c' w' ts,
    runConversation Examples.env OpenAIOnly Examples.talk 2 Examples.started
    = (Ok c', w')
    /\ length ts = 2 * 2
    /\ map t_index ts = [0; 1; 0; 1]
    /\ Conversation.messages c'
       = Conversation.messages Examples.talk ++ map t_public ts
    /\ DatabaseService.messages (store w')
       = DatabaseService.messages (store Examples.started)
         ++ flat_map turn_rows ts.
Proof.
  assert (H : exists c' w',
             runConversation Examples.env OpenAIOnly Examples.talk 2
               Examples.started = (Ok c', w'))
    by (eexists; eexists; vm_compute; reflexivity).
  destruct H as (c' & w' & H).
  destruct (runConversation_turns _ _ _ _ _ H)
    as (ts & Hlen & Hidx & _ & Hm & _ & Hrows).
  exists c', w', ts. repeat split; assumption.
Defined.

(* ================================================================== *)
(** * Public messages and private thoughts *)
(* ================================================================== *)

Section Visibility.

Lemma insert_by_timestamp_Forall (P : DbMessage.t -> Prop) x : forall l,
  P x -> Forall P l -> Forall P (DatabaseService.insert_by_timestamp x l).
Proof.
  induction l as [|y l IH]; intros Hx Hl; cbn [DatabaseService.insert_by_timestamp].
  - now constructor.
  - destruct (_ <? _)%Z; [now constructor|].
    inversion Hl; subst. constructor; auto.
Qed.

Lemma order_by_timestamp_Forall (P : DbMessage.t -> Prop) l :
  Forall P l -> Forall P (DatabaseService.order_by_timestamp l).
Proof.
  unfold DatabaseService.order_by_timestamp.
  assert (H : forall acc, Forall P acc -> Forall P l ->
                Forall P (fold_left
                            (fun acc x => DatabaseService.insert_by_timestamp x acc)
                            l acc)).
  { induction l as [|x l IH]; intros acc Hacc Hl; cbn [fold_left]; [exact Hacc|].
    inversion Hl; subst. apply IH; [|assumption].
    now apply insert_by_timestamp_Forall. }
  intros Hl. apply H; [constructor | exact Hl].
Qed.

Lemma loadConversation_public conversationId d c :
  DatabaseService.loadConversation conversationId d = Some c -> public_only c.
Proof.
  unfold DatabaseService.loadConversation.
  destruct (DatabaseService.getConversation conversationId d); [|discriminate].
  intros H. inversion H; subst; clear H.
  unfold public_only, all_public. cbn [Conversation.messages].
  apply Forall_map. unfold DatabaseService.getPublicMessagesForConversation.
  apply order_by_timestamp_Forall. apply Forall_forall.
  intros x Hx. apply filter_In in Hx. destruct Hx as [_ Hx].
  apply andb_true_iff in Hx. destruct Hx as [_ Hx].
  cbn [DatabaseService.dbMessageToMessage Message.isPrivate].
  now apply negb_true_iff in Hx.
Qed.

Lemma public_history_public c : all_public (public_history c).
Proof.
  apply Forall_forall. intros x Hx. apply filter_In in Hx.
  destruct Hx as [_ Hx]. cbv beta.
  destruct (Message.isPrivate x); [discriminate Hx | reflexivity].
Qed.

Lemma logs_public_ret {A : Type} (a : A) : logs_public (ret a).
Proof.
  intros w. exists []. cbn. rewrite app_nil_r.
  split; [reflexivity | constructor].
Qed.

Lemma logs_public_throw {A : Type} e : logs_public (@throw A e).
Proof.
  intros w. exists []. cbn. rewrite app_nil_r.
  split; [reflexivity | constructor].
Qed.

Lemma logs_public_bind {A B : Type} (c : M A) (f : A -> M B) :
  logs_public c -> (forall a, logs_public (f a)) -> logs_public (bind c f).
Proof.
  intros Hc Hf w. unfold bind. destruct (Hc w) as (new1 & H1 & P1).
  destruct (c w) as [[a|e] w1]; cbn [snd] in *.
  - destruct (Hf a w1) as (new2 & H2 & P2).
    exists (new1 ++ new2). rewrite H2, H1, app_assoc.
    split; [reflexivity | now apply Forall_app].
  - exists new1. auto.
Qed.

Lemma logs_public_quiet {A : Type} (c : M A) :
  (forall w, dispatches (snd (c w)) = dispatches w) -> logs_public c.
Proof.
  intros H w. exists []. rewrite H, app_nil_r. split; [reflexivity|constructor].
Qed.

Lemma logs_public_db_write op : logs_public (db_write op).
Proof.
  apply logs_public_quiet. intros w. unfold db_write.
  now destruct (op (store w)).
Qed.

Variable E : Env.
Variable rev : Revision.

Lemma logs_public_adapter agentName systemPrompt messages privateThoughts :
  all_public messages ->
  logs_public (llm_generateAgentResponse E rev agentName systemPrompt
                 messages privateThoughts).
Proof.
  intros Hpub w. rewrite adapter_cases.
  destruct (checkRateLimit_Ok E w) as (_ & _ & _ & Hd & _).
  destruct (provider_supported rev (llm w)).
  - exists [{| d_time := clock (after_check E w); d_agentName := agentName;
               d_history := messages; d_thoughts := privateThoughts;
               d_request := request_of agentName systemPrompt messages
                              privateThoughts;
               d_ok := match answer E w (request_of agentName systemPrompt
                                           messages privateThoughts) with
                       | Completed _ => true
                       | Rejected _ => false
                       end |}].
    split; [|now repeat constructor].
    destruct (answer E w _); cbn [snd counted dispatched set_llm dispatches];
      now rewrite Hd.
  - exists []. cbn [snd]. rewrite Hd, app_nil_r. split; [reflexivity|constructor].
Qed.

Lemma logs_public_generate c agentIndex :
  logs_public (generateAgentResponse E rev c agentIndex).
Proof.
  unfold generateAgentResponse.
  destruct (array_get _ agentIndex) as [agent|]; [|apply logs_public_throw].
  apply logs_public_bind;
    [apply logs_public_adapter, public_history_public|]. intros response.
  apply logs_public_bind; [now apply logs_public_quiet|]. intros now.
  apply logs_public_bind; [now apply logs_public_quiet|]. intros id1.
  apply logs_public_bind; [apply logs_public_db_write|]. intros _.
  apply logs_public_bind; [now apply logs_public_quiet|]. intros id2.
  apply logs_public_bind; [apply logs_public_db_write|]. intros _.
  apply logs_public_bind; [now apply logs_public_quiet|]. intros _.
  apply logs_public_ret.
Qed.

Lemma logs_public_run_agents n : forall k c,
  logs_public (run_agents E rev n k c).
Proof.
  induction n as [|n IH]; intros k c; cbn [run_agents].
  - apply logs_public_ret.
  - destruct (nth_error _ k); [|apply logs_public_throw].
    apply logs_public_bind; [apply logs_public_generate|]. intros c'. apply IH.
Qed.

Lemma logs_public_run c numTurns :
  logs_public (runConversation E rev c numTurns).
Proof.
  unfold runConversation.
  destruct (Conversation.messages c) as [|first others];
    [apply logs_public_throw|].
  generalize (length (Conversation.agents c)). intros n. revert c.
  induction numTurns as [|turns IH]; intros c; cbn [run_turns].
  - apply logs_public_ret.
  - apply logs_public_bind; [apply logs_public_run_agents|]. intros c'. apply IH.
Qed.

Lemma runConversation_public c numTurns w c' w' :
  runConversation E rev c numTurns w = (Ok c', w') ->
  public_only c -> public_only c'.
Proof.
  unfold runConversation. intros H Hc.
  destruct (Conversation.messages c) as [|first others] eqn:Hm;
    [discriminate|].
  apply run_turns_turns in H. destruct H as (ts & _ & -> & Hts & _).
  unfold public_only. rewrite messages_plays. apply Forall_app.
  split; [exact Hc|]. apply Forall_map. eapply Forall_impl; [|exact Hts].
  intros t' (id & name & _ & _ & _ & _ & _ & _ & _ & Hpub & _). exact Hpub.
Qed.

Lemma produced_public c : produced E rev c -> public_only c.
Proof.
  induction 1 as [topic n w c w' H | id w c w' H | c i w c' w' _ IH H
                 | c t w c' w' _ IH H | c t w c' w' _ IH H].
  - apply createConversation_Ok in H. destruct H as (-> & _).
    unfold public_only, all_public. cbn [Conversation.messages].
    now repeat constructor.
  - unfold loadConversation in H. inversion H as [[Hload Hw]].
    exact (loadConversation_public _ _ Hload).
  - apply generateAgentResponse_Ok in H.
    destruct H as (agent & response & w1 & _ & _ & -> & _).
    unfold public_only, all_public, apply_turn. cbn [Conversation.messages].
    apply Forall_app. split; [exact IH|]. now repeat constructor.
  - apply runConversation_public in H; [exact H | exact IH].
  - apply runConversation_public in H; [exact H | exact IH].
Qed.
End Visibility.

(** C10.  The [messages] of every aggregate the turn engine hands out hold
    public messages only; a turn adds its public message there and its
    private thought to the thoughts of the agent that spoke, and to no
    other agent; and every request that [generateAgentResponse] or
    [runConversation] makes of the adapter carries a history of public
    messages. *)
Theorem public_messages_only E rev :
  (forall c, produced E rev c -> public_only c)
  /\ (forall c agentIndex w c' w',
        generateAgentResponse E rev c agentIndex w = (Ok c', w') ->
        exists pub priv,
          Message.isPrivate pub = false /\ Message.isPrivate priv = true
          /\ Conversation.messages c' = Conversation.messages c ++ [pub]
          /\ thoughts_of c' (Z.to_nat agentIndex)
             = thoughts_of c (Z.to_nat agentIndex) ++ [priv]
          /\ forall j, j <> Z.to_nat agentIndex ->
               thoughts_of c' j = thoughts_of c j)
  /\ (forall c agentIndex, logs_public (generateAgentResponse E rev c agentIndex))
  /\ (forall c numTurns, logs_public (runConversation E rev c numTurns)).
Proof.
  split; [exact (@produced_public E rev)|].
  split; [|split; [exact (logs_public_generate E rev)
                  | exact (logs_public_run E rev)]].
  intros c agentIndex w c' w' H. apply generateAgentResponse_Ok in H.
  destruct H as (agent & response & w1 & Hget & _ & -> & _).
  apply array_get_Some in Hget. destruct Hget as [_ Hget].
  exists (turn_public E c agent response w w1),
         (turn_private E c agent response w w1).
  split; [reflexivity|]. split; [reflexivity|]. split; [reflexivity|].
  unfold thoughts_of, apply_turn. cbn [Conversation.agents]. split.
  - rewrite array_update_nth, Nat.eqb_refl, Hget. reflexivity.
  - intros j Hj. rewrite array_update_nth.
    now rewrite (proj2 (Nat.eqb_neq _ _) Hj).
Qed.

Lemma public_messages_only_witness :
  public_only Examples.talk
  /\ (exists c' w' pub priv,
        generateAgentResponse Examples.env OpenAIOnly Examples.talk 1
          Examples.started = (Ok c', w')
        /\ Message.isPrivate pub = false /\ Message.isPrivate priv = true
        /\ Conversation.messages c'
           = Conversation.messages Examples.talk ++ [pub]
        /\ thoughts_of c' 1 = thoughts_of Examples.talk 1 ++ [priv]
        /\ thoughts_of c' 0 = thoughts_of Examples.talk 0).
Proof.
  destruct (public_messages_only Examples.env OpenAIOnly) as (Hpub & Hturn & _).
  split.
  - apply Hpub.
    apply (@produced_create Examples.env OpenAIOnly (js "cats") 2
             (Examples.fresh 2) Examples.talk Examples.started).
    vm_compute. reflexivity.
  - assert (H : exists c' w',
               generateAgentResponse Examples.env OpenAIOnly Examples.talk 1
                 Examples.started = (Ok c', w'))
      by (eexists; eexists; vm_compute; reflexivity).
    destruct H as (c' & w' & H).
    destruct (Hturn _ _ _ _ _ H) as (pub & priv & H1 & H2 & H3 & H4 & H5).
    exists c', w', pub, priv. repeat split; try assumption.
    apply (H5 0). discriminate.
Defined.

(* ================================================================== *)
(** * Creating and loading a conversation *)
(* ================================================================== *)

Section RoundTrip.
Variable E : Env.

Lemma existsb_false_In {A : Type} (f : A -> bool) l :
  existsb f l = false -> forall a, In a l -> f a = false.
Proof.
  intros H a Ha. destruct (f a) eqn:Hf; [|reflexivity].
  assert (Ht : existsb f l = true) by (apply existsb_exists; eauto).
  congruence.
Qed.

Lemma find_app_skip {A : Type} (f : A -> bool) l1 l2 :
  (forall a, In a l1 -> f a = false) -> find f (l1 ++ l2) = find f l2.
Proof.
  induction l1 as [|a l1 IH]; intros H; cbn [app find]; [reflexivity|].
  rewrite (H a (or_introl eq_refl)). apply IH. intros b Hb. apply H. now right.
Qed.

Lemma filter_all {A : Type} (f : A -> bool) l :
  (forall a, In a l -> f a = true) -> filter f l = l.
Proof.
  induction l as [|a l IH]; intros H; cbn [filter]; [reflexivity|].
  rewrite (H a (or_introl eq_refl)). f_equal. apply IH.
  intros b Hb. apply H. now right.
Qed.

(** An identifier that names one row and no row is two identifiers. *)
Lemma has_conversation_differs d a b :
  DatabaseService.has_conversation d a = true ->
  DatabaseService.has_conversation d b = false ->
  eqb a b = false.
Proof.
  intros Ha Hb. destruct (eqb a b) eqn:Hab; [|reflexivity].
  apply eqb_eq in Hab. congruence.
Qed.

Lemma has_agent_differs d a b :
  DatabaseService.has_agent d a = true ->
  DatabaseService.has_agent d b = false ->
  eqb a b = false.
Proof.
  intros Ha Hb. destruct (eqb a b) eqn:Hab; [|reflexivity].
  apply eqb_eq in Hab. congruence.
Qed.

Lemma new_agents_no_thoughts n : forall i u a,
  In a (new_agents E n i u) -> Agent.privateThoughts a = [].
Proof.
  induction n as [|n IH]; intros i u a Ha; cbn [new_agents] in Ha.
  - destruct Ha.
  - destruct Ha as [<- | Ha]; [reflexivity | exact (IH _ _ _ Ha)].
Qed.

(** The identifiers of the agents created were new to the agents table. *)
Lemma create_agents_fresh conversationId n : forall i acc w r w',
  create_agents E conversationId n i acc w = (Ok r, w') ->
  forall a, In a (new_agents E n i (uuids w)) ->
    DatabaseService.has_agent (store w) (Agent.id a) = false.
Proof.
  induction n as [|n IH]; intros i acc w r w' H a Ha;
    cbn [new_agents] in Ha; [destruct Ha|].
  cbn [create_agents] in H. rewrite bind_uuidv4 in H.
  inv_bind H. apply db_write_Ok in H0. destruct H0 as (d & Hd & ->).
  unfold DatabaseService.createAgent in Hd.
  cbn [store DbAgent.id DbAgent.conversation_id] in Hd.
  destruct (DatabaseService.has_agent (store w) _) eqn:Hnew; [discriminate|].
  destruct (_ && _); [discriminate|].
  inversion Hd; subst d; clear Hd.
  destruct Ha as [<- | Ha]; [exact Hnew|].
  pose proof (IH _ _ _ _ _ H a Ha) as Hf.
  unfold DatabaseService.has_agent in Hf.
  cbn [store set_store DatabaseService.agents] in Hf.
  rewrite existsb_app in Hf. apply orb_false_iff in Hf. exact (proj1 Hf).
Qed.

Lemma createConversation_fresh_agents topic n w c w' :
  createConversation E topic n w = (Ok c, w') ->
  forall a, In a (Conversation.agents c) ->
    DatabaseService.has_agent (store w) (Agent.id a) = false.
Proof.
  intros H a Ha. pose proof (createConversation_Ok _ _ _ _ H) as (Hc & _).
  rewrite Hc in Ha. cbn [Conversation.agents] in Ha.
  unfold createConversation in H.
  rewrite bind_uuidv4, bind_Date_now in H.
  inv_bind H. apply db_write_Ok in H0. destruct H0 as (d & Hd & ->).
  unfold DatabaseService.createConversation in Hd.
  destruct (DatabaseService.has_conversation _ _); [discriminate|].
  inversion Hd; subst d; clear Hd.
  inv_bind H. exact (create_agents_fresh _ _ _ _ _ H0 a Ha).
Qed.
End RoundTrip.

Lemma createConversation_loads E topic numAgents w c w' :
  createConversation E topic numAgents w = (Ok c, w') ->
  referential_integrity (store w) ->
  loadConversation (Conversation.id c) w' = (Ok (Some c), w')
  /\ Conversation.topic c = topic
  /\ length (Conversation.agents c) = numAgents
  /\ map Message.content (Conversation.messages c)
     = [js "Let's discuss the following topic: " ++ topic].
Proof.
  intros H (Hagents & Hmessages).
  pose proof (createConversation_fresh_agents _ _ _ _ H) as Hfresh.
  pose proof (createConversation_Ok _ _ _ _ H) as (Hc & Hw & Hnew & _).
  cbv zeta in Hc, Hw, Hnew.
  set (cid := uuid_at E (uuids w)) in *.
  set (now := (clock w + drift_at E (reads w))%Z) in *.
  set (agents := new_agents E numAgents 0 (S (uuids w))) in *.
  set (seed := seed_message (uuid_at E (S (uuids w) + numAgents)) cid topic now)
    in *.
  split; [|rewrite Hc; cbn [Conversation.topic Conversation.agents
                            Conversation.messages map seed seed_message
                            Message.content];
           repeat split; apply new_agents_length].
  unfold loadConversation. f_equal. f_equal.
  rewrite Hw. cbn [store]. rewrite Hc at 1. cbn [Conversation.id].
  unfold DatabaseService.loadConversation, DatabaseService.getConversation.
  cbn [DatabaseService.conversations].
  rewrite find_app_skip by (apply existsb_false_In; exact Hnew).
  cbn [find DbConversation.id]. rewrite jseqb_refl.
  assert (Ha : DatabaseService.getAgentsForConversation cid
                 {| DatabaseService.conversations :=
                      DatabaseService.conversations (store w)
                      ++ [{| DbConversation.id := cid;
                             DbConversation.topic := topic;
                             DbConversation.created_at := now;
                             DbConversation.updated_at := now |}];
                    DatabaseService.agents :=
                      DatabaseService.agents (store w)
                      ++ map (agent_row cid) agents;
                    DatabaseService.messages :=
                      DatabaseService.messages (store w) ++ [message_row seed];
                    DatabaseService.foreign_keys :=
                      DatabaseService.foreign_keys (store w) |}
               = map (agent_row cid) agents).
  { unfold DatabaseService.getAgentsForConversation.
    cbn [DatabaseService.agents]. rewrite filter_app.
    rewrite filter_nothing, filter_all; [reflexivity| |].
    - intros a Ha. apply in_map_iff in Ha. destruct Ha as (a0 & <- & _).
      cbn [agent_row DbAgent.conversation_id]. apply jseqb_refl.
    - intros a Ha. exact (has_conversation_differs _ _ _ (Hagents a Ha) Hnew). }
  rewrite Ha. clear Ha.
  assert (Hp : DatabaseService.getPublicMessagesForConversation cid
                 {| DatabaseService.conversations :=
                      DatabaseService.conversations (store w)
                      ++ [{| DbConversation.id := cid;
                             DbConversation.topic := topic;
                             DbConversation.created_at := now;
                             DbConversation.updated_at := now |}];
                    DatabaseService.agents :=
                      DatabaseService.agents (store w)
                      ++ map (agent_row cid) agents;
                    DatabaseService.messages :=
                      DatabaseService.messages (store w) ++ [message_row seed];
                    DatabaseService.foreign_keys :=
                      DatabaseService.foreign_keys (store w) |}
               = [message_row seed]).
  { unfold DatabaseService.getPublicMessagesForConversation.
    cbn [DatabaseService.messages]. rewrite filter_app.
    rewrite filter_nothing.
    - cbn [filter app message_row seed seed_message DbMessage.conversation_id
           DbMessage.is_private Message.conversationId Message.isPrivate].
      rewrite jseqb_refl. reflexivity.
    - intros x Hx. destruct (Hmessages x Hx) as [Hx1 _].
      now rewrite (has_conversation_differs _ _ _ Hx1 Hnew). }
  rewrite Hp. clear Hp.
  rewrite Hc. f_equal. f_equal.
  rewrite map_map. rewrite <- (map_id agents) at 2.
  apply map_ext_in. intros a Ha.
  assert (Ht : DatabaseService.getPrivateMessagesForAgent (Agent.id a)
                 {| DatabaseService.conversations :=
                      DatabaseService.conversations (store w)
                      ++ [{| DbConversation.id := cid;
                             DbConversation.topic := topic;
                             DbConversation.created_at := now;
                             DbConversation.updated_at := now |}];
                    DatabaseService.agents :=
                      DatabaseService.agents (store w)
                      ++ map (agent_row cid) agents;
                    DatabaseService.messages :=
                      DatabaseService.messages (store w) ++ [message_row seed];
                    DatabaseService.foreign_keys :=
                      DatabaseService.foreign_keys (store w) |}
               = []).
  { unfold DatabaseService.getPrivateMessagesForAgent.
    cbn [DatabaseService.messages]. rewrite filter_app.
    rewrite filter_nothing; [reflexivity|].
    intros x Hx. destruct (Hmessages x Hx) as [_ Hx2].
    unfold DatabaseService.agent_id_is.
    destruct (DbMessage.agent_id x) as [b|]; [|reflexivity].
    cbn [DatabaseService.agent_ref_ok] in Hx2.
    rewrite (has_agent_differs _ _ _ Hx2); [reflexivity|].
    apply Hfresh. rewrite Hc. exact Ha. }
  cbn [agent_row DbAgent.id DbAgent.name DbAgent.system_prompt].
  rewrite Ht. cbn [map].
  rewrite <- (new_agents_no_thoughts E _ _ _ _ Ha).
  now destruct a.
Qed.

Lemma kept_eq s : kept s = true -> toWellFormed s = s.
Proof. unfold kept. apply JsString.eqb_eq. Qed.

Lemma kept_opt_eq s : kept_opt s = true -> option_map toWellFormed s = s.
Proof.
  destruct s as [t|]; cbn [kept_opt option_map]; [|reflexivity].
  intros H. now rewrite (kept_eq _ H).
Qed.

Lemma stored_message_kept x :
  message_kept x = true -> stored_message (message_row x) = message_row x.
Proof.
  unfold message_kept. intros H.
  apply andb_prop in H. destruct H as [H Hcontent].
  apply andb_prop in H. destruct H as [H Hname].
  apply andb_prop in H. destruct H as [H Hagent].
  apply andb_prop in H. destruct H as [Hid Hconv].
  unfold stored_message, message_row.
  cbn [DbMessage.id DbMessage.conversation_id DbMessage.agent_id
       DbMessage.agent_name DbMessage.content DbMessage.is_private
       DbMessage.timestamp].
  now rewrite (kept_eq _ Hid), (kept_eq _ Hconv), (kept_opt_eq _ Hagent),
    (kept_opt_eq _ Hname), (kept_eq _ Hcontent).
Qed.

Lemma stored_agent_kept conversationId a :
  kept conversationId = true -> agent_kept a = true ->
  stored_agent (agent_row conversationId a) = agent_row conversationId a.
Proof.
  unfold agent_kept. intros Hconv H.
  apply andb_prop in H. destruct H as [H _].
  apply andb_prop in H. destruct H as [H Hprompt].
  apply andb_prop in H. destruct H as [Hid Hname].
  unfold stored_agent, agent_row.
  cbn [DbAgent.id DbAgent.conversation_id DbAgent.name DbAgent.system_prompt].
  now rewrite (kept_eq _ Hid), (kept_eq _ Hconv), (kept_eq _ Hname),
    (kept_eq _ Hprompt).
Qed.

(** The rows that [createConversation] writes for a conversation whose
    strings hold no lone surrogate are the rows the store then holds. *)
Lemma createConversation_written E topic numAgents w c w' :
  createConversation E topic numAgents w = (Ok c, w') ->
  written (store w) = store w ->
  conversation_kept c = true ->
  written (store w') = store w'.
Proof.
  intros H Hold Hkept.
  pose proof (createConversation_Ok _ _ _ _ H) as (Hc & Hw & _).
  cbv zeta in Hc, Hw.
  unfold conversation_kept in Hkept.
  apply andb_prop in Hkept. destruct Hkept as [Hkept Hagents].
  apply andb_prop in Hkept. destruct Hkept as [Hkept Hmessages].
  apply andb_prop in Hkept. destruct Hkept as [Hid Htopic].
  rewrite Hc in Hid, Htopic, Hagents, Hmessages.
  cbn [Conversation.id Conversation.topic Conversation.agents
       Conversation.messages forallb] in Hid, Htopic, Hagents, Hmessages.
  rewrite andb_true_r in Hmessages.
  rewrite Hw. cbn [store]. unfold written in *.
  cbn [DatabaseService.conversations DatabaseService.agents
       DatabaseService.messages DatabaseService.foreign_keys] in *.
  destruct (store w) as [cs ags ms fk].
  cbn [DatabaseService.conversations DatabaseService.agents
       DatabaseService.messages DatabaseService.foreign_keys] in *.
  injection Hold as Hcs Hags Hms.
  rewrite !map_app, Hcs, Hags, Hms. f_equal.
  - f_equal. cbn [map]. unfold stored_conversation.
    cbn [DbConversation.id DbConversation.topic DbConversation.created_at
         DbConversation.updated_at].
    now rewrite (kept_eq _ Hid), (kept_eq _ Htopic).
  - f_equal. rewrite map_map. apply map_ext_in. intros a Ha.
    apply stored_agent_kept; [exact Hid|].
    rewrite forallb_forall in Hagents. now apply Hagents.
  - f_equal. cbn [map]. now rewrite stored_message_kept.
Qed.

(** C7, as amended.  In a store whose references are intact and whose text
    holds no lone surrogate, for a conversation that [createConversation]
    returned and whose strings hold no lone surrogate, what
    [loadConversation] reads back is that conversation: the same topic, the
    same agents with their names and prompts, and the one seed message.
    The rows written are the rows the store holds. *)
Theorem create_then_load E topic numAgents w c w' :
  createConversation E topic numAgents w = (Ok c, w') ->
  referential_integrity (store w) ->
  written (store w) = store w ->
  conversation_kept c = true ->
  read_back (Conversation.id c) (store w') = Some c
  /\ written (store w') = store w'
  /\ loadConversation (Conversation.id c) w' = (Ok (Some c), w')
  /\ Conversation.topic c = topic
  /\ length (Conversation.agents c) = numAgents
  /\ map Message.content (Conversation.messages c)
     = [js "Let's discuss the following topic: " ++ topic].
Proof.
  intros H Hrefs Hold Hkept.
  pose proof (@createConversation_loads _ _ _ _ _ _ H Hrefs) as (Hload & Hrest).
  pose proof (@createConversation_written _ _ _ _ _ _ H Hold Hkept) as Hnew.
  split; [|split; [exact Hnew|split; [exact Hload|exact Hrest]]].
  unfold read_back. rewrite Hnew.
  assert (Hid : kept (Conversation.id c) = true).
  { unfold conversation_kept in Hkept.
    apply andb_prop in Hkept. destruct Hkept as [Hkept _].
    apply andb_prop in Hkept. destruct Hkept as [Hkept _].
    apply andb_prop in Hkept. now destruct Hkept. }
  rewrite (kept_eq _ Hid).
  unfold loadConversation in Hload. now inversion Hload.
Qed.

(** The store of a process that has only created conversations has its
    references intact: the empty store has, and [createConversation] keeps
    them so. *)
Lemma createConversation_keeps_integrity E topic numAgents w c w' :
  createConversation E topic numAgents w = (Ok c, w') ->
  referential_integrity (store w) -> referential_integrity (store w').
Proof.
  intros H (Hagents & Hmessages).
  pose proof (createConversation_Ok _ _ _ _ H) as (_ & Hw & _).
  cbv zeta in Hw. rewrite Hw. clear Hw H. cbn [store].
  assert (Hconv : forall id,
            DatabaseService.has_conversation (store w) id = true ->
            existsb (fun c0 => eqb (DbConversation.id c0) id)
              (DatabaseService.conversations (store w)
               ++ [{| DbConversation.id := uuid_at E (uuids w);
                      DbConversation.topic := topic;
                      DbConversation.created_at :=
                        (clock w + drift_at E (reads w))%Z;
                      DbConversation.updated_at :=
                        (clock w + drift_at E (reads w))%Z |}]) = true).
  { intros id Hid. rewrite existsb_app.
    unfold DatabaseService.has_conversation in Hid. now rewrite Hid. }
  assert (Hcid : existsb (fun c0 => eqb (DbConversation.id c0) (uuid_at E (uuids w)))
              (DatabaseService.conversations (store w)
               ++ [{| DbConversation.id := uuid_at E (uuids w);
                      DbConversation.topic := topic;
                      DbConversation.created_at :=
                        (clock w + drift_at E (reads w))%Z;
                      DbConversation.updated_at :=
                        (clock w + drift_at E (reads w))%Z |}]) = true).
  { rewrite existsb_app. cbn [existsb DbConversation.id].
    now rewrite jseqb_refl, !orb_true_r. }
  split; unfold DatabaseService.has_conversation, DatabaseService.agent_ref_ok,
           DatabaseService.has_agent;
    cbn [DatabaseService.conversations DatabaseService.agents
         DatabaseService.messages].
  - intros a Ha. apply in_app_or in Ha. destruct Ha as [Ha | Ha].
    + apply Hconv, Hagents, Ha.
    + apply in_map_iff in Ha. destruct Ha as (a0 & <- & _). exact Hcid.
  - intros x Hx. apply in_app_or in Hx. destruct Hx as [Hx | [<- | []]].
    + destruct (Hmessages x Hx) as [Hx1 Hx2]. split; [apply Hconv, Hx1|].
      unfold DatabaseService.agent_ref_ok, DatabaseService.has_agent in Hx2.
      destruct (DbMessage.agent_id x); [|reflexivity].
      rewrite existsb_app. now rewrite Hx2.
    + split; [exact Hcid | reflexivity].
Qed.

Lemma create_then_load_witness :
  read_back (Conversation.id Examples.talk) (store Examples.started)
  = Some Examples.talk
  /\ written (store Examples.started) = store Examples.started
  /\ loadConversation (Conversation.id Examples.talk) Examples.started
     = (Ok (Some Examples.talk), Examples.started)
  /\ Conversation.topic Examples.talk = js "cats"
  /\ length (Conversation.agents Examples.talk) = 2
  /\ map Message.content (Conversation.messages Examples.talk)
     = [js "Let's discuss the following topic: " ++ js "cats"].
Proof.
  apply (@create_then_load Examples.env (js "cats") 2 (Examples.fresh 2)
           Examples.talk Examples.started).
  - vm_compute. reflexivity.
  - split; intros ? [].
  - vm_compute. reflexivity.
  - vm_compute. reflexivity.
Defined.

(** C7 as stated fails for a topic with a lone surrogate: the store keeps
    text as UTF-8, and the topic and the seed message that are read back
    hold U+FFFD in its place. *)
Lemma create_then_load_counterexample :
  exists c w' c1,
    createConversation Examples.env [120; 55357; 121]%N 1
      (Examples.unchecked 2) = (Ok c, w')
    /\ referential_integrity (store (Examples.unchecked 2))
    /\ written (store (Examples.unchecked 2)) = store (Examples.unchecked 2)
    /\ read_back (Conversation.id c) (store w') = Some c1
    /\ Conversation.topic c = [120; 55357; 121]%N
    /\ Conversation.topic c1 = [120; 65533; 121]%N
    /\ map Message.content (Conversation.messages c1)
       = [js "Let's discuss the following topic: " ++ [120; 65533; 121]%N]
    /\ c1 <> c.
Proof.
  eexists. eexists. eexists.
  split; [vm_compute; reflexivity|].
  split; [split; intros ? []|].
  split; [reflexivity|].
  split; [vm_compute; reflexivity|].
  split; [reflexivity|].
  split; [reflexivity|].
  split; [reflexivity|].
  intros Heq. apply (f_equal Conversation.topic) in Heq.
  vm_compute in Heq. discriminate.
Qed.

(* ================================================================== *)
(** * Name prefixes echoed by the model *)
(* ================================================================== *)

Section PrefixFacts.
Variable ic : bool.
Variable input : jsstring.

Lemma letter_class c :
  existsb (atom_matches ic c) [ClsRange 65%N 90%N] = name_char ic c.
Proof.
  cbn [existsb atom_matches]. rewrite orb_false_r.
  unfold name_char, in_range, toUpper, toLower.
  destruct ic; cbn [andb orb].
  - destruct (65 <=? c)%N eqn:H1, (c <=? 90)%N eqn:H2,
             (97 <=? c)%N eqn:H3, (c <=? 122)%N eqn:H4;
      cbn [andb orb]; try reflexivity;
      repeat match goal with
             | H : (_ <=? _)%N = true |- _ => apply N.leb_le in H
             | H : (_ <=? _)%N = false |- _ => apply N.leb_gt in H
             end; try lia;
      repeat match goal with
             | |- context [(?a <=? ?b)%N] =>
                 let E := fresh in
                 destruct (a <=? b)%N eqn:E;
                 [apply N.leb_le in E | apply N.leb_gt in E]
             end; cbn [andb orb]; try reflexivity; lia.
  - now rewrite orb_false_r.
Qed.

Lemma m_letter x k :
  m ic input capital x k =
  match rest x with
  | ch :: tl => if name_char ic ch then k (advance x tl) else None
  | [] => None
  end.
Proof.
  unfold capital. cbn [m]. destruct (rest x) as [|ch tl]; [reflexivity|].
  now rewrite letter_class.
Qed.

(** [[A-Z]+] read greedily over a name that a colon follows. *)
Lemma letters_greedy k z tail : forall name fuel x,
  rest x = name ++ 58%N :: tail ->
  forallb (name_char ic) name = true ->
  length (rest x) < fuel ->
  k (advance x (58%N :: tail)) = Some z ->
  repeatMore (m ic input capital) false true fuel x k = Some z.
Proof.
  induction name as [|c name IH]; intros fuel x Hr Hn Hfuel Hk;
    (destruct fuel as [|fuel]; [lia|]); cbn [app] in Hr;
    cbn [repeatMore clear_caps]; rewrite m_letter, Hr.
  - replace (name_char ic 58%N) with false
      by (unfold name_char; destruct ic; reflexivity).
    unfold advance in Hk. rewrite <- Hr, state_eta in Hk. exact Hk.
  - cbn [forallb] in Hn. apply andb_true_iff in Hn. destruct Hn as [Hc Hn].
    rewrite Hc. cbn [advance rest length].
    rewrite Hr in Hfuel. cbn [length] in Hfuel.
    rewrite (proj2 (Nat.ltb_lt _ _)) by (cbn [length]; lia).
    rewrite (IH fuel (advance x (name ++ 58%N :: tail))); try reflexivity.
    + exact Hn.
    + cbn [advance rest]. lia.
    + exact Hk.
Qed.

Lemma trimStart_spaces ws tail :
  forallb is_space ws = true -> trimStart (ws ++ tail) = trimStart tail.
Proof.
  induction ws as [|c ws IH]; intros H; cbn [app trimStart]; [reflexivity|].
  cbn [forallb] in H. apply andb_true_iff in H. destruct H as [-> H]. now apply IH.
Qed.

Lemma starts_with_app hdr : forall word tail,
  length word = length hdr ->
  starts_with ic hdr (word ++ tail) = starts_with ic hdr word.
Proof.
  induction hdr as [|c hdr IH]; intros [|ch word] tail Hlen;
    cbn [starts_with app length] in *; try reflexivity; try discriminate.
  rewrite IH by lia. reflexivity.
Qed.

Lemma skipn_word {A : Type} (word tail : list A) :
  skipn (length word) (word ++ tail) = tail.
Proof. induction word; cbn [skipn length app]; auto. Qed.

(** One prefix is read whole when the text goes on without white
    space. *)
Lemma m_artifact a tail k z x :
  artifact_ok ic a ->
  rest x = artifact_text a ++ tail ->
  trimStart tail = tail ->
  k {| rest := tail; cap1 := Some (artifact_text a) |} = Some z ->
  m ic input prefix_group x k = Some z.
Proof.
  intros (Hlen & Hword & Hne & Hname & Hspace) Hr Htail Hk.
  assert (Hcap : firstn (length (rest x) - length tail) (rest x)
                 = artifact_text a).
  { rewrite Hr, length_app, Nat.add_sub. rewrite firstn_app, Nat.sub_diag.
    cbn [firstn]. now rewrite firstn_all, app_nil_r. }
  unfold artifact_text in Hr. rewrite <- !app_assoc in Hr.
  rewrite Hr in Hcap.
  unfold prefix_group. cbn [m]. unfold name_prefix. cbn [m].
  rewrite m_lit, Hr.
  rewrite starts_with_app by exact Hlen. rewrite Hword.
  change (length (js "User ")) with 5. rewrite <- Hlen, skipn_word.
  unfold plus. cbn [m repeatMin].
  change (has_group capital) with false. cbn [clear_caps].
  rewrite m_letter. cbn [advance rest].
  destruct (a_name a) as [|c name] eqn:Hn; [congruence|].
  cbn [forallb] in Hname. apply andb_true_iff in Hname.
  destruct Hname as [Hc Hname]. cbn [app]. rewrite Hc.
  cbn [advance rest cap1].
  apply (@letters_greedy _ z (a_space a ++ tail) name); cbn [advance rest].
  - reflexivity.
  - exact Hname.
  - lia.
  - cbn [advance rest cap1 m canonicalize].
    replace (canonicalize ic 58%N =? canonicalize ic 58%N)%N with true
      by (symmetry; apply N.eqb_refl).
    unfold star. cbn [m repeatMin].
    change (has_group space) with false.
    apply star_space_greedy; [cbn [advance rest]; lia|].
    cbn [advance rest cap1]. rewrite trimStart_spaces, Htail by exact Hspace.
    cbn [app] in Hcap. rewrite Hcap. exact Hk.
Qed.
End PrefixFacts.

Section PrefixLoop.
Variable ic : bool.
Variable input : jsstring.

Lemma canonical_U c :
  (canonicalize ic c =? canonicalize ic 85%N)%N = true -> is_space c = false.
Proof.
  unfold canonicalize, toUpper. intros H.
  destruct ic.
  - change ((97 <=? 85) && (85 <=? 122))%N with false in H. cbv iota in H.
    destruct ((97 <=? c) && (c <=? 122))%N eqn:Hc.
    + apply N.eqb_eq in H. assert (c = 117%N) by lia. subst c. reflexivity.
    + apply N.eqb_eq in H. subst c. reflexivity.
  - apply N.eqb_eq in H. subst c. reflexivity.
Qed.

(** A prefix does not begin with white space. *)
Lemma artifact_trimStart a tail :
  artifact_ok ic a ->
  trimStart (artifact_text a ++ tail) = artifact_text a ++ tail.
Proof.
  intros (Hlen & Hword & _). unfold artifact_text.
  destruct (a_word a) as [|c word]; [discriminate|].
  cbn [app trimStart]. change (js "User ") with (85%N :: js "ser ") in Hword.
  cbn [starts_with] in Hword. apply andb_true_iff in Hword.
  destruct Hword as [Hc _]. now rewrite (canonical_U _ Hc).
Qed.

Lemma artifact_length a : artifact_ok ic a -> 0 < length (artifact_text a).
Proof.
  intros (Hlen & _). unfold artifact_text. rewrite length_app. lia.
Qed.

Lemma artifacts_trimStart l body :
  Forall (artifact_ok ic) l -> trimStart body = body ->
  trimStart (artifacts_text l ++ body) = artifacts_text l ++ body.
Proof.
  intros Hl Hb. destruct l as [|a l]; [exact Hb|].
  inversion Hl; subst. unfold artifacts_text. cbn [map concat].
  rewrite <- app_assoc. now apply artifact_trimStart.
Qed.

Lemma m_prefix_fails x k :
  starts_with ic (js "User ") (rest x) = false ->
  m ic input prefix_group x k = None.
Proof.
  intros H. unfold prefix_group. cbn [m]. unfold name_prefix. cbn [m].
  now rewrite m_lit, H.
Qed.

(** The optional iterations of the group read every prefix of the run. *)
Lemma prefixes_more body : forall l fuel x,
  rest x = artifacts_text l ++ body ->
  Forall (artifact_ok ic) l ->
  trimStart body = body ->
  starts_with ic (js "User ") body = false ->
  length (rest x) < fuel ->
  exists cap,
    repeatMore (m ic input prefix_group) true true fuel x Some
    = Some {| rest := body; cap1 := cap |}.
Proof.
  induction l as [|a l IH]; intros fuel x Hr Hl Hbody Hend Hfuel;
    (destruct fuel as [|fuel]; [lia|]); cbn [repeatMore clear_caps].
  - cbn [artifacts_text map concat app] in Hr.
    rewrite m_prefix_fails by (cbn [rest]; now rewrite Hr).
    exists (cap1 x). now rewrite <- Hr, state_eta.
  - inversion Hl as [|a' l' Ha Hl']; subst.
    unfold artifacts_text in Hr. cbn [map concat] in Hr.
    rewrite <- app_assoc in Hr. fold (artifacts_text l) in Hr.
    pose proof (artifact_length Ha) as Hpos.
    assert (Hlen : length (artifacts_text l ++ body) < length (rest x))
      by (rewrite Hr, (length_app (artifact_text a)); lia).
    destruct (IH fuel {| rest := artifacts_text l ++ body;
                         cap1 := Some (artifact_text a) |}
                eq_refl Hl' Hbody Hend) as (cap & Hcap);
      [cbn [rest]; lia|].
    exists cap.
    erewrite (@m_artifact ic input a (artifacts_text l ++ body)); eauto.
    + now apply artifacts_trimStart.
    + cbn [rest]. rewrite (proj2 (Nat.ltb_lt _ _)) by exact Hlen. exact Hcap.
Qed.

(** [(P){n,}] reads a run of at least [n] prefixes whole. *)
Lemma prefixes_quant body : forall n l x,
  rest x = artifacts_text l ++ body ->
  Forall (artifact_ok ic) l ->
  n <= length l ->
  trimStart body = body ->
  starts_with ic (js "User ") body = false ->
  exists cap,
    m ic input (RQuant n true prefix_group) x Some
    = Some {| rest := body; cap1 := cap |}.
Proof.
  intros n l x Hr Hl Hn Hbody Hend. cbn [m].
  change (has_group prefix_group) with true.
  revert l x Hr Hl Hn.
  induction n as [|n IH]; intros l x Hr Hl Hn; cbn [repeatMin].
  - apply (@prefixes_more body l); auto.
  - destruct l as [|a l]; [cbn in Hn; lia|].
    inversion Hl as [|a' l' Ha Hl']; subst.
    unfold artifacts_text in Hr. cbn [map concat] in Hr.
    rewrite <- app_assoc in Hr. fold (artifacts_text l) in Hr.
    destruct (IH l {| rest := artifacts_text l ++ body;
                      cap1 := Some (artifact_text a) |} eq_refl Hl')
      as (cap & Hcap); [cbn [length] in Hn; lia|].
    exists cap.
    erewrite (@m_artifact ic input a (artifacts_text l ++ body)); eauto.
    now apply artifacts_trimStart.
Qed.
End PrefixLoop.

Section Stripping.
Variable ic : bool.

Lemma starts_with_weaken hdr : forall s,
  starts_with false hdr s = true -> starts_with true hdr s = true.
Proof.
  induction hdr as [|c hdr IH]; intros [|ch s] H; cbn [starts_with] in *;
    try reflexivity; try discriminate.
  apply andb_true_iff in H. destruct H as [Hc H].
  cbn [canonicalize] in Hc. apply N.eqb_eq in Hc. subst ch.
  cbn [canonicalize]. rewrite N.eqb_refl. now apply IH.
Qed.

(** Where a header does not occur in any case, no position starts it,
    with or without regard to case. *)
Lemma no_start hdr s :
  starts_with true hdr s = false -> starts_with ic hdr s = false.
Proof.
  destruct ic; [auto|]. intros H.
  destruct (starts_with false hdr s) eqn:Hs; [|reflexivity].
  apply starts_with_weaken in Hs. congruence.
Qed.

Lemma after_first_ci_head hdr s :
  after_first_ci hdr s = None -> starts_with true hdr s = false.
Proof.
  destruct s; cbn [after_first_ci];
    destruct (starts_with true hdr _); congruence.
Qed.

Lemma after_first_ci_tail hdr c s :
  after_first_ci hdr (c :: s) = None -> after_first_ci hdr s = None.
Proof.
  cbn [after_first_ci]. now destruct (starts_with true hdr (c :: s)).
Qed.

(** Past the start of the input [^] fails. *)
Lemma search_leading_None input : forall s skipped,
  length s < length input ->
  search ic input leading_prefixes_re skipped s = None.
Proof.
  induction s as [|c s IH]; intros skipped Hlen; cbn [search];
    unfold match_at, leading_prefixes_re; cbn [m rest];
    rewrite (proj2 (Nat.eqb_neq _ _)) by lia.
  - reflexivity.
  - apply IH. cbn [length] in Hlen. lia.
Qed.

(** Where the word [User ] does not occur the repeated prefix finds no
    match. *)
Lemma search_repeated_None input : forall s skipped,
  after_first_ci (js "User ") s = None ->
  search ic input repeated_prefixes_re skipped s = None.
Proof.
  assert (Hfail : forall s, after_first_ci (js "User ") s = None ->
            match_at ic input repeated_prefixes_re s = None).
  { intros s Hs. unfold match_at, repeated_prefixes_re. cbn [m repeatMin].
    apply m_prefix_fails. cbn [clear_caps rest].
    change (has_group prefix_group) with true. cbn [clear_caps rest].
    apply no_start, after_first_ci_head, Hs. }
  induction s as [|c s IH]; intros skipped Hs; cbn [search];
    rewrite (Hfail _ Hs); [reflexivity|].
  apply IH. exact (after_first_ci_tail _ _ _ Hs).
Qed.

(** The leading run of prefixes is what the first expression matches. *)
Lemma search_leading l body :
  l <> [] -> Forall (artifact_ok ic) l ->
  trimStart body = body ->
  after_first_ci (js "User ") body = None ->
  exists cap,
    search ic (artifacts_text l ++ body) leading_prefixes_re []
      (artifacts_text l ++ body)
    = Some ([], artifacts_text l ++ body, {| rest := body; cap1 := cap |}).
Proof.
  intros Hne Hl Hbody Hnone.
  destruct (@prefixes_quant ic (artifacts_text l ++ body) body 1 l
              {| rest := artifacts_text l ++ body; cap1 := None |}
              eq_refl Hl) as (cap & Hcap).
  - destruct l; [congruence | cbn [length]; lia].
  - exact Hbody.
  - apply no_start, after_first_ci_head, Hnone.
  - exists cap. destruct (artifacts_text l ++ body) eqn:Ht; cbn [search];
      unfold match_at, leading_prefixes_re; cbn [m rest];
      rewrite Nat.eqb_refl; unfold plus; rewrite Hcap; reflexivity.
Qed.

Lemma run_longer l body :
  l <> [] -> Forall (artifact_ok ic) l ->
  length body < length (artifacts_text l ++ body).
Proof.
  intros Hne Hl. destruct l as [|a l]; [congruence|].
  inversion Hl as [|a' l' Ha Hl']; subst.
  pose proof (artifact_length Ha). unfold artifacts_text. cbn [map concat].
  rewrite !length_app. lia.
Qed.

(** [replace(/^(P)+/i, '')] *)
Lemma replace_first_leading l body :
  l <> [] -> Forall (artifact_ok ic) l ->
  trimStart body = body ->
  after_first_ci (js "User ") body = None ->
  replace_first ic leading_prefixes_re (artifacts_text l ++ body) = body.
Proof.
  intros Hne Hl Hbody Hnone. unfold replace_first, exec.
  destruct (search_leading Hne Hl Hbody Hnone) as (cap & ->). reflexivity.
Qed.

(** [replace(/^(P)+/g, '')] *)
Lemma replace_all_leading l body :
  l <> [] -> Forall (artifact_ok ic) l ->
  trimStart body = body ->
  after_first_ci (js "User ") body = None ->
  replace_all ic leading_prefixes_re (artifacts_text l ++ body) = body.
Proof.
  intros Hne Hl Hbody Hnone. unfold replace_all. cbn [replace_from].
  destruct (search_leading Hne Hl Hbody Hnone) as (cap & ->). cbn [rest app].
  rewrite (proj2 (Nat.ltb_lt _ _)) by now apply run_longer.
  destruct (length (artifacts_text l ++ body)) eqn:Hlen; cbn [replace_from];
    [reflexivity|].
  rewrite search_leading_None; [reflexivity|]. now apply run_longer.
Qed.

(** [replace(/(P){2,}/g, '')] on a text without the word. *)
Lemma replace_all_repeated_none input s fuel :
  after_first_ci (js "User ") s = None ->
  replace_from fuel ic input repeated_prefixes_re s = s.
Proof.
  intros H. destruct fuel; cbn [replace_from]; [reflexivity|].
  now rewrite search_repeated_None.
Qed.
End Stripping.

Section PublicSection.

Lemma trimStart_length s : length (trimStart s) <= length s.
Proof.
  induction s as [|c s IH]; cbn [trimStart length]; [lia|].
  destruct (is_space c); cbn [length]; lia.
Qed.

Lemma trimStart_fixed c s : trimStart (c :: s) = c :: s -> is_space c = false.
Proof.
  cbn [trimStart]. destruct (is_space c); [|reflexivity].
  intros H. pose proof (trimStart_length s) as Hl. rewrite H in Hl.
  cbn [length] in Hl. lia.
Qed.

Lemma trimEnd_app front body :
  body <> [] -> trimEnd body = body -> trimEnd (front ++ body) = front ++ body.
Proof.
  unfold trimEnd. intros Hne H.
  assert (Hrev : trimStart (rev body) = rev body).
  { rewrite <- (rev_involutive (trimStart (rev body))), H. reflexivity. }
  rewrite rev_app_distr. destruct (rev body) as [|c r] eqn:Hb.
  - apply (f_equal (@rev _)) in Hb. rewrite rev_involutive in Hb.
    cbn in Hb. congruence.
  - cbn [app trimStart]. rewrite (trimStart_fixed Hrev).
    change (c :: r ++ rev front) with ((c :: r) ++ rev front).
    now rewrite <- Hb, <- rev_app_distr, rev_involutive.
Qed.

(** The lazy group before the lookahead runs to the end of a text without
    private header. *)
Lemma first_suffix_lookahead input (r0 : jsstring) cap : forall s,
  after_first_ci PRIVATE_HEADER s = None ->
  first_suffix
    (fun y => m true input (RLookahead (RAlt (lit PRIVATE_HEADER) REol))
                {| rest := rest y;
                   cap1 := Some (firstn (length r0 - length (rest y)) r0) |}
                Some)
    cap s
  = Some {| rest := []; cap1 := Some r0 |}.
Proof.
  induction s as [|c s IH]; intros Hs; cbn [first_suffix m rest];
    rewrite m_lit; cbn [rest];
    rewrite (after_first_ci_head _ _ Hs); cbn [length cap1].
  - now rewrite Nat.sub_0_r, firstn_all.
  - apply IH. exact (after_first_ci_tail _ _ _ Hs).
Qed.

(** The public section of a text that starts with the header and has no
    private section. *)
Lemma exec_public header ws section :
  length header = length PUBLIC_HEADER ->
  starts_with true PUBLIC_HEADER header = true ->
  forallb is_space ws = true ->
  trimStart section = section ->
  after_first_ci PRIVATE_HEADER section = None ->
  option_map group1 (exec true public_re (header ++ ws ++ section))
  = Some (Some section).
Proof.
  intros Hlen Hhdr Hws Hsec Hnone. unfold exec.
  set (text := header ++ ws ++ section).
  assert (Hm : match_at true text public_re text
               = Some {| rest := []; cap1 := Some section |}).
  { unfold match_at, public_re. cbn [m]. rewrite m_lit. cbn [rest].
    unfold text. rewrite starts_with_app, Hhdr by exact Hlen.
    rewrite <- Hlen, skipn_word.
    unfold star. cbn [m repeatMin]. change (has_group space) with false.
    apply star_space_greedy; [cbn [advance rest]; lia|].
    cbn [advance rest cap1]. rewrite trimStart_spaces, Hsec by exact Hws.
    unfold lazy_star. cbn [m repeatMin].
    change (has_group any_char) with false.
    rewrite lazy_any by (cbn [rest]; lia). cbn [rest cap1].
    now apply first_suffix_lookahead. }
  destruct text; cbn [search]; rewrite Hm; reflexivity.
Qed.

Lemma captured_public header ws section :
  length header = length PUBLIC_HEADER ->
  starts_with true PUBLIC_HEADER header = true ->
  forallb is_space ws = true ->
  trimStart section = section ->
  section <> [] ->
  after_first_ci PRIVATE_HEADER section = None ->
  captured (exec true public_re (header ++ ws ++ section)) = Some section.
Proof.
  intros Hlen Hhdr Hws Hsec Hne Hnone.
  pose proof (exec_public header ws Hlen Hhdr Hws Hsec Hnone) as H.
  unfold captured.
  destruct (exec true public_re _) as [res|]; [|discriminate].
  cbn [option_map] in H. inversion H as [Hg]. rewrite Hg.
  destruct section; [congruence | reflexivity].
Qed.
End PublicSection.

(** Both revisions remove a run of one or more prefixes from the start of
    the trimmed public section. *)
Lemma leading_prefixes_stripped rev header ws l body :
  length header = length PUBLIC_HEADER ->
  starts_with true PUBLIC_HEADER header = true ->
  forallb is_space ws = true ->
  l <> [] ->
  Forall (artifact_ok (ignores_case rev)) l ->
  body <> [] -> trimStart body = body -> trimEnd body = body ->
  ~ occurs_ci (js "User ") body ->
  ~ occurs_ci PRIVATE_HEADER (artifacts_text l ++ body) ->
  AgentResponse.publicResponse
    (parser rev (header ++ ws ++ artifacts_text l ++ body))
  = body.
Proof.
  intros Hlen Hhdr Hws Hne Hl Hbody Hstart Hend Huser Hpriv.
  apply after_first_ci_None in Huser. apply after_first_ci_None in Hpriv.
  assert (Hsec : captured (exec true public_re
                             (header ++ ws ++ artifacts_text l ++ body))
                 = Some (artifacts_text l ++ body)).
  { apply captured_public; auto.
    - now apply (@artifacts_trimStart (ignores_case rev)).
    - intros H. apply app_eq_nil in H. destruct H; congruence. }
  assert (Htrim : trim (artifacts_text l ++ body) = artifacts_text l ++ body).
  { unfold trim.
    rewrite (@artifacts_trimStart (ignores_case rev)) by assumption.
    now apply trimEnd_app. }
  destruct rev; cbn [parser ignores_case] in *.
  - unfold LlmService.parseAgentResponse.
    cbn [AgentResponse.publicResponse]. rewrite Hsec, Htrim.
    now apply replace_first_leading.
  - unfold LlmServiceMulti.parseAgentResponse.
    cbn [AgentResponse.publicResponse]. rewrite Hsec, Htrim.
    rewrite replace_all_leading by assumption.
    unfold replace_all. now apply replace_all_repeated_none.
Qed.

Section RunsWithin.

Lemma trimStart_app_fixed a tail :
  a <> [] -> trimStart a = a -> trimStart (a ++ tail) = a ++ tail.
Proof.
  intros Hne H. destruct a as [|c a]; [congruence|].
  cbn [app trimStart]. now rewrite (trimStart_fixed H).
Qed.

(** No prefix starts at a character other than the capital [U]. *)
Lemma match_needs_U input c s k x :
  c <> 85%N -> rest x = c :: s ->
  m false input prefix_group x k = None.
Proof.
  intros Hc Hr. apply m_prefix_fails. rewrite Hr.
  change (js "User ") with (85%N :: js "ser "). cbn [starts_with canonicalize].
  now rewrite (proj2 (N.eqb_neq _ _) Hc).
Qed.

Lemma search_repeated_skip input s : forall a skipped,
  ~ In 85%N a ->
  search false input repeated_prefixes_re skipped (a ++ s)
  = search false input repeated_prefixes_re (rev a ++ skipped) s.
Proof.
  induction a as [|c a IH]; intros skipped Hno; [reflexivity|].
  cbn [app search]. unfold match_at at 1, repeated_prefixes_re at 1.
  cbn [m repeatMin]. change (has_group prefix_group) with true.
  rewrite (@match_needs_U input c (a ++ s)); [| |reflexivity].
  - fold repeated_prefixes_re. rewrite IH.
    + cbn [rev]. now rewrite <- app_assoc.
    + intros H. apply Hno. now right.
  - intros ->. apply Hno. now left.
Qed.

Lemma search_leading_no_U c a :
  c <> 85%N ->
  search false (c :: a) leading_prefixes_re [] (c :: a) = None.
Proof.
  intros Hc. cbn [search]. unfold match_at at 1, leading_prefixes_re at 1.
  cbn [m rest]. rewrite Nat.eqb_refl. unfold plus. cbn [m repeatMin].
  change (has_group prefix_group) with true.
  rewrite (@match_needs_U (c :: a) c a); [| exact Hc | reflexivity].
  apply search_leading_None. cbn [length]. lia.
Qed.

(** [replace(/(P){2,}/g, '')] removes a run of two or more prefixes. *)
Lemma replace_from_run input fuel a l b :
  ~ In 85%N a ->
  2 <= length l -> Forall (artifact_ok false) l ->
  trimStart b = b ->
  after_first_ci (js "User ") b = None ->
  replace_from (S fuel) false input repeated_prefixes_re
    (a ++ artifacts_text l ++ b)
  = a ++ b.
Proof.
  intros HnoU Hl2 Hl Hbstart Huser.
  assert (Hne : l <> []) by (destruct l; [cbn in Hl2; lia | congruence]).
  cbn [replace_from]. rewrite search_repeated_skip by exact HnoU.
  rewrite app_nil_r.
  destruct (@prefixes_quant false input b 2 l
              {| rest := artifacts_text l ++ b; cap1 := None |}
              eq_refl Hl Hl2 Hbstart) as (cap & Hcap).
  { apply no_start, after_first_ci_head, Huser. }
  assert (Hs : search false input repeated_prefixes_re (rev a)
                 (artifacts_text l ++ b)
               = Some (a, artifacts_text l ++ b, {| rest := b; cap1 := cap |})).
  { destruct (artifacts_text l ++ b) eqn:Ht; cbn [search];
      unfold match_at, repeated_prefixes_re; rewrite Hcap;
      now rewrite rev_involutive. }
  rewrite Hs. cbn [rest].
  rewrite (proj2 (Nat.ltb_lt _ _)) by (apply (@run_longer false); assumption).
  now rewrite replace_all_repeated_none.
Qed.

(** The later revision removes a run of two or more prefixes inside the
    public section. *)
Lemma repeated_prefixes_removed header ws a l b :
  length header = length PUBLIC_HEADER ->
  starts_with true PUBLIC_HEADER header = true ->
  forallb is_space ws = true ->
  a <> [] -> trimStart a = a -> ~ In 85%N a ->
  2 <= length l -> Forall (artifact_ok false) l ->
  b <> [] -> trimStart b = b -> trimEnd b = b ->
  ~ occurs_ci (js "User ") b ->
  ~ occurs_ci PRIVATE_HEADER (a ++ artifacts_text l ++ b) ->
  AgentResponse.publicResponse
    (LlmServiceMulti.parseAgentResponse
       (header ++ ws ++ a ++ artifacts_text l ++ b))
  = a ++ b.
Proof.
  intros Hlen Hhdr Hws Ha Hastart HnoU Hl2 Hl Hb Hbstart Hbend Huser Hpriv.
  apply after_first_ci_None in Huser. apply after_first_ci_None in Hpriv.
  assert (Hne : l <> []) by (destruct l; [cbn in Hl2; lia | congruence]).
  assert (Hsec : captured (exec true public_re
                             (header ++ ws ++ a ++ artifacts_text l ++ b))
                 = Some (a ++ artifacts_text l ++ b)).
  { apply captured_public; auto.
    - now apply trimStart_app_fixed.
    - intros H. apply app_eq_nil in H. destruct H; congruence. }
  assert (Htrim : trim (a ++ artifacts_text l ++ b)
                  = a ++ artifacts_text l ++ b).
  { unfold trim. rewrite trimStart_app_fixed by assumption.
    rewrite !app_assoc. apply trimEnd_app; assumption. }
  unfold LlmServiceMulti.parseAgentResponse.
  cbn [AgentResponse.publicResponse]. rewrite Hsec, Htrim.
  assert (Hlead : replace_all false leading_prefixes_re
                    (a ++ artifacts_text l ++ b)
                  = a ++ artifacts_text l ++ b).
  { unfold replace_all. cbn [replace_from].
    destruct a as [|c a']; [congruence|]. cbn [app].
    rewrite search_leading_no_U; [reflexivity|].
    intros ->. apply HnoU. now left. }
  rewrite Hlead. unfold replace_all.
  now apply replace_from_run.
Qed.
End RunsWithin.

(** C8 as stated fails in each revision: the first leaves a run of
    prefixes inside the text alone, the later one leaves prefixes in small
    letters alone. *)
Lemma name_prefixes_counterexample :
  AgentResponse.publicResponse
    (LlmService.parseAgentResponse
       (js "PUBLIC RESPONSE:" ++ [LF] ++ js "Hi User A: User A: there"))
  = js "Hi User A: User A: there"
  /\ AgentResponse.publicResponse
       (LlmServiceMulti.parseAgentResponse
          (js "PUBLIC RESPONSE:" ++ [LF] ++ js "user a: user a: Hi there"))
     = js "user a: user a: Hi there".
Proof. split; vm_compute; reflexivity. Qed.

(* ================================================================== *)
(** * More on the utilities *)
(* ================================================================== *)

(** X1.  [indexToLetters] gives different labels to different indices, as
    long as the first letter stays a 16-bit code unit. *)
Theorem indexToLetters_injective i j :
  (Z.of_nat i < 1702272)%Z -> (Z.of_nat j < 1702272)%Z ->
  indexToLetters i = indexToLetters j -> i = j.
Proof.
  intros Hi Hj. unfold indexToLetters, fromCharCode.
  pose proof (Nat.div_mod_eq i 26) as Di.
  pose proof (Nat.div_mod_eq j 26) as Dj.
  pose proof (Nat.mod_upper_bound i 26 ltac:(lia)) as Mi.
  pose proof (Nat.mod_upper_bound j 26 ltac:(lia)) as Mj.
  destruct (i <? 26) eqn:Li, (j <? 26) eqn:Lj; cbn [app];
    intros H; try discriminate.
  - apply Nat.ltb_lt in Li, Lj.
    apply (f_equal (fun l => nth 0 l 0%N)) in H. cbn [nth] in H.
    rewrite !N.mod_small in H by lia. lia.
  - apply Nat.ltb_ge in Li, Lj.
    assert (1 <= i / 26) by (apply Nat.div_le_lower_bound; lia).
    assert (1 <= j / 26) by (apply Nat.div_le_lower_bound; lia).
    pose proof (f_equal (fun l => nth 0 l 0%N) H) as E1.
    pose proof (f_equal (fun l => nth 1 l 0%N) H) as E2.
    cbn [nth] in E1, E2.
    rewrite !N.mod_small in E1, E2 by lia. lia.
Qed.

Lemma indexToLetters_injective_witness :
  indexToLetters 26 <> indexToLetters 52.
Proof.
  intros H. apply indexToLetters_injective in H; [discriminate | lia | lia].
Defined.

Lemma truncateString_short str maxLength :
  (Z.of_nat (length str) <= maxLength)%Z -> truncateString str maxLength = str.
Proof.
  intros H. unfold truncateString. now rewrite (proj2 (Z.leb_le _ _) H).
Qed.

Lemma truncateString_long str maxLength :
  (maxLength < Z.of_nat (length str))%Z ->
  truncateString str maxLength
  = firstn (Z.to_nat (maxLength - 3)) str ++ js "...".
Proof.
  intros H. unfold truncateString, substring0.
  now rewrite (proj2 (Z.leb_gt _ _) H).
Qed.

Lemma truncateString_long_length str maxLength :
  (maxLength < Z.of_nat (length str))%Z ->
  Z.of_nat (length (truncateString str maxLength)) = Z.max maxLength 3.
Proof.
  intros H. rewrite truncateString_long by exact H.
  rewrite length_app, length_firstn.
  replace (length (js "...")) with 3 by reflexivity. lia.
Qed.

(** X2.  [truncateString] returns a string within the limit unchanged; a
    longer one is cut to [maxLength] code units, the last three being
    dots, when [maxLength] is at least 3; below 3 the result is the three
    dots alone, which is longer than [maxLength]. *)
Theorem truncateString_length str maxLength :
  ((Z.of_nat (length str) <= maxLength)%Z -> truncateString str maxLength = str)
  /\ ((3 <= maxLength < Z.of_nat (length str))%Z ->
      truncateString str maxLength
      = firstn (Z.to_nat (maxLength - 3)) str ++ js "..."
      /\ Z.of_nat (length (truncateString str maxLength)) = maxLength)
  /\ ((maxLength < 3)%Z -> (maxLength < Z.of_nat (length str))%Z ->
      truncateString str maxLength = js "...")
  /\ (Z.of_nat (length (truncateString str maxLength)) <= Z.max maxLength 3)%Z.
Proof.
  split; [apply truncateString_short|]. split; [|split].
  - intros H. split; [apply truncateString_long; lia|].
    rewrite truncateString_long_length; lia.
  - intros H H2. rewrite truncateString_long by exact H2.
    replace (Z.to_nat (maxLength - 3)) with 0 by lia. reflexivity.
  - destruct (Z_le_gt_dec (Z.of_nat (length str)) maxLength) as [H | H].
    + rewrite truncateString_short by exact H. lia.
    + rewrite truncateString_long_length; lia.
Qed.

Lemma truncateString_length_witness :
  truncateString (js "round-table") 8 = js "round..."
  /\ Z.of_nat (length (truncateString (js "round-table") 8)) = 8%Z.
Proof.
  destruct (truncateString_length (js "round-table") 8) as (_ & H & _).
  destruct H as [H1 H2]; [cbn; lia|]. split; [exact H1 | exact H2].
Defined.

(** X3.  Truncating twice is truncating once, whatever the limit. *)
Theorem truncateString_idempotent str maxLength :
  truncateString (truncateString str maxLength) maxLength
  = truncateString str maxLength.
Proof.
  destruct (Z_le_gt_dec (Z.of_nat (length str)) maxLength) as [H | H].
  - rewrite (truncateString_short str H). exact (truncateString_short str H).
  - assert (Hlong : (maxLength < Z.of_nat (length str))%Z) by lia.
    pose proof (truncateString_long_length str Hlong) as Hlen.
    destruct (Z_lt_le_dec maxLength 3) as [H3 | H3].
    + rewrite (truncateString_long str Hlong).
      replace (Z.to_nat (maxLength - 3)) with 0 by lia. cbn [firstn app].
      rewrite truncateString_long by (cbn; lia).
      replace (Z.to_nat (maxLength - 3)) with 0 by lia. reflexivity.
    + apply truncateString_short. lia.
Qed.

(* ================================================================== *)
(** * More on the response parser *)
(* ================================================================== *)

Section TwoSections.

Lemma index_of_ci_app hdr back : forall front,
  index_of_ci hdr (front ++ back) = Some (length front) ->
  starts_with true hdr back = true
  /\ forall a b, front = a ++ b ->
       index_of_ci hdr (b ++ back) = Some (length b).
Proof.
  induction front as [|c front IH]; cbn [app length index_of_ci]; intros H.
  - assert (Hs : starts_with true hdr back = true).
    { destruct back; cbn [index_of_ci] in H;
        destruct (starts_with true hdr _); try reflexivity; try discriminate.
      destruct (index_of_ci hdr back); discriminate. }
    split; [exact Hs|]. intros a b Hab. symmetry in Hab.
    apply app_eq_nil in Hab. destruct Hab as [-> ->]. cbn [app length].
    destruct back; cbn [index_of_ci]; now rewrite Hs.
  - destruct (starts_with true hdr (c :: front ++ back)) eqn:Hc;
      [discriminate|].
    destruct (index_of_ci hdr (front ++ back)) as [n|] eqn:Hn;
      [|discriminate].
    cbn [option_map] in H. inversion H; subst n.
    destruct (IH eq_refl) as [Hs Hsplit]. split; [exact Hs|].
    intros [|c' a] b Hab; cbn [app] in Hab.
    + subst b. cbn [app length index_of_ci]. now rewrite Hc, Hn.
    + inversion Hab; subst. exact (Hsplit a b eq_refl).
Qed.

Lemma index_of_ci_after hdr back : forall front,
  index_of_ci hdr (front ++ back) = Some (length front) ->
  after_first_ci hdr (front ++ back) = Some (skipn (length hdr) back).
Proof.
  induction front as [|c front IH]; cbn [app length]; intros H.
  - destruct (index_of_ci_app hdr back [] H) as [Hs _].
    destruct back; cbn [after_first_ci]; now rewrite Hs.
  - cbn [index_of_ci] in H. cbn [after_first_ci].
    destruct (starts_with true hdr (c :: front ++ back)); [discriminate|].
    destruct (index_of_ci hdr (front ++ back)) as [n|] eqn:Hn;
      [|discriminate].
    cbn [option_map] in H. inversion H; subst n. now apply IH.
Qed.

(** The lazy group stops at the first private header. *)
Lemma first_suffix_header input (r0 : jsstring) cap back : forall front,
  index_of_ci PRIVATE_HEADER (front ++ back) = Some (length front) ->
  length back <= length r0 ->
  first_suffix
    (fun y => m true input (RLookahead (RAlt (lit PRIVATE_HEADER) REol))
                {| rest := rest y;
                   cap1 := Some (firstn (length r0 - length (rest y)) r0) |}
                Some)
    cap (front ++ back)
  = Some {| rest := back;
            cap1 := Some (firstn (length r0 - length back) r0) |}.
Proof.
  induction front as [|c front IH]; cbn [app length]; intros H Hlen.
  - destruct (index_of_ci_app PRIVATE_HEADER back [] H) as [Hs _].
    destruct back; cbn [first_suffix m rest]; rewrite m_lit; cbn [rest];
      rewrite Hs; reflexivity.
  - cbn [index_of_ci] in H. cbn [first_suffix m rest]. rewrite m_lit.
    cbn [rest].
    destruct (starts_with true PRIVATE_HEADER (c :: front ++ back));
      [discriminate|].
    destruct (index_of_ci PRIVATE_HEADER (front ++ back)) as [n|] eqn:Hn;
      [|discriminate].
    cbn [option_map] in H. inversion H; subst n. now apply IH.
Qed.

Lemma trimEnd_spaces front gap :
  forallb is_space gap = true -> trimEnd (front ++ gap) = trimEnd front.
Proof.
  intros H. unfold trimEnd. rewrite rev_app_distr.
  rewrite trimStart_spaces; [reflexivity|].
  rewrite forallb_forall in *. intros x Hx. apply H. now apply in_rev.
Qed.

(** The public group of a text with both sections. *)
Lemma captured_two_sections header ws section back :
  length header = length PUBLIC_HEADER ->
  starts_with true PUBLIC_HEADER header = true ->
  forallb is_space ws = true ->
  trimStart section = section ->
  section <> [] ->
  index_of_ci PRIVATE_HEADER (section ++ back) = Some (length section) ->
  captured (exec true public_re (header ++ ws ++ section ++ back))
  = Some section.
Proof.
  intros Hlen Hhdr Hws Hsec Hne Hidx. unfold exec.
  set (text := header ++ ws ++ section ++ back).
  assert (Hstart : trimStart (section ++ back) = section ++ back).
  { destruct section as [|c s]; [congruence|]. cbn [app trimStart].
    now rewrite (trimStart_fixed Hsec). }
  assert (Hm : match_at true text public_re text
               = Some {| rest := back; cap1 := Some section |}).
  { unfold match_at, public_re. cbn [m]. rewrite m_lit. cbn [rest].
    unfold text. rewrite starts_with_app, Hhdr by exact Hlen.
    rewrite <- Hlen, skipn_word.
    unfold star. cbn [m repeatMin]. change (has_group space) with false.
    apply star_space_greedy; [cbn [advance rest]; lia|].
    cbn [advance rest cap1]. rewrite trimStart_spaces, Hstart by exact Hws.
    unfold lazy_star. cbn [m repeatMin].
    change (has_group any_char) with false.
    rewrite lazy_any by (cbn [rest]; lia). cbn [rest cap1].
    transitivity
      (Some {| rest := back;
               cap1 := Some (firstn (length (section ++ back) - length back)
                                    (section ++ back)) |}).
    - apply first_suffix_header; [exact Hidx | rewrite length_app; lia].
    - rewrite length_app, Nat.add_sub, firstn_app, Nat.sub_diag, firstn_all.
      cbn [firstn]. now rewrite app_nil_r. }
  unfold captured.
  destruct text; cbn [search]; rewrite Hm; cbn [group1];
    (destruct section; [congruence | reflexivity]).
Qed.

(** Without the word [User ] in it the text is left as it is by the
    prefix removal of either revision. *)
Lemma no_prefix_removed rev s :
  after_first_ci (js "User ") s = None ->
  (if ignores_case rev
   then replace_first true leading_prefixes_re s
   else replace_all false repeated_prefixes_re
          (replace_all false leading_prefixes_re s)) = s.
Proof.
  intros Hno.
  assert (Hlead : forall ic, search ic s leading_prefixes_re [] s = None).
  { intros ic. destruct s as [|c s]; cbn [search];
      unfold match_at at 1, leading_prefixes_re at 1; cbn [m rest];
      rewrite Nat.eqb_refl; unfold plus; cbn [m repeatMin];
      change (has_group prefix_group) with true;
      rewrite m_prefix_fails
        by (cbn [clear_caps rest]; apply no_start, after_first_ci_head, Hno).
    - reflexivity.
    - apply search_leading_None. cbn [length]. lia. }
  destruct (ignores_case rev).
  - unfold replace_first, exec. now rewrite Hlead.
  - unfold replace_all at 2. cbn [replace_from]. rewrite Hlead.
    unfold replace_all. now apply replace_all_repeated_none.
Qed.
End TwoSections.

(* ================================================================== *)
(** * The prefix expressions on any text *)
(* ================================================================== *)

Section PrefixGeneral.
Variable ic : bool.
Variable input : jsstring.

Lemma name_char_not_colon c :
  name_char ic c = true ->
  (canonicalize ic c =? canonicalize ic 58%N)%N = false.
Proof.
  unfold name_char, canonicalize, toUpper. intros H.
  apply N.eqb_neq.
  destruct ic; cbn [andb] in H.
  - change ((97 <=? 58) && (58 <=? 122))%N with false. cbv iota.
    destruct ((97 <=? c) && (c <=? 122))%N eqn:Hl.
    + apply andb_true_iff in Hl. destruct Hl as [H1 H2].
      apply N.leb_le in H1, H2. lia.
    + apply orb_true_iff in H. destruct H as [H | H].
      * apply andb_true_iff in H. destruct H as [H1 H2].
        apply N.leb_le in H1, H2. lia.
      * congruence.
  - rewrite orb_false_r in H. apply andb_true_iff in H. destruct H as [H1 H2].
    apply N.leb_le in H1, H2. lia.
Qed.

Lemma colon_canonical d :
  (canonicalize ic d =? canonicalize ic 58%N)%N = (d =? 58)%N.
Proof.
  unfold canonicalize, toUpper. destruct ic; [|reflexivity].
  change ((97 <=? 58) && (58 <=? 122))%N with false. cbv iota.
  destruct ((97 <=? d) && (d <=? 122))%N eqn:Hl; [|reflexivity].
  apply andb_true_iff in Hl. destruct Hl as [H1 H2].
  apply N.leb_le in H1, H2.
  rewrite (proj2 (N.eqb_neq _ _)) by lia.
  symmetry. apply N.eqb_neq. lia.
Qed.

Lemma skip_name_length s : length (skip_name ic s) <= length s.
Proof.
  induction s as [|c s IH]; cbn [skip_name length]; [lia|].
  destruct (name_char ic c); cbn [length]; lia.
Qed.

(** [[A-Z]*] before a continuation that fails where a letter comes next:
    the letters are read to the last. *)
Lemma letters_all k : forall fuel x,
  length (rest x) < fuel ->
  (forall y c tl, rest y = c :: tl -> name_char ic c = true -> k y = None) ->
  repeatMore (m ic input capital) false true fuel x k
  = k (advance x (skip_name ic (rest x))).
Proof.
  induction fuel as [|fuel IH]; intros x Hfuel Hk; [lia|].
  cbn [repeatMore clear_caps]. rewrite m_letter.
  destruct (rest x) as [|ch tl] eqn:Hr.
  - cbn [skip_name]. unfold advance. now rewrite <- Hr, state_eta.
  - cbn [skip_name]. destruct (name_char ic ch) eqn:Hc.
    + cbn [advance rest length]. rewrite (proj2 (Nat.ltb_lt _ _)) by lia.
      rewrite IH; [|cbn [advance rest]; cbn [length] in Hfuel; lia | exact Hk].
      change (advance (advance x tl) (skip_name ic (rest (advance x tl))))
        with (advance x (skip_name ic tl)).
      destruct (k (advance x (skip_name ic tl))); [reflexivity|].
      exact (Hk x ch tl Hr Hc).
    + unfold advance. now rewrite <- Hr, state_eta.
Qed.

(** [\s*] before a continuation that fails after all the white space and
    wherever white space comes next. *)
Lemma star_space_fails k : forall fuel x,
  length (rest x) < fuel ->
  k (advance x (trimStart (rest x))) = None ->
  (forall y, space_first (rest y) = true -> cap1 y = cap1 x -> k y = None) ->
  repeatMore (m ic input space) false true fuel x k = None.
Proof.
  induction fuel as [|fuel IH]; intros x Hfuel Hmax Hk; [lia|].
  cbn [repeatMore clear_caps]. rewrite m_space.
  destruct (rest x) as [|ch tl] eqn:Hr.
  - cbn [trimStart] in Hmax. unfold advance in Hmax.
    now rewrite <- Hr, state_eta in Hmax.
  - cbn [trimStart] in Hmax. destruct (is_space ch) eqn:Hc.
    + cbn [advance rest length]. rewrite (proj2 (Nat.ltb_lt _ _)) by lia.
      rewrite IH; [|cbn [advance rest]; cbn [length] in Hfuel; lia | exact Hmax
                   |intros y Hy Hcap; apply Hk; [exact Hy | exact Hcap]].
      apply Hk; [|reflexivity]. rewrite Hr. exact Hc.
    + unfold advance in Hmax. now rewrite <- Hr, state_eta in Hmax.
Qed.

Lemma after_prefix_shorter s r :
  after_prefix ic s = Some r -> length r < length s.
Proof.
  unfold after_prefix.
  destruct (starts_with ic (js "User ") s); [|discriminate].
  destruct s as [|c1 [|c2 [|c3 [|c4 [|c5 s]]]]]; cbn [skipn];
    try discriminate.
  destruct s as [|c tl]; [discriminate|].
  destruct (name_char ic c); [|discriminate].
  pose proof (skip_name_length tl) as Hl.
  destruct (skip_name ic tl) as [|d tl']; [discriminate|].
  destruct (d =? 58)%N; [|discriminate].
  intros H. inversion H; subst r.
  pose proof (trimStart_length tl') as Ht. cbn [length] in *. lia.
Qed.

(** The prefix [P] with its group, on any text and before any
    continuation: what remains for the continuation to see. *)
Lemma m_prefix_steps x k :
  m ic input prefix_group x k
  = if starts_with ic (js "User ") (rest x) then
      match skipn 5 (rest x) with
      | c :: tl =>
          if name_char ic c then
            match skip_name ic tl with
            | d :: tl' =>
                if (d =? 58)%N then
                  repeatMore (m ic input space) false true (S (length tl'))
                    {| rest := tl'; cap1 := cap1 x |}
                    (fun y =>
                       k {| rest := rest y;
                            cap1 := Some (firstn (length (rest x)
                                                  - length (rest y))
                                                 (rest x)) |})
                else None
            | [] => None
            end
          else None
      | [] => None
      end
    else None.
Proof.
  unfold prefix_group. cbn [m]. unfold name_prefix. cbn [m]. rewrite m_lit.
  change (length (js "User ")) with 5.
  destruct (starts_with ic (js "User ") (rest x)); [|reflexivity].
  unfold plus. cbn [m repeatMin].
  change (has_group capital) with false. cbn [clear_caps].
  rewrite m_letter. cbn [advance rest].
  destruct (skipn 5 (rest x)) as [|c tl]; [reflexivity|].
  destruct (name_char ic c); [|reflexivity].
  cbn [advance rest cap1 length].
  rewrite letters_all; [|cbn [advance rest]; lia|].
  - cbn [advance rest cap1].
    destruct (skip_name ic tl) as [|d tl']; [reflexivity|].
    rewrite colon_canonical. destruct (d =? 58)%N; [|reflexivity].
    unfold star. cbn [m repeatMin]. change (has_group space) with false.
    cbn [advance rest cap1 length]. reflexivity.
  - intros y c' tl' Hy Hc'. rewrite Hy.
    now rewrite name_char_not_colon.
Qed.

Lemma m_prefix_none x k :
  after_prefix ic (rest x) = None ->
  m ic input prefix_group x k = None.
Proof.
  rewrite m_prefix_steps. unfold after_prefix.
  destruct (starts_with ic (js "User ") (rest x)); [|reflexivity].
  destruct (skipn 5 (rest x)) as [|c tl]; [reflexivity|].
  destruct (name_char ic c); [|reflexivity].
  destruct (skip_name ic tl) as [|d tl']; [reflexivity|].
  destruct (d =? 58)%N; [discriminate | reflexivity].
Qed.

Lemma m_prefix_some x k r z :
  after_prefix ic (rest x) = Some r ->
  k {| rest := r;
       cap1 := Some (firstn (length (rest x) - length r) (rest x)) |}
  = Some z ->
  m ic input prefix_group x k = Some z.
Proof.
  rewrite m_prefix_steps. unfold after_prefix.
  destruct (starts_with ic (js "User ") (rest x)); [|discriminate].
  destruct (skipn 5 (rest x)) as [|c tl]; [discriminate|].
  destruct (name_char ic c); [|discriminate].
  destruct (skip_name ic tl) as [|d tl']; [discriminate|].
  destruct (d =? 58)%N; [|discriminate].
  intros H Hk. inversion H; subst r; clear H.
  apply star_space_greedy; [cbn [rest]; lia|].
  cbn [advance rest cap1]. exact Hk.
Qed.

Lemma m_prefix_back x k r :
  after_prefix ic (rest x) = Some r ->
  k {| rest := r;
       cap1 := Some (firstn (length (rest x) - length r) (rest x)) |}
  = None ->
  (forall y, space_first (rest y) = true -> k y = None) ->
  m ic input prefix_group x k = None.
Proof.
  rewrite m_prefix_steps. unfold after_prefix.
  destruct (starts_with ic (js "User ") (rest x)); [|discriminate].
  destruct (skipn 5 (rest x)) as [|c tl]; [discriminate|].
  destruct (name_char ic c); [|discriminate].
  destruct (skip_name ic tl) as [|d tl']; [discriminate|].
  destruct (d =? 58)%N; [|discriminate].
  intros H Hmax Hk. inversion H; subst r; clear H.
  apply star_space_fails; [cbn [rest]; lia | exact Hmax|].
  intros y Hy _. apply Hk. exact Hy.
Qed.
End PrefixGeneral.

Section PrefixRuns.
Variable ic : bool.
Variable input : jsstring.

Lemma after_prefix_nil : after_prefix ic [] = None.
Proof. reflexivity. Qed.

Lemma after_prefix_space s :
  space_first s = true -> after_prefix ic s = None.
Proof.
  destruct s as [|c s]; [reflexivity|]. cbn [space_first]. intros Hc.
  unfold after_prefix. change (js "User ") with (85%N :: js "ser ").
  cbn [starts_with].
  destruct (canonicalize ic c =? canonicalize ic 85)%N eqn:Hu; [|reflexivity].
  apply (canonical_U ic) in Hu. congruence.
Qed.

Lemma prefix_run_fuel : forall f g s,
  length s <= f -> length s <= g ->
  prefix_run f ic s = prefix_run g ic s.
Proof.
  induction f as [|f IH]; intros g s Hf Hg.
  - destruct s; [|cbn [length] in Hf; lia].
    destruct g; reflexivity.
  - cbn [prefix_run]. destruct (after_prefix ic s) as [r|] eqn:Hr.
    + pose proof (@after_prefix_shorter ic s r Hr) as Hlt.
      destruct g as [|g]; [lia|]. cbn [prefix_run]. rewrite Hr.
      rewrite (IH g r); [reflexivity | lia | lia].
    + destruct g; cbn [prefix_run]; [reflexivity | now rewrite Hr].
Qed.

Lemma prefix_run_step s r :
  after_prefix ic s = Some r ->
  prefix_run (length s) ic s
  = (S (fst (prefix_run (length r) ic r)), snd (prefix_run (length r) ic r)).
Proof.
  intros Hr. pose proof (@after_prefix_shorter ic s r Hr) as Hlt.
  destruct (length s) as [|n] eqn:Hn; [lia|].
  cbn [prefix_run]. rewrite Hr.
  rewrite (@prefix_run_fuel n (length r) r) by lia.
  now destruct (prefix_run (length r) ic r).
Qed.

Lemma prefix_run_none s :
  after_prefix ic s = None -> prefix_run (length s) ic s = (0, s).
Proof.
  intros Hr. destruct (length s); cbn [prefix_run]; [reflexivity|].
  now rewrite Hr.
Qed.

Lemma prefix_run_length : forall n s,
  length s <= n ->
  length (snd (prefix_run (length s) ic s)) <= length s
  /\ (0 < fst (prefix_run (length s) ic s) ->
      length (snd (prefix_run (length s) ic s)) < length s).
Proof.
  induction n as [|n IH]; intros s Hn.
  - destruct s; [|cbn [length] in Hn; lia]. cbn. lia.
  - destruct (after_prefix ic s) as [r|] eqn:Hr.
    + pose proof (@after_prefix_shorter ic s r Hr) as Hlt.
      rewrite (@prefix_run_step s r Hr). cbn [fst snd].
      destruct (IH r) as [H1 _]; [lia|]. lia.
    + rewrite (@prefix_run_none s Hr). cbn [fst snd]. lia.
Qed.

(** The optional iterations of [(P)] read the run to its end. *)
Lemma prefixes_loop : forall fuel x,
  length (rest x) < fuel ->
  exists cap,
    repeatMore (m ic input prefix_group) true true fuel x Some
    = Some {| rest := snd (prefix_run (length (rest x)) ic (rest x));
              cap1 := cap |}.
Proof.
  induction fuel as [|fuel IH]; intros x Hfuel; [lia|].
  cbn [repeatMore]. change (clear_caps true x)
    with {| rest := rest x; cap1 := None |}.
  destruct (after_prefix ic (rest x)) as [r|] eqn:Hr.
  - pose proof (@after_prefix_shorter ic _ r Hr) as Hlt.
    destruct (IH {| rest := r;
                    cap1 := Some (firstn (length (rest x) - length r)
                                         (rest x)) |})
      as (cap & Hcap); [cbn [rest]; lia|].
    exists cap. rewrite (@prefix_run_step _ r Hr). cbn [snd].
    erewrite m_prefix_some; [reflexivity | exact Hr|].
    cbn [rest]. rewrite (proj2 (Nat.ltb_lt _ _)) by exact Hlt.
    exact Hcap.
  - rewrite m_prefix_none by exact Hr.
    exists (cap1 x). rewrite (@prefix_run_none _ Hr). cbn [snd].
    now rewrite state_eta.
Qed.

(** [(P){n,}] on any text: it matches where the run has [n] prefixes or
    more, and then reads the run to its end. *)
Lemma prefixes_at_least : forall n x,
  (n <= fst (prefix_run (length (rest x)) ic (rest x)) ->
   exists cap,
     m ic input (RQuant n true prefix_group) x Some
     = Some {| rest := snd (prefix_run (length (rest x)) ic (rest x));
               cap1 := cap |})
  /\ (fst (prefix_run (length (rest x)) ic (rest x)) < n ->
      m ic input (RQuant n true prefix_group) x Some = None).
Proof.
  intros n x. cbn [m]. change (has_group prefix_group) with true.
  revert x. induction n as [|n IH]; intros x; cbn [repeatMin].
  - split; [|intros H; lia]. intros _. apply prefixes_loop. lia.
  - change (clear_caps true x) with {| rest := rest x; cap1 := None |}.
    destruct (after_prefix ic (rest x)) as [r|] eqn:Hr.
    + rewrite (@prefix_run_step _ r Hr). cbn [fst snd].
      set (y0 := {| rest := r;
                    cap1 := Some (firstn (length (rest x) - length r)
                                         (rest x)) |}).
      destruct (IH y0) as [Hyes Hno]. unfold y0 in Hyes, Hno.
      cbn [rest] in Hyes, Hno. fold y0 in Hyes, Hno. split.
      * intros Hn. destruct Hyes as (cap & Hcap); [lia|].
        exists cap. erewrite m_prefix_some; [reflexivity | exact Hr|].
        exact Hcap.
      * intros Hn. apply m_prefix_back with (r := r); [exact Hr | |].
        -- apply Hno. lia.
        -- intros y Hy. destruct n as [|n']; [lia|]. cbn [repeatMin].
           apply m_prefix_none. cbn [clear_caps rest].
           now apply after_prefix_space.
    + rewrite (@prefix_run_none _ Hr). cbn [fst snd].
      split; [intros H; lia|].
      intros _. now apply m_prefix_none.
Qed.
End PrefixRuns.

Section ReplaceGeneral.

Lemma count_after_prefix ic s :
  after_prefix ic s = None
  <-> fst (prefix_run (length s) ic s) = 0.
Proof.
  split; intros H.
  - now rewrite prefix_run_none.
  - destruct (after_prefix ic s) as [r|] eqn:Hr; [|reflexivity].
    rewrite (@prefix_run_step ic s r Hr) in H. discriminate.
Qed.

(** [/^(P)+/] at the start of the text. *)
Lemma match_leading ic s :
  match after_prefix ic s with
  | Some _ =>
      exists cap,
        match_at ic s leading_prefixes_re s
        = Some {| rest := strip_leading ic s; cap1 := cap |}
  | None => match_at ic s leading_prefixes_re s = None
  end.
Proof.
  unfold match_at, leading_prefixes_re. cbn [m rest].
  rewrite Nat.eqb_refl. unfold plus.
  destruct (@prefixes_at_least ic s 1 {| rest := s; cap1 := None |})
    as [Hyes Hno]. cbn [rest] in Hyes, Hno.
  destruct (after_prefix ic s) as [r|] eqn:Hr.
  - apply Hyes. rewrite (@prefix_run_step ic s r Hr). cbn [fst]. lia.
  - apply Hno. rewrite prefix_run_none by exact Hr. cbn [fst]. lia.
Qed.

Lemma strip_leading_none ic s :
  after_prefix ic s = None -> strip_leading ic s = s.
Proof. intros H. unfold strip_leading. now rewrite prefix_run_none. Qed.

Lemma strip_leading_shorter ic s r :
  after_prefix ic s = Some r -> length (strip_leading ic s) < length s.
Proof.
  intros H. unfold strip_leading.
  apply (@prefix_run_length ic (length s) s (le_n _)).
  rewrite (@prefix_run_step ic s r H). cbn [fst]. lia.
Qed.

Lemma search_leading_start ic s :
  match s with
  | [] => None
  | c :: tl => search ic s leading_prefixes_re [c] tl
  end = None.
Proof.
  destruct s as [|c tl]; [reflexivity|].
  apply search_leading_None. cbn [length]. lia.
Qed.

Lemma search_unfold ic input r skipped s :
  search ic input r skipped s
  = match match_at ic input r s with
    | Some y => Some (rev skipped, s, y)
    | None =>
        match s with
        | [] => None
        | c :: tl => search ic input r (c :: skipped) tl
        end
    end.
Proof. destruct s; reflexivity. Qed.

(** [replace(/^(P)+/i, '')] on any text. *)
Lemma replace_first_leading_any ic s :
  replace_first ic leading_prefixes_re s = strip_leading ic s.
Proof.
  unfold replace_first, exec. rewrite search_unfold.
  pose proof (match_leading ic s) as Hm.
  destruct (after_prefix ic s) as [r|] eqn:Hr.
  - destruct Hm as (cap & ->). reflexivity.
  - rewrite Hm, search_leading_start. symmetry.
    now apply strip_leading_none.
Qed.

(** [replace(/^(P)+/g, '')] on any text. *)
Lemma replace_all_leading_any ic s :
  replace_all ic leading_prefixes_re s = strip_leading ic s.
Proof.
  unfold replace_all. cbn [replace_from]. rewrite search_unfold.
  pose proof (match_leading ic s) as Hm.
  destruct (after_prefix ic s) as [r|] eqn:Hr.
  - destruct Hm as (cap & ->). cbn [rev rest app].
    pose proof (strip_leading_shorter ic s Hr) as Hlt.
    rewrite (proj2 (Nat.ltb_lt _ _)) by exact Hlt.
    destruct (length s) as [|n] eqn:Hn; [lia|]. cbn [replace_from].
    rewrite search_leading_None by lia. reflexivity.
  - rewrite Hm, search_leading_start. symmetry.
    now apply strip_leading_none.
Qed.

(** [/(P){2,}/] at any position. *)
Lemma match_repeated input s :
  if 2 <=? fst (prefix_run (length s) false s)
  then exists cap,
         match_at false input repeated_prefixes_re s
         = Some {| rest := snd (prefix_run (length s) false s);
                   cap1 := cap |}
  else match_at false input repeated_prefixes_re s = None.
Proof.
  unfold match_at, repeated_prefixes_re.
  destruct (@prefixes_at_least false input 2 {| rest := s; cap1 := None |})
    as [Hyes Hno]. cbn [rest] in Hyes, Hno.
  destruct (2 <=? fst (prefix_run (length s) false s)) eqn:H2.
  - apply Hyes. now apply Nat.leb_le.
  - apply Hno. now apply Nat.leb_gt.
Qed.

(** The attempts of a search do not depend on what was skipped before. *)
Lemma search_skipped ic input r : forall s skipped,
  search ic input r skipped s
  = option_map (fun p => (rev skipped ++ fst (fst p), snd (fst p), snd p))
               (search ic input r [] s).
Proof.
  induction s as [|c s IH]; intros skipped; cbn [search].
  - destruct (match_at ic input r []); cbn [option_map fst snd rev];
      [now rewrite app_nil_r | reflexivity].
  - destruct (match_at ic input r (c :: s)); cbn [option_map fst snd rev].
    + now rewrite app_nil_r.
    + rewrite (IH (c :: skipped)), (IH [c]).
      destruct (search ic input r [] s) as [[[pre a] y]|];
        cbn [option_map fst snd rev app]; [|reflexivity].
      now rewrite <- app_assoc.
Qed.

(** Where the expression does not match at the first character, that
    character stays and the replacement goes on after it. *)
Lemma replace_from_skip ic input r fuel c tl :
  match_at ic input r (c :: tl) = None ->
  replace_from (S fuel) ic input r (c :: tl)
  = c :: replace_from (S fuel) ic input r tl.
Proof.
  intros Hm. cbn [replace_from]. rewrite search_unfold, Hm.
  rewrite (search_skipped ic input r tl [c]).
  destruct (search ic input r [] tl) as [[[pre a] y]|];
    cbn [option_map fst snd rev app]; [|reflexivity].
  destruct (length (rest y) <? length a); [reflexivity|].
  now destruct (rest y).
Qed.

(** [replace(/(P){2,}/g, '')] on any text. *)
Lemma replace_from_repeated input : forall n s f g,
  length s < n -> n <= f -> n <= g ->
  replace_from f false input repeated_prefixes_re s = strip_runs_from g s.
Proof.
  induction n as [|n IH]; intros s f g Hs Hf Hg; [lia|].
  destruct f as [|f]; [lia|]. destruct g as [|g]; [lia|].
  cbn [strip_runs_from].
  pose proof (match_repeated input s) as Hm.
  destruct (prefix_run (length s) false s) as [k r] eqn:Hrun.
  cbn [fst snd] in Hm.
  destruct (2 <=? k) eqn:Hk.
  - destruct Hm as (cap & Hm). cbn [replace_from]. rewrite search_unfold, Hm.
    cbn [rev rest app].
    assert (Hlt : length r < length s).
    { pose proof (@prefix_run_length false (length s) s (le_n _)) as [_ H].
      rewrite Hrun in H. cbn [fst snd] in H. apply H.
      apply Nat.leb_le in Hk. lia. }
    rewrite (proj2 (Nat.ltb_lt _ _)) by exact Hlt.
    apply IH; lia.
  - destruct s as [|c tl].
    + cbn [replace_from search]. now rewrite Hm.
    + rewrite replace_from_skip by exact Hm. f_equal.
      apply IH; cbn [length] in Hs; lia.
Qed.

Lemma replace_all_repeated_any s :
  replace_all false repeated_prefixes_re s = strip_runs s.
Proof.
  unfold replace_all, strip_runs.
  apply (@replace_from_repeated s (S (length s))); lia.
Qed.

Lemma strip_runs_fuel s g :
  length s < g -> strip_runs_from g s = strip_runs s.
Proof.
  intros Hg. unfold strip_runs.
  rewrite <- (@replace_from_repeated s (S (length s)) s (S (length s)) g)
    by lia.
  rewrite <- (@replace_from_repeated s (S (length s)) s (S (length s))
                (S (length s))) by lia.
  reflexivity.
Qed.
End ReplaceGeneral.

Section RunsOfPrefixes.
Variable ic : bool.

Lemma skip_name_app d t : forall name,
  forallb (name_char ic) name = true -> name_char ic d = false ->
  skip_name ic (name ++ d :: t) = d :: t.
Proof.
  induction name as [|c name IH]; intros Hn Hd; cbn [app skip_name].
  - now rewrite Hd.
  - cbn [forallb] in Hn. apply andb_true_iff in Hn. destruct Hn as [-> Hn].
    now apply IH.
Qed.

(** A prefix, as the run of prefixes reads it. *)
Lemma after_prefix_artifact a tail :
  artifact_ok ic a ->
  after_prefix ic (artifact_text a ++ tail) = Some (trimStart tail).
Proof.
  intros (Hlen & Hword & Hne & Hname & Hspace).
  unfold after_prefix, artifact_text. rewrite <- !app_assoc.
  rewrite starts_with_app by exact Hlen. rewrite Hword.
  assert (Hskip : forall X, skipn 5 (a_word a ++ X) = X)
    by (intros X; rewrite <- Hlen; apply skipn_word).
  rewrite Hskip.
  destruct (a_name a) as [|c name]; [congruence|].
  cbn [forallb] in Hname. apply andb_true_iff in Hname.
  destruct Hname as [Hc Hname]. cbn [app]. rewrite Hc.
  rewrite skip_name_app; [|exact Hname | now destruct ic].
  cbn [N.eqb Pos.eqb]. f_equal. now apply trimStart_spaces.
Qed.

Lemma prefix_run_artifacts body : forall l,
  Forall (artifact_ok ic) l ->
  trimStart body = body ->
  after_prefix ic body = None ->
  prefix_run (length (artifacts_text l ++ body)) ic (artifacts_text l ++ body)
  = (length l, body).
Proof.
  induction l as [|a l IH]; intros Hl Hbody Hnone.
  - now apply prefix_run_none.
  - inversion Hl as [|a' l' Ha Hl']; subst.
    unfold artifacts_text. cbn [map concat]. rewrite <- app_assoc.
    fold (artifacts_text l).
    assert (Hr : after_prefix ic (artifact_text a ++ artifacts_text l ++ body)
                 = Some (artifacts_text l ++ body)).
    { rewrite after_prefix_artifact by exact Ha. f_equal.
      now apply (@artifacts_trimStart ic). }
    rewrite (@prefix_run_step ic _ _ Hr), IH by assumption. reflexivity.
Qed.
End RunsOfPrefixes.

Lemma strip_leading_artifacts ic l body :
  Forall (artifact_ok ic) l ->
  trimStart body = body ->
  after_prefix ic body = None ->
  strip_leading ic (artifacts_text l ++ body) = body.
Proof.
  intros Hl Hbody Hnone. unfold strip_leading.
  now rewrite prefix_run_artifacts.
Qed.

Lemma after_prefix_needs_U c s :
  c <> 85%N -> after_prefix false (c :: s) = None.
Proof.
  intros Hc. unfold after_prefix. change (js "User ") with (85%N :: js "ser ").
  cbn [starts_with canonicalize]. now rewrite (proj2 (N.eqb_neq _ _) Hc).
Qed.

Lemma strip_runs_cons c s :
  after_prefix false (c :: s) = None ->
  strip_runs (c :: s) = c :: strip_runs s.
Proof.
  intros H. unfold strip_runs. cbn [strip_runs_from].
  rewrite (@prefix_run_none false (c :: s) H). cbn [Nat.leb].
  reflexivity.
Qed.

Lemma strip_runs_artifacts : forall a l b,
  ~ In 85%N a ->
  2 <= length l -> Forall (artifact_ok false) l ->
  trimStart b = b -> after_prefix false b = None ->
  strip_runs (a ++ artifacts_text l ++ b) = a ++ strip_runs b.
Proof.
  induction a as [|c a IH]; intros l b Ha Hl2 Hl Hb Hnone; cbn [app].
  - unfold strip_runs at 1. cbn [strip_runs_from].
    rewrite prefix_run_artifacts by assumption.
    rewrite (proj2 (Nat.leb_le _ _) Hl2).
    apply strip_runs_fuel.
    destruct l as [|a1 l]; [cbn [length] in Hl2; lia|].
    inversion Hl as [|a1' l' Ha1 Hl']; subst.
    pose proof (artifact_length Ha1) as Hpos.
    unfold artifacts_text. cbn [map concat]. rewrite !length_app. lia.
  - rewrite strip_runs_cons.
    + f_equal. apply IH; try assumption. intros H. apply Ha. now right.
    + apply after_prefix_needs_U. intros ->. apply Ha. now left.
Qed.

(** Where no run of two prefixes starts, nothing is removed. *)
Lemma strip_runs_single : forall s,
  (forall pre post, s = pre ++ post ->
     fst (prefix_run (length post) false post) < 2) ->
  strip_runs s = s.
Proof.
  induction s as [|c s IH]; intros H; [reflexivity|].
  unfold strip_runs. cbn [strip_runs_from].
  pose proof (H [] (c :: s) eq_refl) as H0.
  destruct (prefix_run (length (c :: s)) false (c :: s)) as [k r].
  cbn [fst] in H0. rewrite (proj2 (Nat.leb_gt _ _) H0).
  f_equal. apply IH. intros pre post Hs. apply (H (c :: pre) post).
  now rewrite Hs.
Qed.

(** What the parser makes of the public section it extracted. *)
Lemma parser_strips rev responseText section :
  captured (exec true public_re responseText) = Some section ->
  AgentResponse.publicResponse (parser rev responseText)
  = strip rev (trim section).
Proof.
  intros H. destruct rev; cbn [parser strip].
  - unfold LlmService.parseAgentResponse.
    cbn [AgentResponse.publicResponse]. rewrite H.
    apply replace_first_leading_any.
  - unfold LlmServiceMulti.parseAgentResponse.
    cbn [AgentResponse.publicResponse]. rewrite H.
    now rewrite replace_all_leading_any, replace_all_repeated_any.
Qed.

(** C8, as amended.  When the parser extracts a public section,
    [publicResponse] is the trimmed section without the run of prefixes
    [User <letters>:] at its start, each prefix taken with the white space
    after it: the first revision reads [User] and the letters in any case
    and removes nothing else; the later revision reads them as written,
    in capitals, and then also removes every run of two or more such
    prefixes inside the text, from left to right, while a prefix that
    stands alone inside the text stays.  This holds for every response
    text, in particular for one with both sections.  The removed runs are
    described by lists of prefixes: word, letters, colon, white space. *)
Theorem name_prefixes_stripped :
  (forall rev responseText section,
     captured (exec true public_re responseText) = Some section ->
     AgentResponse.publicResponse (parser rev responseText)
     = strip rev (trim section))
  /\ (forall rev header ws section back,
        length header = length PUBLIC_HEADER ->
        starts_with true PUBLIC_HEADER header = true ->
        forallb is_space ws = true ->
        trimStart section = section -> section <> [] ->
        index_of_ci PRIVATE_HEADER (section ++ back) = Some (length section) ->
        AgentResponse.publicResponse
          (parser rev (header ++ ws ++ section ++ back))
        = strip rev (trim section))
  /\ (forall ic l body,
        Forall (artifact_ok ic) l ->
        trimStart body = body -> after_prefix ic body = None ->
        strip_leading ic (artifacts_text l ++ body) = body)
  /\ (forall a l b,
        ~ In 85%N a ->
        2 <= length l -> Forall (artifact_ok false) l ->
        trimStart b = b -> after_prefix false b = None ->
        strip_runs (a ++ artifacts_text l ++ b) = a ++ strip_runs b)
  /\ (forall s,
        (forall pre post, s = pre ++ post ->
           fst (prefix_run (length post) false post) < 2) ->
        strip_runs s = s).
Proof.
  split; [exact parser_strips|]. split; [|split; [|split]].
  - intros rev header ws section back Hlen Hhdr Hws Hsec Hne Hidx.
    apply parser_strips. now apply captured_two_sections.
  - exact strip_leading_artifacts.
  - exact strip_runs_artifacts.
  - exact strip_runs_single.
Qed.

(** The example of the specification in both revisions, and a text with
    both sections, a prefix at the start and a run of prefixes inside. *)
Lemma name_prefixes_stripped_witness :
  AgentResponse.publicResponse
    (LlmService.parseAgentResponse
       (js "PUBLIC RESPONSE:" ++ [LF] ++ js "User A: User A: Hi there"))
  = js "Hi there"
  /\ AgentResponse.publicResponse
       (LlmServiceMulti.parseAgentResponse
          (js "PUBLIC RESPONSE:" ++ [LF] ++ js "User A: User A: Hi there"))
     = js "Hi there"
  /\ AgentResponse.publicResponse
       (LlmServiceMulti.parseAgentResponse
          (js "PUBLIC RESPONSE:" ++ [LF]
           ++ js "User A: Hi User B: User C: all, and User D: too"
           ++ [LF; LF] ++ js "PRIVATE THOUGHTS:" ++ [LF] ++ js "User E: hm"))
     = js "Hi all, and User D: too"
  /\ AgentResponse.publicResponse
       (LlmService.parseAgentResponse
          (js "PUBLIC RESPONSE:" ++ [LF]
           ++ js "User A: Hi User B: User C: all, and User D: too"
           ++ [LF; LF] ++ js "PRIVATE THOUGHTS:" ++ [LF] ++ js "User E: hm"))
     = js "Hi User B: User C: all, and User D: too".
Proof.
  destruct name_prefixes_stripped as (Hany & Htwo & _).
  split; [|split; [|split]].
  - apply (Hany OpenAIOnly _ (js "User A: User A: Hi there")).
    vm_compute. reflexivity.
  - apply (Hany OpenAIGroq _ (js "User A: User A: Hi there")).
    vm_compute. reflexivity.
  - apply (Htwo OpenAIGroq PUBLIC_HEADER [LF]
             (js "User A: Hi User B: User C: all, and User D: too"
              ++ [LF; LF])
             (js "PRIVATE THOUGHTS:" ++ [LF] ++ js "User E: hm"));
      try reflexivity. discriminate.
  - apply (Htwo OpenAIOnly PUBLIC_HEADER [LF]
             (js "User A: Hi User B: User C: all, and User D: too"
              ++ [LF; LF])
             (js "PRIVATE THOUGHTS:" ++ [LF] ++ js "User E: hm"));
      try reflexivity. discriminate.
Defined.

(** X4.  The format asked of the model is read back: for a text made of
    the public header, white space, a public part, white space, the
    private header and a private part, where the public part is not empty,
    is trimmed and holds no [User ], and the private header of the text is
    the first one, the parser returns the public part and the trimmed
    private part. *)
Theorem parse_two_sections rev header ws pub gap pheader priv :
  length header = length PUBLIC_HEADER ->
  starts_with true PUBLIC_HEADER header = true ->
  forallb is_space ws = true ->
  pub <> [] -> trimStart pub = pub -> trimEnd pub = pub ->
  forallb is_space gap = true ->
  length pheader = length PRIVATE_HEADER ->
  index_of_ci PRIVATE_HEADER (header ++ ws ++ pub ++ gap ++ pheader ++ priv)
  = Some (length (header ++ ws ++ pub ++ gap)) ->
  ~ occurs_ci (js "User ") pub ->
  parser rev (header ++ ws ++ pub ++ gap ++ pheader ++ priv)
  = {| AgentResponse.publicResponse := pub;
       AgentResponse.privateThoughts := trim priv |}.
Proof.
  intros Hlen Hhdr Hws Hne Hstart Hend Hgap Hplen Hidx Huser.
  apply after_first_ci_None in Huser.
  set (text := header ++ ws ++ pub ++ gap ++ pheader ++ priv) in *.
  assert (Htext : text = (header ++ ws ++ pub ++ gap) ++ pheader ++ priv)
    by (unfold text; now rewrite <- !app_assoc).
  assert (Hpriv : match captured (exec true private_re text) with
                  | Some g => trim g
                  | None => []
                  end = trim priv).
  { rewrite captured_private, Htext.
    rewrite (index_of_ci_after PRIVATE_HEADER (pheader ++ priv)
               (header ++ ws ++ pub ++ gap)) by (rewrite <- Htext; exact Hidx).
    now rewrite <- Hplen, skipn_word. }
  assert (Hpub : captured (exec true public_re text) = Some (pub ++ gap)).
  { unfold text. rewrite (app_assoc pub gap).
    apply captured_two_sections; auto.
    - now apply trimStart_app_fixed.
    - intros H. apply app_eq_nil in H. destruct H; congruence.
    - rewrite Htext in Hidx.
      destruct (index_of_ci_app PRIVATE_HEADER (pheader ++ priv) _ Hidx)
        as [_ Hsplit].
      apply (Hsplit (header ++ ws) (pub ++ gap)). now rewrite <- !app_assoc. }
  assert (Htrim : trim (pub ++ gap) = pub).
  { unfold trim. rewrite trimStart_app_fixed by assumption.
    now rewrite trimEnd_spaces. }
  pose proof (@no_prefix_removed rev pub Huser) as Hstrip.
  destruct rev; cbn [parser ignores_case] in *.
  - unfold LlmService.parseAgentResponse. now rewrite Hpub, Htrim, Hstrip, Hpriv.
  - unfold LlmServiceMulti.parseAgentResponse.
    now rewrite Hpub, Htrim, Hstrip, Hpriv.
Qed.

(** The example of the specification. *)
Lemma parse_two_sections_witness :
  LlmService.parseAgentResponse
    (js "PUBLIC RESPONSE:" ++ [LF] ++ js "Hello" ++ [LF; LF]
     ++ js "PRIVATE THOUGHTS:" ++ [LF] ++ js "I wonder")
  = {| AgentResponse.publicResponse := js "Hello";
       AgentResponse.privateThoughts := js "I wonder" |}.
Proof.
  apply (@parse_two_sections OpenAIOnly PUBLIC_HEADER [LF] (js "Hello")
           [LF; LF] PRIVATE_HEADER ([LF] ++ js "I wonder"));
    try reflexivity; try discriminate.
  apply after_first_ci_None. vm_compute. reflexivity.
Defined.

(** X5.  When nothing but white space stands between the public header
    and the private header, or the end of the text, the parser finds no
    public part and gives out the whole raw text as the public response,
    the private section included. *)
Theorem parse_empty_public_section rev header ws tail :
  length header = length PUBLIC_HEADER ->
  starts_with true PUBLIC_HEADER header = true ->
  forallb is_space ws = true ->
  tail = [] \/ starts_with true PRIVATE_HEADER tail = true ->
  AgentResponse.publicResponse (parser rev (header ++ ws ++ tail))
  = header ++ ws ++ tail.
Proof.
  intros Hlen Hhdr Hws Htail.
  set (text := header ++ ws ++ tail).
  assert (Hspace : trimStart (ws ++ tail) = tail).
  { rewrite trimStart_spaces by exact Hws.
    destruct Htail as [-> | Hs]; [reflexivity|].
    destruct tail as [|c tail]; [reflexivity|]. cbn [trimStart].
    change PRIVATE_HEADER with (80%N :: js "RIVATE THOUGHTS:") in Hs.
    cbn [starts_with] in Hs. apply andb_true_iff in Hs. destruct Hs as [Hc _].
    replace (is_space c) with false; [reflexivity|].
    cbn [canonicalize] in Hc. unfold toUpper in Hc.
    change ((97 <=? 80) && (80 <=? 122))%N with false in Hc. cbv iota in Hc.
    destruct ((97 <=? c) && (c <=? 122))%N eqn:Hl; apply N.eqb_eq in Hc.
    - assert (c = 112%N) by lia. now subst c.
    - now subst c. }
  assert (Hm : match_at true text public_re text
               = Some {| rest := tail; cap1 := Some [] |}).
  { unfold match_at, public_re. cbn [m]. rewrite m_lit. cbn [rest].
    unfold text. rewrite starts_with_app, Hhdr by exact Hlen.
    rewrite <- Hlen, skipn_word.
    unfold star. cbn [m repeatMin]. change (has_group space) with false.
    apply star_space_greedy; [cbn [advance rest]; lia|].
    cbn [advance rest cap1]. rewrite Hspace.
    unfold lazy_star. cbn [m repeatMin].
    change (has_group any_char) with false.
    rewrite lazy_any by (cbn [rest]; lia). cbn [rest cap1].
    destruct Htail as [-> | Hs].
    - apply (@first_suffix_lookahead (header ++ ws ++ []) [] None []).
      reflexivity.
    - transitivity
        (Some {| rest := tail;
                 cap1 := Some (firstn (length tail - length tail) tail) |}).
      + apply (@first_suffix_header (header ++ ws ++ tail) tail None tail []);
          [|lia].
        cbn [app length]. destruct tail; cbn [index_of_ci]; now rewrite Hs.
      + now rewrite Nat.sub_diag. }
  assert (Hcap : captured (exec true public_re text) = None).
  { unfold captured, exec. destruct text; cbn [search]; rewrite Hm; reflexivity. }
  destruct rev; cbn [parser].
  - unfold LlmService.parseAgentResponse. fold text. now rewrite Hcap.
  - unfold LlmServiceMulti.parseAgentResponse. fold text. now rewrite Hcap.
Qed.

Lemma parse_empty_public_section_witness :
  AgentResponse.publicResponse
    (LlmServiceMulti.parseAgentResponse
       (js "PUBLIC RESPONSE:" ++ [LF] ++ js "PRIVATE THOUGHTS: a secret"))
  = js "PUBLIC RESPONSE:" ++ [LF] ++ js "PRIVATE THOUGHTS: a secret".
Proof.
  apply (@parse_empty_public_section OpenAIGroq PUBLIC_HEADER [LF]
           (js "PRIVATE THOUGHTS: a secret")); try reflexivity.
  right. reflexivity.
Defined.

(* ================================================================== *)
(** * More on the conversation store *)
(* ================================================================== *)

Section Ordering.

Lemma insert_by_timestamp_perm x : forall l,
  Permutation (x :: l) (DatabaseService.insert_by_timestamp x l).
Proof.
  induction l as [|y l IH]; cbn [DatabaseService.insert_by_timestamp].
  - apply Permutation_refl.
  - destruct (_ <? _)%Z; [apply Permutation_refl|].
    eapply Permutation_trans; [apply perm_swap|]. now apply perm_skip.
Qed.


(** A row no older than those before it goes last. *)
Lemma insert_by_timestamp_last x : forall l,
  Forall (fun y => by_timestamp y x) l ->
  DatabaseService.insert_by_timestamp x l = l ++ [x].
Proof.
  induction l as [|y l IH]; intros Hl;
    cbn [DatabaseService.insert_by_timestamp app]; [reflexivity|].
  inversion Hl as [|y' l' Hy Hl']; subst. unfold by_timestamp in Hy.
  rewrite (proj2 (Z.ltb_ge _ _) Hy). now rewrite IH.
Qed.

Lemma fold_insert_perm l : forall acc,
  Permutation (acc ++ l)
    (fold_left (fun acc x => DatabaseService.insert_by_timestamp x acc) l acc).
Proof.
  induction l as [|x l IH]; intros acc; cbn [fold_left].
  - rewrite app_nil_r. apply Permutation_refl.
  - eapply Permutation_trans; [|apply IH].
    eapply Permutation_trans; [apply Permutation_sym, Permutation_middle|].
    apply (Permutation_app_tail l (insert_by_timestamp_perm x acc)).
Qed.



(** Appending a row no older than the rest appends it to the sorted
    rows. *)
Lemma order_by_timestamp_snoc l x :
  Forall (fun y => by_timestamp y x) l ->
  DatabaseService.order_by_timestamp (l ++ [x])
  = DatabaseService.order_by_timestamp l ++ [x].
Proof.
  intros H. unfold DatabaseService.order_by_timestamp.
  rewrite fold_left_app. cbn [fold_left].
  apply insert_by_timestamp_last.
  eapply Permutation_Forall; [apply (fold_insert_perm l [])|exact H].
Qed.
End Ordering.





(* ================================================================== *)
(** * The store follows the aggregate *)
(* ================================================================== *)

Section Resume.
Variable E : Env.
Variable rev : Revision.
Hypothesis Hmono : monotonic E.

Lemma after_check_clock w : (clock w <= clock (after_check E w))%Z.
Proof.
  unfold after_check. cbv zeta.
  pose proof (Hmono (reads w)) as Hd1.
  pose proof (Hmono (S (reads w))) as Hd2.
  destruct (60000 <=? _)%Z;
    [unfold reset_window, set_llm, tick; cbn [clock]; lia|].
  destruct (limit_reached (llm w));
    unfold reset_window, set_llm, tick, slept; cbn [clock reads]; lia.
Qed.

Lemma adapter_clock agentName systemPrompt messages privateThoughts w r w1 :
  llm_generateAgentResponse E rev agentName systemPrompt messages
    privateThoughts w = (Ok r, w1) ->
  (clock w <= clock w1)%Z.
Proof.
  rewrite adapter_cases. cbv zeta. pose proof (after_check_clock w) as Hc.
  destruct (provider_supported rev (llm w));
    [destruct (answer E w _)|]; intros H; inversion H; subst;
    unfold counted, dispatched, set_llm; cbn [clock]; exact Hc.
Qed.

Lemma message_row_inv x :
  DatabaseService.dbMessageToMessage (message_row x) = x.
Proof. now destruct x. Qed.

Lemma find_map {A : Type} (p : A -> bool) (f : A -> A) l :
  (forall x, p (f x) = p x) -> find p (map f l) = option_map f (find p l).
Proof.
  intros Hp. induction l as [|a l IH]; cbn [map find]; [reflexivity|].
  rewrite Hp. now destruct (p a).
Qed.

Lemma array_update_unique (f : Agent.t -> Agent.t) : forall i l a,
  nth_error l i = Some a -> NoDup (map Agent.id l) ->
  array_update f i l
  = map (fun b => if eqb (Agent.id a) (Agent.id b) then f b else b) l.
Proof.
  induction i as [|i IH]; intros [|b l] a Hnth Hnd;
    cbn [nth_error] in Hnth; try discriminate;
    cbn [array_update map]; cbn [map] in Hnd;
    inversion Hnd as [|x xs Hnotin Hnd']; subst.
  - inversion Hnth; subst b. rewrite jseqb_refl. f_equal.
    rewrite <- (map_id l) at 1. apply map_ext_in. intros b Hb.
    rewrite jseqb_neq; [reflexivity|]. intros Heq. apply Hnotin.
    rewrite Heq. now apply in_map.
  - rewrite jseqb_neq.
    + f_equal. now apply IH.
    + intros Heq. apply Hnotin. rewrite <- Heq.
      apply in_map. eapply nth_error_In; eassumption.
Qed.

Lemma array_update_ids (x : Message.t) : forall i l,
  map Agent.id (array_update (push_thought x) i l) = map Agent.id l.
Proof.
  induction i as [|i IH]; intros [|a l]; cbn [array_update map];
    try reflexivity.
  now rewrite IH.
Qed.

(** The public rows after a turn. *)
Lemma public_after_turn cid msgs pub priv :
  Message.conversationId pub = cid ->
  Message.isPrivate pub = false -> Message.isPrivate priv = true ->
  Forall (fun x => (DbMessage.timestamp x <= Message.timestamp pub)%Z) msgs ->
  DatabaseService.order_by_timestamp
    (filter (fun x => eqb (DbMessage.conversation_id x) cid
                      && negb (DbMessage.is_private x))
            (msgs ++ [message_row pub; message_row priv]))
  = DatabaseService.order_by_timestamp
      (filter (fun x => eqb (DbMessage.conversation_id x) cid
                        && negb (DbMessage.is_private x)) msgs)
    ++ [message_row pub].
Proof.
  intros Hcid Hpub Hpriv Hts. rewrite filter_app. cbn [filter].
  cbn [message_row DbMessage.conversation_id DbMessage.is_private].
  rewrite Hcid, Hpub, Hpriv, jseqb_refl, andb_false_r. cbn [andb negb].
  apply order_by_timestamp_snoc. apply Forall_forall. intros y Hy.
  apply filter_In in Hy. destruct Hy as [Hy _].
  rewrite Forall_forall in Hts. exact (Hts y Hy).
Qed.

(** The private rows of an agent after a turn. *)
Lemma private_after_turn aid msgs pub priv :
  Message.isPrivate pub = false -> Message.isPrivate priv = true ->
  Forall (fun x => (DbMessage.timestamp x <= Message.timestamp priv)%Z) msgs ->
  DatabaseService.order_by_timestamp
    (filter (fun x => DatabaseService.agent_id_is aid x
                      && DbMessage.is_private x)
            (msgs ++ [message_row pub; message_row priv]))
  = DatabaseService.order_by_timestamp
      (filter (fun x => DatabaseService.agent_id_is aid x
                        && DbMessage.is_private x) msgs)
    ++ (if DatabaseService.agent_id_is aid (message_row priv)
        then [message_row priv] else []).
Proof.
  intros Hpub Hpriv Hts. rewrite filter_app. cbn [filter].
  replace (DbMessage.is_private (message_row pub)) with false
    by (symmetry; exact Hpub).
  replace (DbMessage.is_private (message_row priv)) with true
    by (symmetry; exact Hpriv).
  rewrite andb_false_r, andb_true_r.
  destruct (DatabaseService.agent_id_is aid (message_row priv)).
  - apply order_by_timestamp_snoc. apply Forall_forall. intros y Hy.
    apply filter_In in Hy. destruct Hy as [Hy _].
    rewrite Forall_forall in Hts. exact (Hts y Hy).
  - now rewrite !app_nil_r.
Qed.

Lemma turn_keeps_sync c i w c' w' :
  in_sync c w ->
  generateAgentResponse E rev c i w = (Ok c', w') ->
  in_sync c' w'.
Proof.
  intros (Hload & Hts & Hnd) H.
  apply generateAgentResponse_Ok in H.
  destruct H as (agent & response & w1 & Hget & Hcall & -> & ->).
  pose proof (adapter_clock _ _ _ _ _ Hcall) as Hclk.
  pose proof (Hmono (reads w1)) as Hd.
  apply array_get_Some in Hget. destruct Hget as [Hi Hnth].
  set (pub := turn_public E c agent response w w1).
  set (priv := turn_private E c agent response w w1).
  assert (Hnow : Message.timestamp pub = (clock w1 + drift_at E (reads w1))%Z)
    by reflexivity.
  assert (Hnow' : Message.timestamp priv = (clock w1 + drift_at E (reads w1))%Z)
    by reflexivity.
  assert (Hold : Forall (fun x => (DbMessage.timestamp x
                                   <= clock w1 + drift_at E (reads w1))%Z)
                   (DatabaseService.messages (store w))).
  { eapply Forall_impl; [|exact Hts]. cbv beta. intros x Hx. lia. }
  unfold DatabaseService.loadConversation in Hload.
  destruct (DatabaseService.getConversation (Conversation.id c) (store w))
    as [row|] eqn:Hrow; [|discriminate].
  injection Hload as Hc.
  pose proof (f_equal Conversation.id Hc) as Hid.
  pose proof (f_equal Conversation.topic Hc) as Htopic.
  pose proof (f_equal Conversation.messages Hc) as Hmsgs.
  pose proof (f_equal Conversation.agents Hc) as Hags.
  pose proof (f_equal Conversation.createdAt Hc) as Hcreated.
  cbn [Conversation.id Conversation.topic Conversation.messages
       Conversation.agents Conversation.createdAt] in Hid, Htopic, Hmsgs,
    Hags, Hcreated.
  clear Hc.
  split; [|split].
  - unfold DatabaseService.loadConversation.
    cbn [apply_turn Conversation.id].
    unfold DatabaseService.getConversation in *.
    unfold after_turn at 1. cbn [store].
    unfold DatabaseService.updateConversation at 1.
    cbn [DatabaseService.conversations DbConversation.id
         DbConversation.updated_at].
    rewrite find_map; cycle 1.
    { intros x. cbv beta.
      destruct (eqb (DbConversation.id x) (Conversation.id c)) eqn:Hx;
        [cbn [DbConversation.id]|]; exact Hx. }
    rewrite Hrow. cbn [option_map]. rewrite Hid, jseqb_refl.
    cbn [DbConversation.id DbConversation.topic DbConversation.created_at
         DbConversation.updated_at].
    unfold apply_turn. f_equal. f_equal; try assumption.
    + unfold DatabaseService.getPublicMessagesForConversation, after_turn.
      cbn [store DatabaseService.updateConversation DatabaseService.messages].
      rewrite public_after_turn; try reflexivity;
        [|now rewrite Hnow].
      rewrite map_app. cbn [map]. rewrite message_row_inv. f_equal.
      exact Hmsgs.
    + rewrite (@array_update_unique _ _ _ _ Hnth Hnd).
      rewrite <- Hags. rewrite map_map.
      unfold DatabaseService.getAgentsForConversation, after_turn.
      cbn [store DatabaseService.updateConversation DatabaseService.agents].
      apply map_ext. intros a.
      cbn [Agent.id].
      unfold DatabaseService.getPrivateMessagesForAgent.
      cbn [DatabaseService.messages].
      unfold DatabaseService.updateConversation.
      cbn [DatabaseService.messages].
      rewrite (@private_after_turn (DbAgent.id a) _ pub priv);
        try reflexivity; [|now rewrite Hnow'].
      change (DatabaseService.agent_id_is (DbAgent.id a) (message_row priv))
        with (eqb (Agent.id agent) (DbAgent.id a)).
      destruct (eqb (Agent.id agent) (DbAgent.id a)).
      * unfold push_thought. cbn [Agent.id Agent.name Agent.systemPrompt
                                    Agent.privateThoughts].
        rewrite map_app. cbn [map]. now rewrite message_row_inv.
      * now rewrite app_nil_r.
  - unfold after_turn. cbn [store clock DatabaseService.updateConversation
                            DatabaseService.messages].
    apply Forall_app. split; [exact Hold|].
    repeat constructor; cbn [message_row DbMessage.timestamp];
      rewrite ?Hnow, ?Hnow'; lia.
  - unfold apply_turn. cbn [Conversation.agents].
    now rewrite array_update_ids.
Qed.

Lemma run_agents_sync n : forall k c w c' w',
  in_sync c w -> run_agents E rev n k c w = (Ok c', w') -> in_sync c' w'.
Proof.
  induction n as [|n IH]; intros k c w c' w' Hs H; cbn [run_agents] in H.
  - inversion H; subst. exact Hs.
  - destruct (nth_error (Conversation.agents c) k); [|discriminate].
    inv_bind H. eapply IH; [|exact H]. eapply turn_keeps_sync; eassumption.
Qed.

Lemma run_turns_sync numAgents : forall numTurns c w c' w',
  in_sync c w -> run_turns E rev numTurns numAgents c w = (Ok c', w') ->
  in_sync c' w'.
Proof.
  induction numTurns as [|n IH]; intros c w c' w' Hs H; cbn [run_turns] in H.
  - inversion H; subst. exact Hs.
  - inv_bind H. eapply IH; [|exact H]. eapply run_agents_sync; eassumption.
Qed.
End Resume.

(* ------------------------------------------------------------------ *)
(** ** The rows of a run, as the store holds them *)
(* ------------------------------------------------------------------ *)

Section Stored.
Variable E : Env.
Variable rev : Revision.

Lemma map_fixed {A : Type} (f : A -> A) l :
  map f l = l -> forall x, In x l -> f x = x.
Proof.
  induction l as [|a l IH]; cbn [map]; intros H x Hx; [destruct Hx|].
  injection H as Ha Hl. destruct Hx as [<-|Hx]; [exact Ha|now apply IH].
Qed.

Lemma written_update row d :
  written d = d ->
  written (DatabaseService.updateConversation row d)
  = DatabaseService.updateConversation row d.
Proof.
  intros Hold. unfold written, DatabaseService.updateConversation in *.
  destruct d as [cs ags ms fk].
  cbn [DatabaseService.conversations DatabaseService.agents
       DatabaseService.messages DatabaseService.foreign_keys] in *.
  injection Hold as Hcs Hags Hms. rewrite Hags, Hms. f_equal.
  rewrite map_map. apply map_ext_in. intros c Hc.
  pose proof (@map_fixed _ _ _ Hcs c Hc) as Hfix.
  destruct (eqb (DbConversation.id c) (DbConversation.id row)); [|exact Hfix].
  unfold stored_conversation in *.
  cbn [DbConversation.id DbConversation.topic DbConversation.created_at
       DbConversation.updated_at].
  apply (f_equal DbConversation.id) in Hfix as Hi.
  apply (f_equal DbConversation.topic) in Hfix as Ht.
  cbn [DbConversation.id DbConversation.topic] in Hi, Ht.
  now rewrite Hi, Ht.
Qed.

Lemma agent_kept_push priv a :
  agent_kept (push_thought priv a) = true ->
  agent_kept a = true /\ message_kept priv = true.
Proof.
  unfold agent_kept, push_thought.
  cbn [Agent.id Agent.name Agent.systemPrompt Agent.privateThoughts].
  rewrite forallb_app. cbn [forallb]. rewrite andb_true_r.
  intros H. apply andb_prop in H. destruct H as [H Hts].
  apply andb_prop in Hts. destruct Hts as [Hts Hpriv].
  now rewrite H, Hts.
Qed.

Lemma agents_kept_update priv : forall i l,
  i < length l ->
  forallb agent_kept (array_update (push_thought priv) i l) = true ->
  forallb agent_kept l = true /\ message_kept priv = true.
Proof.
  induction i as [|i IH]; intros [|a l] Hi H; cbn [length] in Hi; try lia;
    cbn [array_update forallb] in *;
    apply andb_prop in H; destruct H as [Ha Hl].
  - apply agent_kept_push in Ha. destruct Ha as [Ha Hpriv].
    now rewrite Ha, Hl.
  - destruct (IH l ltac:(lia) Hl) as [Hl' Hpriv]. now rewrite Ha, Hl'.
Qed.

Lemma apply_turn_kept c i pub priv :
  i < length (Conversation.agents c) ->
  conversation_kept (apply_turn c i pub priv) = true ->
  conversation_kept c = true
  /\ message_kept pub = true /\ message_kept priv = true.
Proof.
  unfold conversation_kept, apply_turn.
  cbn [Conversation.id Conversation.topic Conversation.messages
       Conversation.agents].
  rewrite forallb_app. cbn [forallb]. rewrite andb_true_r.
  intros Hi H. apply andb_prop in H. destruct H as [H Hagents].
  apply andb_prop in H. destruct H as [Hhead Hmessages].
  apply andb_prop in Hmessages. destruct Hmessages as [Hmessages Hpub].
  destruct (@agents_kept_update _ _ _ Hi Hagents) as [Hagents' Hpriv].
  now rewrite Hhead, Hmessages, Hagents'.
Qed.

(** A turn whose result holds no lone surrogate started from an aggregate
    that held none, and the rows it wrote are the rows the store holds. *)
Lemma turn_written c i w c' w' :
  generateAgentResponse E rev c i w = (Ok c', w') ->
  conversation_kept c' = true ->
  conversation_kept c = true
  /\ (written (store w) = store w -> written (store w') = store w').
Proof.
  intros H Hkept. apply generateAgentResponse_Ok in H.
  destruct H as (agent & response & w1 & Hget & _ & -> & ->).
  apply array_get_Some in Hget. destruct Hget as [_ Hnth].
  assert (Hi : Z.to_nat i < length (Conversation.agents c))
    by (apply nth_error_Some; now rewrite Hnth).
  destruct (@apply_turn_kept _ _ _ _ Hi Hkept) as (Hc & Hpub & Hpriv).
  split; [exact Hc|]. intros Hold.
  unfold after_turn. cbn [store]. apply written_update.
  unfold written in *.
  cbn [DatabaseService.conversations DatabaseService.agents
       DatabaseService.messages DatabaseService.foreign_keys].
  destruct (store w) as [cs ags ms fk].
  cbn [DatabaseService.conversations DatabaseService.agents
       DatabaseService.messages DatabaseService.foreign_keys] in *.
  injection Hold as Hcs Hags Hms. rewrite Hcs, Hags. f_equal.
  rewrite map_app, Hms. f_equal. cbn [map].
  now rewrite (@stored_message_kept _ Hpub), (@stored_message_kept _ Hpriv).
Qed.

Lemma run_agents_written n : forall k c w c' w',
  run_agents E rev n k c w = (Ok c', w') ->
  conversation_kept c' = true ->
  conversation_kept c = true
  /\ (written (store w) = store w -> written (store w') = store w').
Proof.
  induction n as [|n IH]; intros k c w c' w' H Hkept; cbn [run_agents] in H.
  - inversion H; subst. now split.
  - destruct (nth_error (Conversation.agents c) k); [|discriminate].
    inv_bind H.
    destruct (@IH _ _ _ _ _ H Hkept) as [Hmid Hrest].
    destruct (@turn_written _ _ _ _ _ H0 Hmid) as [Hc Hfirst].
    split; [exact Hc|]. intros Hold. apply Hrest, Hfirst, Hold.
Qed.

Lemma run_turns_written numAgents : forall numTurns c w c' w',
  run_turns E rev numTurns numAgents c w = (Ok c', w') ->
  conversation_kept c' = true ->
  conversation_kept c = true
  /\ (written (store w) = store w -> written (store w') = store w').
Proof.
  induction numTurns as [|n IH]; intros c w c' w' H Hkept;
    cbn [run_turns] in H.
  - inversion H; subst. now split.
  - inv_bind H.
    destruct (@IH _ _ _ _ H Hkept) as [Hmid Hrest].
    destruct (@run_agents_written _ _ _ _ _ _ H0 Hmid) as [Hc Hfirst].
    split; [exact Hc|]. intros Hold. apply Hrest, Hfirst, Hold.
Qed.

Lemma kept_id c : conversation_kept c = true -> kept (Conversation.id c) = true.
Proof.
  unfold conversation_kept. intros H.
  apply andb_prop in H. destruct H as [H _].
  apply andb_prop in H. destruct H as [H _].
  apply andb_prop in H. now destruct H.
Qed.
End Stored.

(** X8.  With a clock that does not run backwards, a store that holds the
    aggregate before a turn holds the aggregate the turn returns after it;
    so loading a conversation after [runConversation] gives what the run
    returned: the public messages in the order spoken and every agent with
    its own thoughts.  Stated for a returned aggregate whose strings hold
    no lone surrogate: the rows written are then the rows the store holds,
    when its text held no lone surrogate before. *)
Theorem run_then_load E rev :
  monotonic E ->
  (forall c agentIndex w c' w',
     in_sync c w ->
     written (store w) = store w ->
     generateAgentResponse E rev c agentIndex w = (Ok c', w') ->
     conversation_kept c' = true ->
     in_sync c' w' /\ written (store w') = store w')
  /\ (forall c numTurns w c' w',
        in_sync c w ->
        written (store w) = store w ->
        runConversation E rev c numTurns w = (Ok c', w') ->
        conversation_kept c' = true ->
        Conversation.id c' = Conversation.id c
        /\ written (store w') = store w'
        /\ loadConversation (Conversation.id c) w' = (Ok (Some c'), w')
        /\ read_back (Conversation.id c) (store w') = Some c').
Proof.
  intros Hmono. split.
  - intros c i w c' w' Hs Hold H Hkept. split.
    + exact (@turn_keeps_sync E rev Hmono c i w c' w' Hs H).
    + exact (proj2 (@turn_written E rev c i w c' w' H Hkept) Hold).
  - intros c n w c' w' Hs Hold H Hkept. unfold runConversation in H.
    destruct (Conversation.messages c); [discriminate|].
    pose proof (run_turns_turns _ _ _ _ _ _ H) as (ts & _ & Hc' & _).
    assert (Hid : Conversation.id c' = Conversation.id c)
      by (rewrite Hc'; apply id_plays).
    destruct (@run_turns_sync E rev Hmono _ _ _ _ _ _ Hs H) as (Hload & _).
    pose proof (proj2 (@run_turns_written E rev _ _ _ _ _ _ H Hkept) Hold)
      as Hnew.
    split; [exact Hid|]. split; [exact Hnew|]. split.
    + unfold loadConversation. now rewrite <- Hid, Hload.
    + unfold read_back. rewrite Hnew, <- Hid.
      now rewrite (@kept_eq _ (@kept_id _ Hkept)).
Qed.

Lemma run_then_load_witness :
  exists c' w',
    runConversation Examples.env OpenAIOnly Examples.talk 1 Examples.started
    = (Ok c', w')
    /\ loadConversation (Conversation.id Examples.talk) w' = (Ok (Some c'), w')
    /\ read_back (Conversation.id Examples.talk) (store w') = Some c'.
Proof.
  assert (Hmono : monotonic Examples.env) by (intros n; cbn; lia).
  assert (Hs : in_sync Examples.talk Examples.started).
  { split; [vm_compute; reflexivity|]. split.
    - repeat constructor; vm_compute; discriminate.
    - vm_compute. repeat constructor; cbn; intuition discriminate. }
  assert (Hold : written (store Examples.started) = store Examples.started)
    by (vm_compute; reflexivity).
  assert (H : exists c' w',
             runConversation Examples.env OpenAIOnly Examples.talk 1
               Examples.started = (Ok c', w'))
    by (eexists; eexists; vm_compute; reflexivity).
  destruct H as (c' & w' & H). exists c', w'. split; [exact H|].
  destruct (run_then_load OpenAIOnly Hmono) as (_ & Hrun).
  assert (Hkept : conversation_kept c' = true).
  { replace c' with (Examples.value Examples.no_conversation
                       (runConversation Examples.env OpenAIOnly Examples.talk
                          1 Examples.started))
      by (unfold Examples.value; now rewrite H).
    vm_compute. reflexivity. }
  destruct (Hrun _ _ _ _ _ Hs Hold H Hkept) as (_ & _ & Hload & Hback).
  split; [exact Hload|exact Hback].
Defined.

(* ================================================================== *)
(** * Whose thoughts an agent holds *)
(* ================================================================== *)

Section Owned.
Variable E : Env.
Variable rev : Revision.

Lemma Forall_array_update {A : Type} (P : A -> Prop) (f : A -> A) :
  forall i l,
    Forall P l ->
    (forall a, nth_error l i = Some a -> P a -> P (f a)) ->
    Forall P (array_update f i l).
Proof.
  induction i as [|i IH]; intros [|a l] Hl Hf; cbn [array_update];
    try constructor; inversion Hl; subst; try assumption.
  - now apply Hf.
  - apply IH; [assumption|]. intros b Hb. now apply Hf.
Qed.

Lemma loadConversation_owned conversationId d c :
  DatabaseService.loadConversation conversationId d = Some c ->
  owned_thoughts c.
Proof.
  unfold DatabaseService.loadConversation.
  destruct (DatabaseService.getConversation conversationId d); [|discriminate].
  intros H. inversion H; subst; clear H.
  unfold owned_thoughts. cbn [Conversation.agents].
  apply Forall_map, Forall_forall. intros a _.
  cbn [Agent.privateThoughts].
  apply Forall_map. unfold DatabaseService.getPrivateMessagesForAgent.
  apply order_by_timestamp_Forall, Forall_forall.
  intros x Hx. apply filter_In in Hx. destruct Hx as [_ Hx].
  apply andb_true_iff in Hx. destruct Hx as [Hid Hpriv].
  unfold thought_of.
  cbn [DatabaseService.dbMessageToMessage Message.isPrivate Message.agentId
       Agent.id].
  split; [exact Hpriv|]. unfold DatabaseService.agent_id_is in Hid.
  destruct (DbMessage.agent_id x) as [id|]; [|discriminate].
  apply eqb_eq in Hid. now subst.
Qed.

Lemma turn_owned c i w c' w' :
  generateAgentResponse E rev c i w = (Ok c', w') ->
  owned_thoughts c -> owned_thoughts c'.
Proof.
  intros H Hc. apply generateAgentResponse_Ok in H.
  destruct H as (agent & response & w1 & Hget & _ & -> & _).
  apply array_get_Some in Hget. destruct Hget as [_ Hnth].
  unfold owned_thoughts, apply_turn. cbn [Conversation.agents].
  apply Forall_array_update; [exact Hc|].
  intros a Ha Hown. rewrite Hnth in Ha. inversion Ha; subst a.
  unfold push_thought. cbn [Agent.privateThoughts Agent.id].
  apply Forall_app. split; [exact Hown|].
  repeat constructor.
Qed.

Lemma run_agents_owned n : forall k c w c' w',
  run_agents E rev n k c w = (Ok c', w') ->
  owned_thoughts c -> owned_thoughts c'.
Proof.
  induction n as [|n IH]; intros k c w c' w' H Hc; cbn [run_agents] in H.
  - inversion H; subst. exact Hc.
  - destruct (nth_error (Conversation.agents c) k); [|discriminate].
    inv_bind H. eapply IH; [exact H|]. eapply turn_owned; eassumption.
Qed.

Lemma runConversation_owned c numTurns w c' w' :
  runConversation E rev c numTurns w = (Ok c', w') ->
  owned_thoughts c -> owned_thoughts c'.
Proof.
  unfold runConversation.
  destruct (Conversation.messages c); [discriminate|].
  generalize (length (Conversation.agents c)). intros n.
  revert c w. induction numTurns as [|turns IH]; intros c w H Hc;
    cbn [run_turns] in H.
  - inversion H; subst. exact Hc.
  - inv_bind H. eapply IH; [exact H|]. eapply run_agents_owned; eassumption.
Qed.
End Owned.

(** X9.  In every aggregate the turn engine hands out, the thoughts an
    agent holds are private messages written by that agent: no agent is
    given the thoughts of another. *)
Theorem thoughts_owned E rev c :
  produced E rev c ->
  forall a x,
    In a (Conversation.agents c) -> In x (Agent.privateThoughts a) ->
    Message.isPrivate x = true /\ Message.agentId x = Some (Agent.id a).
Proof.
  intros Hc.
  assert (Hown : owned_thoughts c).
  { induction Hc as [topic n w c w' H | id w c w' H | c i w c' w' _ IH H
                    | c t w c' w' _ IH H | c t w c' w' _ IH H].
    - apply createConversation_Ok in H. destruct H as (-> & _).
      unfold owned_thoughts. cbn [Conversation.agents].
      apply Forall_forall. intros a Ha.
      rewrite (new_agents_no_thoughts _ _ _ _ _ Ha). constructor.
    - unfold loadConversation in H. inversion H as [[Hload Hw]].
      exact (loadConversation_owned _ _ Hload).
    - exact (turn_owned _ _ _ _ H IH).
    - exact (runConversation_owned _ _ _ _ H IH).
    - exact (runConversation_owned _ _ _ _ H IH). }
  intros a x Ha Hx. unfold owned_thoughts in Hown.
  rewrite Forall_forall in Hown. specialize (Hown a Ha).
  rewrite Forall_forall in Hown. exact (Hown x Hx).
Qed.

Lemma thoughts_owned_witness :
  exists c' w',
    runConversation Examples.env OpenAIOnly Examples.talk 1 Examples.started
    = (Ok c', w')
    /\ forall a x,
         In a (Conversation.agents c') -> In x (Agent.privateThoughts a) ->
         Message.isPrivate x = true /\ Message.agentId x = Some (Agent.id a).
Proof.
  assert (H : exists c' w',
             runConversation Examples.env OpenAIOnly Examples.talk 1
               Examples.started = (Ok c', w'))
    by (eexists; eexists; vm_compute; reflexivity).
  destruct H as (c' & w' & H). exists c', w'. split; [exact H|].
  apply (@thoughts_owned Examples.env OpenAIOnly c').
  eapply produced_run; [|exact H].
  apply (@produced_create Examples.env OpenAIOnly (js "cats") 2
           (Examples.fresh 2) Examples.talk Examples.started).
  vm_compute. reflexivity.
Defined.

(* ================================================================== *)
(** * What each request of a run carries *)
(* ================================================================== *)

Section Requests.
Variable E : Env.
Variable rev : Revision.

Lemma adapter_dispatches agentName systemPrompt messages privateThoughts w :
  let w1 := snd (llm_generateAgentResponse E rev agentName systemPrompt
                   messages privateThoughts w) in
  provider_supported rev (llm w1) = provider_supported rev (llm w)
  /\ exists new,
       dispatches w1 = dispatches w ++ new
       /\ map handed new
          = if provider_supported rev (llm w)
            then [(messages, privateThoughts)] else [].
Proof.
  cbv zeta. rewrite adapter_cases. cbv zeta.
  destruct (checkRateLimit_Ok E w) as (_ & _ & _ & Hd & _ & Hp).
  assert (Hsup : provider_supported rev (llm (after_check E w))
                 = provider_supported rev (llm w))
    by (destruct rev; cbn [provider_supported]; [reflexivity | now rewrite Hp]).
  destruct (provider_supported rev (llm w)) eqn:Hs.
  - destruct (answer E w _); cbn [snd]; (split; [exact Hsup|]);
      eexists; (split;
        [unfold counted, dispatched, set_llm; cbn [dispatches];
         rewrite Hd; reflexivity
        | reflexivity]).
  - cbn [snd]. split; [exact Hsup|]. exists [].
    now rewrite app_nil_r.
Qed.

Lemma generateAgentResponse_request c k w c' w' :
  generateAgentResponse E rev c (Z.of_nat k) w = (Ok c', w') ->
  provider_supported rev (llm w') = provider_supported rev (llm w)
  /\ exists t new,
       t_index t = k /\ c' = play c t /\ turn_of c t
       /\ dispatches w' = dispatches w ++ new
       /\ map handed new
          = if provider_supported rev (llm w) then seen c [t] else [].
Proof.
  intros H. apply generateAgentResponse_Ok in H.
  destruct H as (agent & response & w1 & Hget & Hcall & -> & ->).
  rewrite array_get_of_nat in Hget. rewrite Nat2Z.id.
  pose proof (adapter_dispatches (Agent.name agent) (Agent.systemPrompt agent)
                (public_history c) (Agent.privateThoughts agent) w) as Had.
  cbv zeta in Had. rewrite Hcall in Had. cbn [snd] in Had.
  destruct Had as (Hsup & new & Hnew & Hhanded).
  split; [exact Hsup|].
  exists {| t_index := k;
            t_public := turn_public E c agent response w w1;
            t_private := turn_private E c agent response w w1 |}, new.
  split; [reflexivity|]. split; [reflexivity|]. split.
  { exists (Agent.id agent), (Agent.name agent).
    unfold author. cbn [t_index t_public t_private]. rewrite Hget.
    repeat split. }
  split; [exact Hnew|]. rewrite Hhanded.
  cbn [seen t_index]. unfold thoughts_of. now rewrite Hget.
Qed.

Lemma turn_of_play c t0 t : turn_of c t -> turn_of (play c t0) t.
Proof. unfold turn_of. now rewrite author_play. Qed.

Lemma seen_app ts1 : forall c ts2,
  seen c (ts1 ++ ts2) = seen c ts1 ++ seen (fold_left play ts1 c) ts2.
Proof.
  induction ts1 as [|t ts1 IH]; intros c ts2; cbn [app seen fold_left];
    [reflexivity|].
  now rewrite IH.
Qed.

Lemma run_agents_requests n : forall k c w c' w',
  run_agents E rev n k c w = (Ok c', w') ->
  provider_supported rev (llm w') = provider_supported rev (llm w)
  /\ exists ts new,
       map t_index ts = seq k n /\ c' = fold_left play ts c
       /\ Forall (turn_of c) ts
       /\ dispatches w' = dispatches w ++ new
       /\ map handed new
          = if provider_supported rev (llm w) then seen c ts else [].
Proof.
  induction n as [|n IH]; intros k c w c' w' H; cbn [run_agents] in H.
  - inversion H; subst. split; [reflexivity|]. exists [], [].
    rewrite app_nil_r. repeat split; [constructor|].
    now destruct (provider_supported rev (llm w')).
  - destruct (nth_error (Conversation.agents c) k) as [agent|];
      [|discriminate].
    inv_bind H. apply generateAgentResponse_request in H0.
    destruct H0 as (Hsup1 & t & new1 & Hk & -> & Ht & Hd1 & Hh1).
    apply IH in H.
    destruct H as (Hsup2 & ts & new2 & Hidx & -> & Hts & Hd2 & Hh2).
    split; [congruence|].
    exists (t :: ts), (new1 ++ new2). cbn [map seq fold_left]. repeat split.
    + now rewrite Hk, Hidx.
    + constructor; [exact Ht|].
      eapply Forall_impl; [|exact Hts].
      intros t' Ht'. exact (@turn_of_plays [t] c t' Ht').
    + now rewrite Hd2, Hd1, <- app_assoc.
    + rewrite map_app, Hh1, Hh2, Hsup1.
      destruct (provider_supported rev (llm w)); reflexivity.
Qed.

Lemma run_turns_requests numTurns numAgents : forall c w c' w',
  run_turns E rev numTurns numAgents c w = (Ok c', w') ->
  provider_supported rev (llm w') = provider_supported rev (llm w)
  /\ exists ts new,
       map t_index ts = turn_order numTurns numAgents
       /\ c' = fold_left play ts c
       /\ Forall (turn_of c) ts
       /\ dispatches w' = dispatches w ++ new
       /\ map handed new
          = if provider_supported rev (llm w) then seen c ts else [].
Proof.
  induction numTurns as [|n IH]; intros c w c' w' H; cbn [run_turns] in H.
  - inversion H; subst. split; [reflexivity|]. exists [], [].
    rewrite app_nil_r. repeat split; [constructor|].
    now destruct (provider_supported rev (llm w')).
  - inv_bind H. apply run_agents_requests in H0.
    destruct H0 as (Hsup1 & ts1 & new1 & Hidx1 & -> & Hts1 & Hd1 & Hh1).
    apply IH in H.
    destruct H as (Hsup2 & ts2 & new2 & Hidx2 & -> & Hts2 & Hd2 & Hh2).
    split; [congruence|].
    exists (ts1 ++ ts2), (new1 ++ new2). repeat split.
    + unfold turn_order. cbn [repeat concat].
      now rewrite map_app, Hidx1, Hidx2.
    + now rewrite fold_left_app.
    + apply Forall_app. split; [exact Hts1|].
      eapply Forall_impl; [|exact Hts2].
      intros t Ht. exact (turn_of_plays ts1 c Ht).
    + now rewrite Hd2, Hd1, <- app_assoc.
    + rewrite map_app, Hh1, Hh2, Hsup1, seen_app.
      destruct (provider_supported rev (llm w)); reflexivity.
Qed.

Lemma public_history_play c t :
  Message.isPrivate (t_public t) = false ->
  public_history (play c t) = public_history c ++ [t_public t].
Proof.
  intros Hpub. unfold public_history, play, apply_turn.
  cbn [Conversation.messages]. rewrite filter_app. cbn [filter].
  now rewrite Hpub.
Qed.

Lemma thoughts_of_play c t i :
  author c (t_index t) <> None ->
  thoughts_of (play c t) i
  = thoughts_of c i ++ (if t_index t =? i then [t_private t] else []).
Proof.
  intros Ha. unfold thoughts_of, play, apply_turn.
  cbn [Conversation.agents]. rewrite array_update_nth.
  rewrite (Nat.eqb_sym i). destruct (t_index t =? i) eqn:Hi.
  - apply Nat.eqb_eq in Hi. subst i. unfold author in Ha.
    destruct (nth_error (Conversation.agents c) (t_index t));
      [reflexivity | now elim Ha].
  - now rewrite app_nil_r.
Qed.

(** The history and the thoughts of the turn of index [j], in closed
    form. *)
Lemma seen_nth ts : forall c j t,
  Forall (turn_of c) ts ->
  nth_error ts j = Some t ->
  nth_error (seen c ts) j
  = Some (public_history c ++ map t_public (firstn j ts),
          thoughts_of c (t_index t)
          ++ map t_private
               (filter (fun t' => t_index t' =? t_index t) (firstn j ts))).
Proof.
  induction ts as [|t0 ts IH]; intros c [|j] t Hts Hj;
    cbn [nth_error] in Hj; try discriminate; cbn [seen nth_error].
  - inversion Hj; subst t0. cbn [firstn map filter]. now rewrite !app_nil_r.
  - inversion Hts as [|t0' ts' Ht0 Hts']; subst.
    rewrite (IH (play c t0) j t); [|now apply Forall_impl with (2 := Hts');
                                     intros t'; apply turn_of_play | exact Hj].
    destruct Ht0 as (id & name & Hauth & _ & _ & _ & _ & _ & _ & Hpub & _).
    rewrite public_history_play by exact Hpub.
    rewrite thoughts_of_play by (rewrite Hauth; discriminate).
    cbn [firstn map filter]. rewrite <- !app_assoc.
    destruct (t_index t0 =? t_index t); reflexivity.
Qed.
End Requests.

(** X10.  A run that completes sends one request per turn, in the order of
    the turns, when the configured provider is one the adapter knows, and
    none otherwise.  The request of a turn carries, as history, the public
    history the run started with followed by the public message of every
    turn before it, those of the same round included, and, as thoughts,
    those of the agent whose turn it is followed by the thoughts it had
    in the turns before. *)
Theorem run_requests E rev c numTurns w c' w' :
  runConversation E rev c numTurns w = (Ok c', w') ->
  exists ts new,
    map t_index ts = turn_order numTurns (length (Conversation.agents c))
    /\ Conversation.messages c' = Conversation.messages c ++ map t_public ts
    /\ dispatches w' = dispatches w ++ new
    /\ (provider_supported rev (llm w) = false -> new = [])
    /\ (provider_supported rev (llm w) = true ->
        length new = length ts
        /\ forall j t d,
             nth_error ts j = Some t -> nth_error new j = Some d ->
             d_history d = public_history c ++ map t_public (firstn j ts)
             /\ d_thoughts d
                = thoughts_of c (t_index t)
                  ++ map t_private
                       (filter (fun t' => t_index t' =? t_index t)
                               (firstn j ts))).
Proof.
  unfold runConversation. intros H.
  destruct (Conversation.messages c) as [|first others] eqn:Hm;
    [discriminate|].
  apply run_turns_requests in H.
  destruct H as (_ & ts & new & Hidx & -> & Hts & Hd & Hh).
  exists ts, new. split; [exact Hidx|].
  split; [now rewrite messages_plays, Hm|]. split; [exact Hd|]. split.
  - intros Hs. rewrite Hs in Hh. now destruct new.
  - intros Hs. rewrite Hs in Hh. split.
    + rewrite <- (length_map handed), Hh. clear. revert c.
      induction ts as [|t ts IH]; intros c; cbn [seen length];
        [reflexivity | now rewrite IH].
    + intros j t d Ht Hd'.
      pose proof (seen_nth j Hts Ht) as Hseen. rewrite <- Hh in Hseen.
      rewrite nth_error_map, Hd' in Hseen. cbn [option_map] in Hseen.
      inversion Hseen. split; reflexivity.
Qed.

Lemma run_requests_witness :
  exists c' w' ts new,
    runConversation Examples.env OpenAIOnly Examples.talk 1 Examples.started
    = (Ok c', w')
    /\ map t_index ts = [0; 1]
    /\ dispatches w' = dispatches Examples.started ++ new
    /\ length new = length ts.
Proof.
  assert (H : exists c' w',
             runConversation Examples.env OpenAIOnly Examples.talk 1
               Examples.started = (Ok c', w'))
    by (eexists; eexists; vm_compute; reflexivity).
  destruct H as (c' & w' & H).
  destruct (@run_requests _ _ _ _ _ _ _ H)
    as (ts & new & Hidx & _ & Hd & _ & Hs).
  exists c', w', ts, new. repeat split; try assumption.
  apply Hs. reflexivity.
Defined.

(* ================================================================== *)
(** * The store stays consistent *)
(* ================================================================== *)

Section Consistency.

Lemma existsb_key {A : Type} (key : A -> jsstring) id l :
  existsb (fun a => eqb (key a) id) l = false -> ~ In id (map key l).
Proof.
  intros H Hin. apply in_map_iff in Hin. destruct Hin as (a & Ha & Hin).
  pose proof (existsb_false_In _ _ H a Hin) as Hf. cbv beta in Hf.
  rewrite Ha, jseqb_refl in Hf. discriminate.
Qed.

Lemma NoDup_snoc {A : Type} (l : list A) a :
  NoDup l -> ~ In a l -> NoDup (l ++ [a]).
Proof.
  intros Hl Ha. apply NoDup_rev in Hl. rewrite <- (rev_involutive (l ++ [a])).
  apply NoDup_rev. rewrite rev_app_distr. cbn [rev app].
  constructor; [|exact Hl]. intros Hin. apply Ha. now apply in_rev.
Qed.

Lemma existsb_app_l {A : Type} (f : A -> bool) l1 l2 :
  existsb f l1 = true -> existsb f (l1 ++ l2) = true.
Proof. intros H. now rewrite existsb_app, H. Qed.

Lemma agent_ref_ok_app d d' a :
  (forall id, DatabaseService.has_agent d id = true ->
              DatabaseService.has_agent d' id = true) ->
  DatabaseService.agent_ref_ok d a = true ->
  DatabaseService.agent_ref_ok d' a = true.
Proof. destruct a as [id|]; cbn [DatabaseService.agent_ref_ok]; auto. Qed.

Lemma createConversation_consistent row d d' :
  DatabaseService.createConversation row d = inr d' ->
  consistent d -> consistent d'.
Proof.
  unfold DatabaseService.createConversation.
  destruct (DatabaseService.has_conversation d (DbConversation.id row))
    eqn:Hnew; [discriminate|].
  intros H ((Kc & Ka & Km) & Hfk). inversion H; subst d'; clear H.
  split; [split; [|split]|]; cbn [DatabaseService.conversations
    DatabaseService.agents DatabaseService.messages
    DatabaseService.foreign_keys]; try assumption.
  - rewrite map_app. cbn [map]. apply NoDup_snoc; [exact Kc|].
    now apply existsb_key.
  - intros Hon. destruct (Hfk Hon) as (Hagents & Hmessages).
    split; unfold DatabaseService.has_conversation;
      cbn [DatabaseService.conversations DatabaseService.agents
           DatabaseService.messages].
    + intros a Ha. apply existsb_app_l. exact (Hagents a Ha).
    + intros x Hx. destruct (Hmessages x Hx) as [H1 H2].
      split; [now apply existsb_app_l|].
      eapply agent_ref_ok_app; [|exact H2]. auto.
Qed.

Lemma createAgent_consistent row d d' :
  DatabaseService.createAgent row d = inr d' ->
  consistent d -> consistent d'.
Proof.
  unfold DatabaseService.createAgent.
  destruct (DatabaseService.has_agent d (DbAgent.id row)) eqn:Hnew;
    [discriminate|].
  destruct (DatabaseService.foreign_keys d
            && negb (DatabaseService.has_conversation d
                       (DbAgent.conversation_id row))) eqn:Hcheck;
    [discriminate|].
  intros H ((Kc & Ka & Km) & Hfk). inversion H; subst d'; clear H.
  split; [split; [|split]|]; cbn [DatabaseService.conversations
    DatabaseService.agents DatabaseService.messages
    DatabaseService.foreign_keys]; try assumption.
  - rewrite map_app. cbn [map]. apply NoDup_snoc; [exact Ka|].
    now apply existsb_key.
  - intros Hon. destruct (Hfk Hon) as (Hagents & Hmessages).
    rewrite Hon in Hcheck. cbn [andb] in Hcheck.
    apply negb_false_iff in Hcheck.
    split; cbn [DatabaseService.agents DatabaseService.messages].
    + intros a Ha. apply in_app_or in Ha.
      destruct Ha as [Ha | [<- | []]]; [exact (Hagents a Ha) | exact Hcheck].
    + intros x Hx. destruct (Hmessages x Hx) as [H1 H2].
      split; [exact H1|]. eapply agent_ref_ok_app; [|exact H2].
      intros id Hid. unfold DatabaseService.has_agent.
      cbn [DatabaseService.agents]. now apply existsb_app_l.
Qed.

Lemma createMessage_consistent row d d' :
  DatabaseService.createMessage row d = inr d' ->
  consistent d -> consistent d'.
Proof.
  unfold DatabaseService.createMessage.
  destruct (DatabaseService.has_message d (DbMessage.id row)) eqn:Hnew;
    [discriminate|].
  destruct (DatabaseService.foreign_keys d
            && negb (DatabaseService.has_conversation d
                       (DbMessage.conversation_id row)
                     && DatabaseService.agent_ref_ok d
                          (DbMessage.agent_id row))) eqn:Hcheck;
    [discriminate|].
  intros H ((Kc & Ka & Km) & Hfk). inversion H; subst d'; clear H.
  split; [split; [|split]|]; cbn [DatabaseService.conversations
    DatabaseService.agents DatabaseService.messages
    DatabaseService.foreign_keys]; try assumption.
  - rewrite map_app. cbn [map]. apply NoDup_snoc; [exact Km|].
    now apply existsb_key.
  - intros Hon. destruct (Hfk Hon) as (Hagents & Hmessages).
    rewrite Hon in Hcheck. cbn [andb] in Hcheck.
    apply negb_false_iff, andb_true_iff in Hcheck.
    split; cbn [DatabaseService.agents DatabaseService.messages].
    + exact Hagents.
    + intros x Hx. apply in_app_or in Hx.
      destruct Hx as [Hx | [<- | []]]; [exact (Hmessages x Hx) | exact Hcheck].
Qed.

Lemma updateConversation_consistent row d :
  consistent d -> consistent (DatabaseService.updateConversation row d).
Proof.
  intros ((Kc & Ka & Km) & Hfk).
  split; [split; [|split]|]; try assumption.
  - unfold DatabaseService.updateConversation.
    cbn [DatabaseService.conversations]. rewrite map_map.
    erewrite map_ext; [exact Kc|]. intros c. cbv beta.
    now destruct (eqb (DbConversation.id c) (DbConversation.id row)).
  - intros Hon. destruct (Hfk Hon) as (Hagents & Hmessages).
    split.
    + intros a Ha. rewrite has_conversation_update. exact (Hagents a Ha).
    + intros x Hx. rewrite has_conversation_update. exact (Hmessages x Hx).
Qed.

Lemma keeps_bind {A B : Type} (c : M A) (f : A -> M B) :
  keeps_consistent c -> (forall a, keeps_consistent (f a)) ->
  keeps_consistent (bind c f).
Proof.
  intros Hc Hf w Hw. unfold bind. specialize (Hc w Hw).
  destruct (c w) as [[a|e] w1]; cbn [snd] in *; [now apply Hf | exact Hc].
Qed.

Lemma keeps_quiet {A : Type} (c : M A) :
  (forall w, store (snd (c w)) = store w) -> keeps_consistent c.
Proof. intros H w Hw. now rewrite H. Qed.

Lemma keeps_db_write op :
  (forall d d', op d = inr d' -> consistent d -> consistent d') ->
  keeps_consistent (db_write op).
Proof.
  intros Hop w Hw. unfold db_write.
  destruct (op (store w)) as [e|d] eqn:Hd; cbn [snd set_store store];
    [exact Hw | exact (Hop _ _ Hd Hw)].
Qed.

Variable E : Env.
Variable rev : Revision.

Lemma keeps_adapter agentName systemPrompt messages privateThoughts :
  keeps_consistent (llm_generateAgentResponse E rev agentName systemPrompt
                      messages privateThoughts).
Proof.
  apply keeps_quiet. intros w.
  destruct (adapter_total E rev agentName systemPrompt messages
              privateThoughts w) as (r & w1 & -> & Hs & _).
  exact Hs.
Qed.

Lemma keeps_generate c agentIndex :
  keeps_consistent (generateAgentResponse E rev c agentIndex).
Proof.
  unfold generateAgentResponse.
  destruct (array_get _ agentIndex) as [agent|]; [|now apply keeps_quiet].
  apply keeps_bind; [apply keeps_adapter|]. intros response.
  apply keeps_bind; [now apply keeps_quiet|]. intros now.
  apply keeps_bind; [now apply keeps_quiet|]. intros id1.
  apply keeps_bind;
    [apply keeps_db_write; intros d d'; apply createMessage_consistent|].
  intros _.
  apply keeps_bind; [now apply keeps_quiet|]. intros id2.
  apply keeps_bind;
    [apply keeps_db_write; intros d d'; apply createMessage_consistent|].
  intros _.
  apply keeps_bind; [|intros _; now apply keeps_quiet].
  intros w Hw. unfold db_update. cbn [snd set_store store].
  now apply updateConversation_consistent.
Qed.

Lemma keeps_run_agents n : forall k c,
  keeps_consistent (run_agents E rev n k c).
Proof.
  induction n as [|n IH]; intros k c; cbn [run_agents].
  - now apply keeps_quiet.
  - destruct (nth_error _ k); [|now apply keeps_quiet].
    apply keeps_bind; [apply keeps_generate|]. intros c'. apply IH.
Qed.

Lemma keeps_run c numTurns :
  keeps_consistent (runConversation E rev c numTurns).
Proof.
  unfold runConversation.
  destruct (Conversation.messages c) as [|first others];
    [now apply keeps_quiet|].
  generalize (length (Conversation.agents c)). intros n. revert c.
  induction numTurns as [|turns IH]; intros c; cbn [run_turns].
  - now apply keeps_quiet.
  - apply keeps_bind; [apply keeps_run_agents|]. intros c'. apply IH.
Qed.

Lemma keeps_create_agents conversationId n : forall i agents,
  keeps_consistent (create_agents E conversationId n i agents).
Proof.
  induction n as [|n IH]; intros i agents; cbn [create_agents].
  - now apply keeps_quiet.
  - apply keeps_bind; [now apply keeps_quiet|]. intros id.
    apply keeps_bind;
      [apply keeps_db_write; intros d d'; apply createAgent_consistent|].
    intros _. apply IH.
Qed.

Lemma keeps_create topic numAgents :
  keeps_consistent (createConversation E topic numAgents).
Proof.
  unfold createConversation.
  apply keeps_bind; [now apply keeps_quiet|]. intros id.
  apply keeps_bind; [now apply keeps_quiet|]. intros now.
  apply keeps_bind;
    [apply keeps_db_write; intros d d'; apply createConversation_consistent|].
  intros _.
  apply keeps_bind; [apply keeps_create_agents|]. intros agents.
  apply keeps_bind; [now apply keeps_quiet|]. intros id1.
  apply keeps_bind;
    [apply keeps_db_write; intros d d'; apply createMessage_consistent|].
  intros _. now apply keeps_quiet.
Qed.
End Consistency.

(** X11.  A store whose primary keys are unique and whose references are
    intact (where the engine enforces them) stays so through
    [createConversation], [generateAgentResponse] and [runConversation],
    whether they return or throw part of the way. *)
Theorem store_stays_consistent E rev w :
  consistent (store w) ->
  (forall topic numAgents,
     consistent (store (snd (createConversation E topic numAgents w))))
  /\ (forall c agentIndex,
        consistent (store (snd (generateAgentResponse E rev c agentIndex w))))
  /\ (forall c numTurns,
        consistent (store (snd (runConversation E rev c numTurns w)))).
Proof.
  intros Hw. split; [|split].
  - intros topic n. now apply keeps_create.
  - intros c i. now apply keeps_generate.
  - intros c n. now apply keeps_run.
Qed.

Lemma store_stays_consistent_witness :
  consistent (store Examples.started)
  /\ consistent
       (store (snd (runConversation Examples.env OpenAIOnly Examples.talk 1
                      Examples.started))).
Proof.
  assert (H0 : consistent (store (Examples.fresh 2))).
  { split; [repeat split; constructor|]. intros _. split; intros ? []. }
  destruct (@store_stays_consistent Examples.env OpenAIOnly _ H0)
    as (Hcreate & _).
  assert (H1 : consistent (store Examples.started))
    by exact (Hcreate (js "cats") 2).
  split; [exact H1|].
  destruct (@store_stays_consistent Examples.env OpenAIOnly _ H1)
    as (_ & _ & Hrun).
  apply Hrun.
Defined.

(* ================================================================== *)
(** * A conversation the store does not hold *)
(* ================================================================== *)

Section Unknown.

(** Updating a conversation that has no row changes no row. *)
Lemma updateConversation_unknown row d :
  DatabaseService.has_conversation d (DbConversation.id row) = false ->
  DatabaseService.conversations (DatabaseService.updateConversation row d)
  = DatabaseService.conversations d.
Proof.
  unfold DatabaseService.has_conversation, DatabaseService.updateConversation.
  cbn [DatabaseService.conversations]. intros H.
  rewrite <- (map_id (DatabaseService.conversations d)) at 2.
  apply map_ext_in. intros c Hc.
  now rewrite (existsb_false_In _ _ H c Hc).
Qed.
End Unknown.

(** X12.  The store is opened without enforcing foreign keys, and the
    engine does not look the conversation up: a turn of a conversation
    that the store does not hold completes and writes its two message
    rows, which name a conversation without a row; no conversation row is
    added or changed, so the references of the store are broken. *)
Theorem unknown_conversation_accepted E rev c agentIndex agent w :
  array_get (Conversation.agents c) agentIndex = Some agent ->
  DatabaseService.foreign_keys (store w) = false ->
  DatabaseService.has_conversation (store w) (Conversation.id c) = false ->
  DatabaseService.has_message (store w) (uuid_at E (uuids w)) = false ->
  DatabaseService.has_message (store w) (uuid_at E (S (uuids w))) = false ->
  uuid_at E (uuids w) <> uuid_at E (S (uuids w)) ->
  exists c' w' pub priv,
    generateAgentResponse E rev c agentIndex w = (Ok c', w')
    /\ Conversation.messages c' = Conversation.messages c ++ [pub]
    /\ DatabaseService.messages (store w')
       = DatabaseService.messages (store w)
         ++ [message_row pub; message_row priv]
    /\ Message.conversationId pub = Conversation.id c
    /\ Message.conversationId priv = Conversation.id c
    /\ DatabaseService.conversations (store w')
       = DatabaseService.conversations (store w)
    /\ ~ referential_integrity (store w').
Proof.
  intros Hget Hfk Hconv Hpub Hpriv Hdiff.
  destruct (@generateAgentResponse_succeeds E rev c agentIndex agent w Hget)
    as (c' & w' & Hrun).
  { repeat split; try assumption; rewrite Hfk in *; discriminate. }
  pose proof (generateAgentResponse_Ok _ _ _ _ _ Hrun)
    as (agent' & response & w1 & Hget' & _ & Hc' & Hw').
  rewrite Hget in Hget'. inversion Hget'; subst agent'; clear Hget'.
  exists c', w', (turn_public E c agent response w w1),
    (turn_private E c agent response w w1).
  split; [exact Hrun|]. rewrite Hc', Hw'.
  assert (Hsame : DatabaseService.conversations
                    (store (after_turn E c
                              (turn_public E c agent response w w1)
                              (turn_private E c agent response w w1) w w1))
                  = DatabaseService.conversations (store w)).
  { unfold after_turn. cbn [store].
    rewrite updateConversation_unknown; [reflexivity|].
    cbn [DbConversation.id]. exact Hconv. }
  repeat split; try exact Hsame.
  intros (_ & Hmessages).
  destruct (Hmessages (message_row (turn_public E c agent response w w1)))
    as [Hc _].
  { unfold after_turn. cbn [store DatabaseService.updateConversation
                            DatabaseService.messages].
    apply in_or_app. right. now left. }
  unfold DatabaseService.has_conversation in Hc. rewrite Hsame in Hc.
  cbn [message_row turn_public reply_message DbMessage.conversation_id
       Message.conversationId] in Hc.
  unfold DatabaseService.has_conversation in Hconv. congruence.
Qed.

Lemma unknown_conversation_accepted_witness :
  exists c' w',
    generateAgentResponse Examples.env OpenAIOnly Examples.talk 0 (Examples.unchecked 2)
    = (Ok c', w')
    /\ length (DatabaseService.messages (store w')) = 2
    /\ DatabaseService.conversations (store w') = [].
Proof.
  destruct (@unknown_conversation_accepted Examples.env OpenAIOnly
              Examples.talk 0 Examples.user_a (Examples.unchecked 2))
    as (c' & w' & pub & priv & Hrun & _ & Hrows & _ & _ & Hconv & _);
    try reflexivity; [discriminate|].
  exists c', w'. split; [exact Hrun|]. rewrite Hrows, Hconv.
  split; reflexivity.
Defined.

(* ================================================================== *)
(** * Runs with nothing to do *)
(* ================================================================== *)

(** X13.  A run with nothing to do, no turn or no agent, returns the
    conversation it was given and changes nothing: no request, no row, no
    reading of the clock.  A conversation without a message makes
    [runConversation] throw at once, whatever the number of turns. *)
Theorem run_nothing_to_do E rev c numTurns w :
  (Conversation.messages c <> [] ->
   numTurns = 0 \/ Conversation.agents c = [] ->
   runConversation E rev c numTurns w = (Ok c, w))
  /\ (Conversation.messages c = [] ->
      runConversation E rev c numTurns w = (Throw TypeError, w)).
Proof.
  unfold runConversation. split.
  - intros Hm H. destruct (Conversation.messages c) as [|first rest];
      [congruence|].
    destruct H as [-> | ->]; [reflexivity|]. cbn [length].
    induction numTurns as [|n IH]; [reflexivity|].
    cbn [run_turns run_agents]. unfold bind, ret at 1. exact IH.
  - intros ->. reflexivity.
Qed.

Lemma run_nothing_to_do_witness :
  runConversation Examples.env OpenAIOnly Examples.talk 0 Examples.started
  = (Ok Examples.talk, Examples.started)
  /\ runConversation Examples.env OpenAIOnly Examples.no_conversation 3
       Examples.started
     = (Throw TypeError, Examples.started).
Proof.
  split.
  - apply (@run_nothing_to_do Examples.env OpenAIOnly Examples.talk 0
             Examples.started); [discriminate | now left].
  - apply (@run_nothing_to_do Examples.env OpenAIOnly Examples.no_conversation
             3 Examples.started). reflexivity.
Defined.

Section NoWait.
Variable E : Env.

Lemma after_check_below w :
  (clock w + drift_at E (reads w) - lastResetTime (llm w) < 60000)%Z ->
  limit_reached (llm w) = false ->
  after_check E w = tick E w.
Proof.
  intros Hel Hlim. unfold after_check. cbv zeta. cbn [tick clock].
  rewrite (proj2 (Z.leb_gt _ _) Hel), Hlim. reflexivity.
Qed.
End NoWait.

(** X14.  A call of the adapter in an open window whose counter is below
    the threshold, or whose threshold did not parse, reads the clock once
    and sends its request then: no timer is set and the window is kept. *)
Theorem below_limit_no_wait E rev agentName systemPrompt messages
  privateThoughts w :
  provider_supported rev (llm w) = true ->
  (clock w + drift_at E (reads w) - lastResetTime (llm w) < 60000)%Z ->
  (rateLimit (llm w) = None
   \/ exists r, rateLimit (llm w) = Some r /\ (requestCount (llm w) < r)%Z) ->
  let w1 := snd (llm_generateAgentResponse E rev agentName systemPrompt
                   messages privateThoughts w) in
  exists d,
    dispatches w1 = dispatches w ++ [d]
    /\ d_time d = (clock w + drift_at E (reads w))%Z
    /\ clock w1 = d_time d
    /\ reads w1 = S (reads w)
    /\ lastResetTime (llm w1) = lastResetTime (llm w)
    /\ rateLimit (llm w1) = rateLimit (llm w).
Proof.
  intros Hsup Hel Hbelow. cbv zeta. rewrite adapter_cases. cbv zeta.
  rewrite Hsup.
  assert (Hlim : limit_reached (llm w) = false).
  { unfold limit_reached. destruct Hbelow as [-> | (r & -> & Hr)];
      [reflexivity | now apply Z.leb_gt]. }
  rewrite (after_check_below E w Hel Hlim).
  destruct (answer E w _); cbn [snd]; eexists;
    unfold counted, dispatched, set_llm, tick;
    cbn [dispatches clock reads llm d_time lastResetTime rateLimit];
    repeat split.
Qed.

Lemma below_limit_no_wait_witness :
  exists d,
    dispatches (snd (llm_generateAgentResponse Examples.env OpenAIOnly
                       (js "User A") baseSystemPrompt [] [] (Examples.fresh 2)))
    = dispatches (Examples.fresh 2) ++ [d]
    /\ d_time d = 5%Z.
Proof.
  destruct (@below_limit_no_wait Examples.env OpenAIOnly (js "User A")
              baseSystemPrompt [] [] (Examples.fresh 2))
    as (d & Hd & Ht & _).
  - reflexivity.
  - cbn. lia.
  - right. exists 2%Z. split; [reflexivity | cbn; lia].
  - exists d. split; [exact Hd | exact Ht].
Defined.

Section InsertLookup.

End InsertLookup.



(* ================================================================== *)
(** * Continuing a conversation *)
(* ================================================================== *)

Section Continue.

Lemma NoDup_map_filter {A B : Type} (key : A -> B) (f : A -> bool) l :
  NoDup (map key l) -> NoDup (map key (filter f l)).
Proof.
  induction l as [|a l IH]; cbn [map filter]; intros H; [constructor|].
  inversion H as [|x xs Hnotin Hnd]; subst.
  destruct (f a); [|now apply IH]. cbn [map]. constructor; [|now apply IH].
  intros Hin. apply Hnotin. apply in_map_iff in Hin.
  destruct Hin as (b & Hb & Hin). apply filter_In in Hin.
  rewrite <- Hb. apply in_map. exact (proj1 Hin).
Qed.

(** What [loadConversation] returns is in step with the store. *)
Lemma loaded_in_sync conversationId c w :
  keys_unique (store w) ->
  Forall (fun x => (DbMessage.timestamp x <= clock w)%Z)
    (DatabaseService.messages (store w)) ->
  DatabaseService.loadConversation conversationId (store w) = Some c ->
  Conversation.id c = conversationId /\ in_sync c w.
Proof.
  intros (_ & Ka & _) Hts Hload.
  assert (Hid : Conversation.id c = conversationId).
  { unfold DatabaseService.loadConversation,
      DatabaseService.getConversation in Hload.
    destruct (find _ _) as [row|] eqn:Hfind; [|discriminate].
    apply find_some in Hfind. destruct Hfind as [_ Hrow].
    inversion Hload; subst c. cbn [Conversation.id]. now apply eqb_eq. }
  split; [exact Hid|]. split; [now rewrite Hid|]. split; [exact Hts|].
  unfold DatabaseService.loadConversation in Hload.
  destruct (DatabaseService.getConversation conversationId (store w));
    [|discriminate].
  inversion Hload; subst c. cbn [Conversation.agents].
  rewrite map_map. cbn [Agent.id].
  unfold DatabaseService.getAgentsForConversation.
  now apply NoDup_map_filter.
Qed.
End Continue.

(** X16.  Continuing a stored conversation: with unique primary keys, no
    message row dated after the clock and a clock that does not run
    backwards, the conversation that [loadConversation] returns, once run
    for more turns, is again what [loadConversation] returns for its
    identifier.  Stated for a store whose text holds no lone surrogate,
    and an identifier and a returned aggregate that hold none: the rows
    written are then the rows the store holds. *)
Theorem continue_then_load E rev conversationId numTurns w c w1 c' w' :
  monotonic E ->
  keys_unique (store w) ->
  Forall (fun x => (DbMessage.timestamp x <= clock w)%Z)
    (DatabaseService.messages (store w)) ->
  written (store w) = store w ->
  kept conversationId = true ->
  loadConversation conversationId w = (Ok (Some c), w1) ->
  runConversation E rev c numTurns w1 = (Ok c', w') ->
  conversation_kept c' = true ->
  written (store w') = store w'
  /\ loadConversation conversationId w' = (Ok (Some c'), w')
  /\ read_back conversationId (store w') = Some c'.
Proof.
  intros Hmono Hkeys Hts Hold Hcid Hload Hrun Hkept.
  unfold loadConversation in Hload. inversion Hload as [[Hc Hw]].
  subst w1. destruct (@loaded_in_sync _ _ _ Hkeys Hts Hc) as (Hid & Hs).
  unfold runConversation in Hrun.
  destruct (Conversation.messages c) as [|first others]; [discriminate|].
  pose proof (run_turns_turns _ _ _ _ _ _ Hrun) as (ts & _ & Hc' & _).
  destruct (@run_turns_sync E rev Hmono _ _ _ _ _ _ Hs Hrun) as (Hload' & _).
  pose proof (proj2 (@run_turns_written E rev _ _ _ _ _ _ Hrun Hkept) Hold)
    as Hnew.
  assert (Hfound : DatabaseService.loadConversation conversationId (store w')
                   = Some c').
  { rewrite <- Hid.
    replace (Conversation.id c) with (Conversation.id c')
      by (rewrite Hc'; apply id_plays).
    exact Hload'. }
  split; [exact Hnew|]. split.
  - unfold loadConversation. now rewrite Hfound.
  - unfold read_back. now rewrite Hnew, (@kept_eq _ Hcid).
Qed.

Lemma continue_then_load_witness :
  exists c' w',
    runConversation Examples.env OpenAIOnly Examples.talk 1 Examples.started
    = (Ok c', w')
    /\ loadConversation (Conversation.id Examples.talk) w' = (Ok (Some c'), w')
    /\ read_back (Conversation.id Examples.talk) (store w') = Some c'.
Proof.
  assert (H : exists c' w',
             runConversation Examples.env OpenAIOnly Examples.talk 1
               Examples.started = (Ok c', w'))
    by (eexists; eexists; vm_compute; reflexivity).
  destruct H as (c' & w' & H). exists c', w'. split; [exact H|].
  apply (@continue_then_load Examples.env OpenAIOnly
           (Conversation.id Examples.talk) 1 Examples.started Examples.talk
           Examples.started c' w').
  - intros n. cbn. lia.
  - vm_compute. repeat split; repeat constructor; cbn; intuition discriminate.
  - repeat constructor; vm_compute; discriminate.
  - vm_compute. reflexivity.
  - vm_compute. reflexivity.
  - vm_compute. reflexivity.
  - exact H.
  - replace c' with (Examples.value Examples.no_conversation
                       (runConversation Examples.env OpenAIOnly Examples.talk
                          1 Examples.started))
      by (unfold Examples.value; now rewrite H).
    vm_compute. reflexivity.
Defined.

(* ================================================================== *)
(** * What a request says *)
(* ================================================================== *)

Section Asked.
Variable E : Env.
Variable rev : Revision.

Lemma adapter_asks agentName systemPrompt messages privateThoughts w :
  let w1 := snd (llm_generateAgentResponse E rev agentName systemPrompt
                   messages privateThoughts w) in
  exists new,
    dispatches w1 = dispatches w ++ new
    /\ map d_request new
       = if provider_supported rev (llm w)
         then [formatMessagesForApi agentName systemPrompt messages
                 privateThoughts]
         else [].
Proof.
  cbv zeta. rewrite adapter_cases. cbv zeta.
  destruct (checkRateLimit_Ok E w) as (_ & _ & _ & Hd & _).
  destruct (provider_supported rev (llm w)) eqn:Hs.
  - destruct (answer E w _); cbn [snd]; eexists;
      (split;
        [unfold counted, dispatched, set_llm; cbn [dispatches];
         rewrite Hd; reflexivity
        | reflexivity]).
  - cbn [snd]. exists []. now rewrite app_nil_r.
Qed.

Lemma generateAgentResponse_asks c k w c' w' :
  generateAgentResponse E rev c (Z.of_nat k) w = (Ok c', w') ->
  exists t new,
    t_index t = k /\ c' = play c t /\ turn_of c t
    /\ dispatches w' = dispatches w ++ new
    /\ map d_request new
       = if provider_supported rev (llm w) then asked c [t] else [].
Proof.
  intros H. apply generateAgentResponse_Ok in H.
  destruct H as (agent & response & w1 & Hget & Hcall & -> & ->).
  rewrite array_get_of_nat in Hget. rewrite Nat2Z.id.
  pose proof (adapter_asks (Agent.name agent) (Agent.systemPrompt agent)
                (public_history c) (Agent.privateThoughts agent) w) as Had.
  cbv zeta in Had. rewrite Hcall in Had. cbn [snd] in Had.
  destruct Had as (new & Hnew & Hreq).
  exists {| t_index := k;
            t_public := turn_public E c agent response w w1;
            t_private := turn_private E c agent response w w1 |}, new.
  split; [reflexivity|]. split; [reflexivity|]. split.
  { exists (Agent.id agent), (Agent.name agent).
    unfold author. cbn [t_index t_public t_private]. rewrite Hget.
    repeat split. }
  split; [exact Hnew|]. rewrite Hreq.
  cbn [asked t_index]. now rewrite Hget.
Qed.

Lemma asked_app ts1 : forall c ts2,
  asked c (ts1 ++ ts2) = asked c ts1 ++ asked (fold_left play ts1 c) ts2.
Proof.
  induction ts1 as [|t ts1 IH]; intros c ts2; cbn [app asked fold_left];
    [reflexivity|].
  now rewrite IH.
Qed.

Lemma run_agents_asks n : forall k c w c' w',
  run_agents E rev n k c w = (Ok c', w') ->
  exists ts new,
    c' = fold_left play ts c
    /\ Forall (turn_of c) ts
    /\ dispatches w' = dispatches w ++ new
    /\ map d_request new
       = if provider_supported rev (llm w) then asked c ts else [].
Proof.
  induction n as [|n IH]; intros k c w c' w' H; cbn [run_agents] in H.
  - inversion H; subst. exists [], [].
    rewrite app_nil_r. repeat split; [constructor|].
    now destruct (provider_supported rev (llm w')).
  - destruct (nth_error (Conversation.agents c) k) as [agent|];
      [|discriminate].
    inv_bind H.
    pose proof (generateAgentResponse_request _ _ _ _ _ H0) as (Hsup1 & _).
    apply generateAgentResponse_asks in H0.
    destruct H0 as (t & new1 & Hk & -> & Ht & Hd1 & Hh1).
    apply IH in H.
    destruct H as (ts & new2 & -> & Hts & Hd2 & Hh2).
    exists (t :: ts), (new1 ++ new2). cbn [fold_left]. repeat split.
    + constructor; [exact Ht|].
      eapply Forall_impl; [|exact Hts].
      intros t' Ht'. exact (@turn_of_plays [t] c t' Ht').
    + now rewrite Hd2, Hd1, <- app_assoc.
    + rewrite map_app, Hh1, Hh2, Hsup1.
      destruct (provider_supported rev (llm w)); reflexivity.
Qed.

Lemma run_turns_asks numTurns numAgents : forall c w c' w',
  run_turns E rev numTurns numAgents c w = (Ok c', w') ->
  exists ts new,
    c' = fold_left play ts c
    /\ Forall (turn_of c) ts
    /\ dispatches w' = dispatches w ++ new
    /\ map d_request new
       = if provider_supported rev (llm w) then asked c ts else [].
Proof.
  induction numTurns as [|n IH]; intros c w c' w' H; cbn [run_turns] in H.
  - inversion H; subst. exists [], [].
    rewrite app_nil_r. repeat split; [constructor|].
    now destruct (provider_supported rev (llm w')).
  - inv_bind H.
    pose proof (@run_agents_requests E rev _ _ _ _ _ _ H0) as (Hsup1 & _).
    apply run_agents_asks in H0.
    destruct H0 as (ts1 & new1 & -> & Hts1 & Hd1 & Hh1).
    apply IH in H.
    destruct H as (ts2 & new2 & -> & Hts2 & Hd2 & Hh2).
    exists (ts1 ++ ts2), (new1 ++ new2). repeat split.
    + now rewrite fold_left_app.
    + apply Forall_app. split; [exact Hts1|].
      eapply Forall_impl; [|exact Hts2].
      intros t Ht. exact (turn_of_plays ts1 c Ht).
    + now rewrite Hd2, Hd1, <- app_assoc.
    + rewrite map_app, Hh1, Hh2, Hsup1, asked_app.
      destruct (provider_supported rev (llm w)); reflexivity.
Qed.

Lemma named_play c t : named c -> named (play c t).
Proof.
  intros Hc k a. unfold play, apply_turn. cbn [Conversation.agents].
  rewrite array_update_nth. destruct (k =? t_index t); [|apply Hc].
  destruct (nth_error (Conversation.agents c) k) as [b|] eqn:Hb;
    [|discriminate].
  cbn [option_map]. intros H. inversion H; subst a.
  unfold push_thought. cbn [Agent.name Agent.systemPrompt]. now apply Hc.
Qed.

(** The request of the turn of index [j], in closed form. *)
Lemma asked_nth ts : forall c j t,
  Forall (turn_of c) ts -> named c ->
  nth_error ts j = Some t ->
  nth_error (asked c ts) j
  = Some (formatMessagesForApi (agent_name (t_index t)) baseSystemPrompt
            (public_history c ++ map t_public (firstn j ts))
            (thoughts_of c (t_index t)
             ++ map t_private
                  (filter (fun t' => t_index t' =? t_index t)
                          (firstn j ts)))).
Proof.
  induction ts as [|t0 ts IH]; intros c [|j] t Hts Hc Hj;
    cbn [nth_error] in Hj; try discriminate; cbn [asked nth_error].
  - inversion Hj; subst t0. cbn [firstn map filter]. rewrite !app_nil_r.
    inversion Hts as [|t0' ts' Ht0 Hts']; subst.
    destruct Ht0 as (id & name & Hauth & _).
    unfold author in Hauth. unfold thoughts_of.
    destruct (nth_error (Conversation.agents c) (t_index t)) as [a|] eqn:Ha;
      [|discriminate].
    destruct (Hc _ _ Ha) as [-> ->]. reflexivity.
  - inversion Hts as [|t0' ts' Ht0 Hts']; subst.
    rewrite (IH (play c t0) j t);
      [|now apply Forall_impl with (2 := Hts'); intros t'; apply turn_of_play
       |now apply named_play | exact Hj].
    destruct Ht0 as (id & name & Hauth & _ & _ & _ & _ & _ & _ & Hpub & _).
    rewrite public_history_play by exact Hpub.
    rewrite thoughts_of_play by (rewrite Hauth; discriminate).
    cbn [firstn map filter]. rewrite <- !app_assoc.
    destruct (t_index t0 =? t_index t); reflexivity.
Qed.

(** The request made of a history that starts with a message of no agent
    and goes on with what the agents said. *)
Lemma format_seeded agentName systemPrompt seed ts thoughts :
  Message.agentName seed = None ->
  Forall (fun t => Message.agentName (t_public t)
                   = Some (agent_name (t_index t))) ts ->
  formatMessagesForApi agentName systemPrompt
    (seed :: map t_public ts) thoughts
  = instructions agentName systemPrompt
    :: thoughts_note thoughts
    ++ {| role := js "user"; content := Message.content seed |}
       :: map said ts.
Proof.
  intros Hseed Hts. unfold formatMessagesForApi. cbv zeta.
  cbn [map]. rewrite Hseed. cbn [app]. f_equal. f_equal.
  - now destruct thoughts.
  - f_equal. rewrite map_map.
    apply map_ext_in. intros t Ht. rewrite Forall_forall in Hts.
    rewrite (Hts t Ht). reflexivity.
Qed.

(** The agents [createConversation] makes sign with the names it gave
    them. *)
Lemma created_named n u c :
  Conversation.agents c = new_agents E n 0 u -> named c.
Proof.
  intros Hagents k a Ha. rewrite Hagents in Ha.
  assert (Hk : k < n).
  { rewrite <- (new_agents_length E n 0 u). apply nth_error_Some.
    now rewrite Ha. }
  rewrite (@new_agents_nth E n 0 u k Hk) in Ha.
  inversion Ha; subst a. split; reflexivity.
Qed.

Lemma named_turn c t :
  named c -> turn_of c t ->
  Message.agentName (t_public t) = Some (agent_name (t_index t)).
Proof.
  intros Hc (id & name & Hauth & _ & _ & Hname & _).
  rewrite Hname. f_equal. unfold author in Hauth.
  destruct (nth_error (Conversation.agents c) (t_index t)) as [a|] eqn:Ha;
    [|discriminate].
  cbn [option_map] in Hauth. inversion Hauth; subst.
  now apply Hc.
Qed.
End Asked.

(** X17.  In a run of a conversation just created, the request of every
    turn is: the instructions, which name the agent whose turn it is and
    carry the system prompt; then, if that agent spoke before, one system
    message with the thoughts of its earlier turns; then the seed message
    with the topic as the one [user] message; then what was said in every
    turn before, in order, each as an [assistant] message that starts with
    the name of its speaker, the agent's own earlier messages included. *)
Theorem run_request_contents E rev topic numAgents numTurns w0 c w c' w' :
  createConversation E topic numAgents w0 = (Ok c, w) ->
  runConversation E rev c numTurns w = (Ok c', w') ->
  provider_supported rev (llm w) = true ->
  exists ts new,
    Conversation.messages c' = Conversation.messages c ++ map t_public ts
    /\ dispatches w' = dispatches w ++ new
    /\ length new = length ts
    /\ forall j t d,
         nth_error ts j = Some t -> nth_error new j = Some d ->
         d_request d
         = instructions (agent_name (t_index t)) baseSystemPrompt
           :: thoughts_note
                (map t_private
                   (filter (fun t' => t_index t' =? t_index t)
                           (firstn j ts)))
           ++ {| role := js "user";
                 content :=
                   js "Let's discuss the following topic: " ++ topic |}
              :: map said (firstn j ts).
Proof.
  intros Hcreate Hrun Hsup.
  pose proof (createConversation_Ok _ _ _ _ Hcreate) as (Hc & _).
  cbv zeta in Hc.
  assert (Hagents : Conversation.agents c
                    = new_agents E numAgents 0 (S (uuids w0)))
    by (rewrite Hc; reflexivity).
  assert (Hmsgs : Conversation.messages c
                  = [seed_message (uuid_at E (S (uuids w0) + numAgents))
                       (uuid_at E (uuids w0)) topic
                       (clock w0 + drift_at E (reads w0))%Z])
    by (rewrite Hc; reflexivity).
  pose proof (created_named E _ _ c Hagents) as Hnamed.
  unfold runConversation in Hrun. rewrite Hmsgs in Hrun.
  apply run_turns_asks in Hrun.
  destruct Hrun as (ts & new & Hc' & Hts & Hd & Hh).
  rewrite Hsup in Hh.
  assert (Hlen : length new = length ts).
  { rewrite <- (length_map d_request), Hh. clear. revert c.
    induction ts as [|t ts IH]; intros c; cbn [asked length];
      [reflexivity | now rewrite IH]. }
  exists ts, new. split; [now rewrite Hc', messages_plays|].
  split; [exact Hd|]. split; [exact Hlen|].
  intros j t d Ht Hj.
  pose proof (asked_nth j Hts Hnamed Ht) as Hask. rewrite <- Hh in Hask.
  rewrite nth_error_map, Hj in Hask. cbn [option_map] in Hask.
  injection Hask as Hreq. rewrite Hreq.
  assert (Hnone : thoughts_of c (t_index t) = []).
  { unfold thoughts_of. rewrite Hagents.
    destruct (nth_error (new_agents E numAgents 0 (S (uuids w0))) (t_index t))
      as [a|] eqn:Ha; [|reflexivity].
    exact (new_agents_no_thoughts E _ _ _ _ (nth_error_In _ _ Ha)). }
  rewrite Hnone. cbn [app]. unfold public_history. rewrite Hmsgs.
  cbn [filter seed_message Message.isPrivate negb app].
  apply format_seeded; [reflexivity|].
  apply Forall_forall. intros t' Ht'.
  apply (@named_turn c t' Hnamed).
  rewrite Forall_forall in Hts. apply Hts.
  rewrite <- (firstn_skipn j ts). apply in_or_app. now left.
Qed.

Lemma run_request_contents_witness :
  exists c' w' ts new,
    runConversation Examples.env OpenAIOnly Examples.talk 1 Examples.started
    = (Ok c', w')
    /\ dispatches w' = dispatches Examples.started ++ new
    /\ length new = length ts
    /\ Conversation.messages c'
       = Conversation.messages Examples.talk ++ map t_public ts.
Proof.
  assert (H : exists c' w',
             runConversation Examples.env OpenAIOnly Examples.talk 1
               Examples.started = (Ok c', w'))
    by (eexists; eexists; vm_compute; reflexivity).
  destruct H as (c' & w' & H).
  assert (H0 : createConversation Examples.env (js "cats") 2 (Examples.fresh 2)
               = (Ok Examples.talk, Examples.started))
    by (vm_compute; reflexivity).
  destruct (@run_request_contents Examples.env OpenAIOnly (js "cats") 2 1
              (Examples.fresh 2) Examples.talk Examples.started c' w' H0 H
              eq_refl) as (ts & new & Hm & Hd & Hl & _).
  exists c', w', ts, new. repeat split; assumption.
Defined.

(* ================================================================== *)
(** * The identifiers of the messages of a run *)
(* ================================================================== *)

Section Identifiers.

Lemma NoDup_app_disjoint {A : Type} (l1 l2 : list A) a :
  NoDup (l1 ++ l2) -> In a l2 -> ~ In a l1.
Proof.
  induction l1 as [|b l1 IH]; cbn [app]; intros H Ha Hin; [destruct Hin|].
  inversion H as [|x xs Hnotin Hnd]; subst.
  destruct Hin as [-> | Hin]; [|now apply IH].
  apply Hnotin, in_or_app. now right.
Qed.

Lemma not_In_key {A : Type} (key : A -> jsstring) id l :
  ~ In id (map key l) -> existsb (fun a => eqb (key a) id) l = false.
Proof.
  intros H. destruct (existsb _ l) eqn:He; [|reflexivity].
  apply existsb_exists in He. destruct He as (a & Ha & Heq).
  apply eqb_eq in Heq. elim H. rewrite <- Heq. now apply in_map.
Qed.

Lemma turn_rows_ids ts :
  map DbMessage.id (flat_map turn_rows ts) = turn_ids ts.
Proof.
  unfold turn_ids. induction ts as [|t ts IH]; cbn [flat_map map app];
    [reflexivity|].
  rewrite map_app, IH. reflexivity.
Qed.
End Identifiers.

(** X18.  In a consistent store, the messages of a run that completes
    carry identifiers that were new to the store and differ from one
    another: had [uuidv4] repeated itself, the store would have refused the
    message and the run would not have completed. *)
Theorem run_message_ids_new E rev c numTurns w c' w' :
  consistent (store w) ->
  runConversation E rev c numTurns w = (Ok c', w') ->
  exists ts,
    Conversation.messages c' = Conversation.messages c ++ map t_public ts
    /\ DatabaseService.messages (store w')
       = DatabaseService.messages (store w) ++ flat_map turn_rows ts
    /\ NoDup (turn_ids ts)
    /\ forall id, In id (turn_ids ts) ->
         DatabaseService.has_message (store w) id = false.
Proof.
  intros Hw Hrun.
  pose proof (keeps_run E rev c numTurns w Hw) as ((_ & _ & Km) & _).
  rewrite Hrun in Km. cbn [snd] in Km.
  unfold runConversation in Hrun.
  destruct (Conversation.messages c) as [|first others] eqn:Hm;
    [discriminate|].
  apply run_turns_turns in Hrun.
  destruct Hrun as (ts & _ & -> & _ & Hrows).
  rewrite Hrows, map_app, turn_rows_ids in Km.
  exists ts. split; [now rewrite messages_plays, Hm|].
  split; [exact Hrows|]. split; [exact (NoDup_app_remove_l _ _ Km)|].
  intros id Hid. apply not_In_key.
  exact (@NoDup_app_disjoint _ _ _ _ Km Hid).
Qed.

Lemma run_message_ids_new_witness :
  exists c' w' ts,
    runConversation Examples.env OpenAIOnly Examples.talk 1 Examples.started
    = (Ok c', w')
    /\ Conversation.messages c'
       = Conversation.messages Examples.talk ++ map t_public ts
    /\ NoDup (turn_ids ts).
Proof.
  assert (H : exists c' w',
             runConversation Examples.env OpenAIOnly Examples.talk 1
               Examples.started = (Ok c', w'))
    by (eexists; eexists; vm_compute; reflexivity).
  destruct H as (c' & w' & H).
  assert (H0 : consistent (store Examples.started)).
  { split.
    - vm_compute. repeat split; repeat constructor; cbn; intuition discriminate.
    - intros _. split.
      + intros a [<- | [<- | []]]; reflexivity.
      + intros x [<- | []]. split; reflexivity. }
  destruct (@run_message_ids_new Examples.env OpenAIOnly Examples.talk 1
              Examples.started c' w' H0 H) as (ts & Hm & _ & Hnd & _).
  exists c', w', ts. repeat split; assumption.
Defined.
